(** * YieldCore: the staking vault, embedded and verified

    A shallow embedding of [YieldCore.sol] (Solidity > 0.8.18, checked
    arithmetic) together with the properties of its stake life cycle and
    reward accounting.

    - [uint256] values are [N]; every [+], [-] and [*] of the contract is a
      checked operation that panics instead of wrapping.
    - A transaction is a function from the contract storage to a [result]:
      [Ok] carries the storage after the call, [Err] the reason of the revert
      (a revert rolls the storage back, see [transact]).
    - [mapping]s are [gmap]s read with a default, dynamic arrays are lists
      read with [!!] (an index out of range panics) and written with
      [<[i:=x]>].
    - The staking token is the [IERC20] interface; the contract only sees it
      through [safeTransferFrom], [safeTransfer] and [balanceOf].  A token
      call is a function of the token state: it cannot call back into the
      vault, so the [nonReentrant] guard has nothing to do here and is left
      out.
    - Call arguments and timestamps range over all of [N]; what is proved of
      every reachable storage holds in particular of those reached with
      256-bit arguments. *)

From Stdlib Require Import NArith ZArith Lia DecimalString DecimalN.
From Stdlib Require Import DecimalFacts DecimalPos.
From Stdlib Require Ascii String.
From stdpp Require Import gmap strings list fin_maps sorting.

Local Open Scope N_scope.

(** ** Machine integers and reverts *)

Abbreviation address := N (only parsing).

Definition MAX_UINT256 : N := 2 ^ 256 - 1.

(** [uint256 x]: [x] is a value of Solidity's [uint256]. *)
Definition uint256 (x : N) : Prop := x <= MAX_UINT256.

Inductive error : Type :=
  | RequireFailed (reason : string)   (* require(cond, reason) *)
  | Panic_Arithmetic                  (* Panic(0x11): over- or underflow *)
  | Panic_OutOfBounds                 (* Panic(0x32): array index *)
  | EnforcedPause                     (* Pausable.whenNotPaused *)
  | ExpectedPause                     (* Pausable.whenPaused *)
  | OwnableUnauthorizedAccount (account : address)
  | OwnableInvalidOwner (account : address)
  | SafeERC20FailedOperation.

Inductive result (A : Type) : Type :=
  | Ok (a : A)
  | Err (e : error).
Arguments Ok {A} a.
Arguments Err {A} e.

Definition bind {A B} (m : result A) (k : A -> result B) : result B :=
  match m with
  | Ok a => k a
  | Err e => Err e
  end.

Notation "'let!' x ':=' m 'in' k" := (bind m (fun x => k))
  (at level 10, x name, m at level 100, k at level 200).

Definition require (cond : bool) (reason : string) : result unit :=
  if cond then Ok tt else Err (RequireFailed reason).

Definition checked_add (a b : N) : result N :=
  if a + b <=? MAX_UINT256 then Ok (a + b) else Err Panic_Arithmetic.

Definition checked_sub (a b : N) : result N :=
  if b <=? a then Ok (a - b) else Err Panic_Arithmetic.

Definition checked_mul (a b : N) : result N :=
  if a * b <=? MAX_UINT256 then Ok (a * b) else Err Panic_Arithmetic.

(** ** Storage layout *)

Record StakeInfo : Type := mkStake {
  amount : N;
  startTime : N;
  lockPeriod : N;
  fixedRate : N;
  rewardsClaimed : N;
  active : bool;
  expired : bool
}.

Inductive event : Type :=
  | LockParametersUpdated (lockPeriod dailyRate penaltyRate : N)
  | RewardFunded (owner : address) (amount : N)
  | Staked (user : address) (stakeIndex amount lockPeriod : N)
  | ClaimedReward (user : address) (stakeIndex reward : N)
  | UnstakeAfterLock (user : address) (stakeIndex principal reward : N)
  | EarlyUnstake (user : address) (stakeIndex principal penalty : N)
  | StakeExpired (user : address) (stakeIndex : N)
  | EmergencyWithdrawal (user : address) (stakeIndex principal : N)
  | ExcessRewardsWithdrawn (owner : address) (amount : N)
  | Paused (account : address)
  | Unpaused (account : address)
  | OwnershipTransferred (previousOwner newOwner : address).

(** The token as the vault sees it: [safeTransferFrom from v] pulls [v] from
    [from] into the vault, [safeTransfer to v] pushes [v] out of the vault,
    [balanceOf] is the vault's own balance.  A call either succeeds with the
    new token state or fails as a whole. *)
Class IERC20 (T : Type) : Type := {
  balanceOf : T -> N;
  safeTransferFrom : address -> N -> T -> option T;
  safeTransfer : address -> N -> T -> option T
}.

Definition token_call {T} (r : option T) : result T :=
  match r with
  | Some t => Ok t
  | None => Err SafeERC20FailedOperation
  end.

Definition MAX_REWARD_TIME : N := 86400.   (* 1 days *)
Definition DIVISOR : N := 100.
Definition GRACE_PERIOD : N := 172800.     (* 2 days *)
Definition ONE_DAY : N := 86400.           (* the literal [1 days] *)

Section Vault.

Context {T : Type} `{Token : !IERC20 T}.

Record YieldCore : Type := mkYieldCore {
  stakingToken : T;
  rewardPool : N;
  stakes : gmap N (list StakeInfo);
  dailyRateByLock : gmap N N;
  penaltyByLock : gmap N N;
  paused : bool;
  owner : address;
  logs : list event
}.

(** Reading a [mapping]: an absent key reads as the zero value. *)
Definition stakes_of (st : YieldCore) (user : address) : list StakeInfo :=
  default [] (stakes st !! user).

Definition dailyRate_of (st : YieldCore) (lock : N) : N :=
  default 0 (dailyRateByLock st !! lock).

Definition penalty_of (st : YieldCore) (lock : N) : N :=
  default 0 (penaltyByLock st !! lock).

(** [stakes[user][index]]: out of range is a panic. *)
Definition stake_at (st : YieldCore) (user : address) (index : N)
  : result StakeInfo :=
  match stakes_of st user !! N.to_nat index with
  | Some s => Ok s
  | None => Err Panic_OutOfBounds
  end.

Definition set_stakingToken (t : T) (st : YieldCore) : YieldCore :=
  mkYieldCore t (rewardPool st) (stakes st) (dailyRateByLock st)
    (penaltyByLock st) (paused st) (owner st) (logs st).

Definition set_rewardPool (p : N) (st : YieldCore) : YieldCore :=
  mkYieldCore (stakingToken st) p (stakes st) (dailyRateByLock st)
    (penaltyByLock st) (paused st) (owner st) (logs st).

Definition set_stakes (m : gmap N (list StakeInfo)) (st : YieldCore)
  : YieldCore :=
  mkYieldCore (stakingToken st) (rewardPool st) m (dailyRateByLock st)
    (penaltyByLock st) (paused st) (owner st) (logs st).

Definition set_paused (b : bool) (st : YieldCore) : YieldCore :=
  mkYieldCore (stakingToken st) (rewardPool st) (stakes st)
    (dailyRateByLock st) (penaltyByLock st) b (owner st) (logs st).

Definition set_owner (a : address) (st : YieldCore) : YieldCore :=
  mkYieldCore (stakingToken st) (rewardPool st) (stakes st)
    (dailyRateByLock st) (penaltyByLock st) (paused st) a (logs st).

Definition emit (e : event) (st : YieldCore) : YieldCore :=
  mkYieldCore (stakingToken st) (rewardPool st) (stakes st)
    (dailyRateByLock st) (penaltyByLock st) (paused st) (owner st)
    (logs st ++ [e]).

(** A write through the storage pointer [s = stakes[user][index]]. *)
Definition write_stake (user : address) (index : N) (s : StakeInfo)
    (st : YieldCore) : YieldCore :=
  set_stakes
    (<[user := <[N.to_nat index := s]> (stakes_of st user)]> (stakes st)) st.

Definition set_amount (v : N) (s : StakeInfo) : StakeInfo :=
  mkStake v (startTime s) (lockPeriod s) (fixedRate s) (rewardsClaimed s)
    (active s) (expired s).

Definition set_rewardsClaimed (v : N) (s : StakeInfo) : StakeInfo :=
  mkStake (amount s) (startTime s) (lockPeriod s) (fixedRate s) v
    (active s) (expired s).

Definition set_active (b : bool) (s : StakeInfo) : StakeInfo :=
  mkStake (amount s) (startTime s) (lockPeriod s) (fixedRate s)
    (rewardsClaimed s) b (expired s).

Definition set_expired (b : bool) (s : StakeInfo) : StakeInfo :=
  mkStake (amount s) (startTime s) (lockPeriod s) (fixedRate s)
    (rewardsClaimed s) (active s) b.

(** ** Modifiers (OpenZeppelin's Ownable and Pausable) *)

Definition onlyOwner (sender : address) (st : YieldCore) : result unit :=
  if N.eqb (owner st) sender then Ok tt
  else Err (OwnableUnauthorizedAccount sender).

Definition whenNotPaused (st : YieldCore) : result unit :=
  if paused st then Err EnforcedPause else Ok tt.

Definition whenPaused (st : YieldCore) : result unit :=
  if paused st then Ok tt else Err ExpectedPause.

(** ** The contract's functions

    [sender] is [msg.sender] and [now] is [block.timestamp]. *)

Definition setLockParameters (sender : address)
    (_lockPeriod _dailyRate _penaltyRate : N) (st : YieldCore)
  : result YieldCore :=
  let! _ := onlyOwner sender st in
  let! _ := require (0 <? _lockPeriod) "invalid lock period" in
  let st := mkYieldCore (stakingToken st) (rewardPool st) (stakes st)
              (<[_lockPeriod := _dailyRate]> (dailyRateByLock st))
              (<[_lockPeriod := _penaltyRate]> (penaltyByLock st))
              (paused st) (owner st) (logs st) in
  Ok (emit (LockParametersUpdated _lockPeriod _dailyRate _penaltyRate) st).

Definition _isExpired (now : N) (s : StakeInfo) : result bool :=
  let! t := checked_add (startTime s) (lockPeriod s) in
  let! t := checked_add t GRACE_PERIOD in
  Ok (t <=? now).

Definition fundRewardPool (sender : address) (_amount : N) (st : YieldCore)
  : result YieldCore :=
  let! _ := onlyOwner sender st in
  let! _ := whenNotPaused st in
  let! _ := require (0 <? _amount) "can't deposit zero" in
  let! tok := token_call (safeTransferFrom sender _amount (stakingToken st)) in
  let st := set_stakingToken tok st in
  let! pool := checked_add (rewardPool st) _amount in
  let st := set_rewardPool pool st in
  Ok (emit (RewardFunded sender _amount) st).

Definition stake (sender : address) (now : N) (_amount _lockPeriod : N)
    (st : YieldCore) : result YieldCore :=
  let! _ := whenNotPaused st in
  let! _ := require (0 <? _amount) "can't stake zero" in
  let rate := dailyRate_of st _lockPeriod in
  let! _ := require (0 <? rate) "invalid lock period" in
  let! tok := token_call (safeTransferFrom sender _amount (stakingToken st)) in
  let st := set_stakingToken tok st in
  let st := set_stakes
              (<[sender := stakes_of st sender ++
                           [mkStake _amount now _lockPeriod rate 0 true false]]>
                 (stakes st)) st in
  let! last := checked_sub (N.of_nat (length (stakes_of st sender))) 1 in
  Ok (emit (Staked sender last _amount _lockPeriod) st).

Definition calculateReward (now : N) (_user : address) (_index : N)
    (st : YieldCore) : result N :=
  let! s := stake_at st _user _index in
  if negb (active s) then Ok 0
  else if expired s then Ok 0
  else
    let! e := _isExpired now s in
    if e then Ok 0
    else
      let! timeElapsed := checked_sub now (startTime s) in
      let timeElapsed :=
        if MAX_REWARD_TIME <? timeElapsed then MAX_REWARD_TIME
        else timeElapsed in
      let! p := checked_mul (amount s) (fixedRate s) in
      let! p := checked_mul p timeElapsed in
      let totalEarned := p / (DIVISOR * ONE_DAY) in
      if totalEarned <=? rewardsClaimed s then Ok 0
      else Ok (totalEarned - rewardsClaimed s).

Definition claimReward (sender : address) (now : N) (_index : N)
    (st : YieldCore) : result YieldCore :=
  let! _ := whenNotPaused st in
  let! s := stake_at st sender _index in
  let! _ := require (active s) "inactive stake" in
  let! reward := calculateReward now sender _index st in
  let! _ := require (0 <? reward) "no accrued rewards" in
  let! _ := require (reward <=? rewardPool st) "insufficient reward pool" in
  let! claimed := checked_add (rewardsClaimed s) reward in
  let s := set_rewardsClaimed claimed s in
  let st := write_stake sender _index s st in
  let! pool := checked_sub (rewardPool st) reward in
  let st := set_rewardPool pool st in
  let! tok := token_call (safeTransfer sender reward (stakingToken st)) in
  let st := set_stakingToken tok st in
  Ok (emit (ClaimedReward sender _index reward) st).

Definition unstake (sender : address) (now : N) (_index : N)
    (st : YieldCore) : result YieldCore :=
  let! _ := whenNotPaused st in
  let! s := stake_at st sender _index in
  let! _ := require (active s || expired s) "inactive stake" in
  let principal := amount s in
  let! e := _isExpired now s in
  let s := if e then set_expired true s else s in
  let st := if e then write_stake sender _index s st else st in
  let! unlockTime := checked_add (startTime s) (lockPeriod s) in
  let lockExpired := unlockTime <=? now in
  if lockExpired then
    let! reward := calculateReward now sender _index st in
    let! _ := require (reward <=? rewardPool st)
                "insufficient reward pool balance" in
    let! pool := checked_sub (rewardPool st) reward in
    let st := set_rewardPool pool st in
    let! claimed := checked_add (rewardsClaimed s) reward in
    let s := set_rewardsClaimed claimed s in
    let! payout := checked_add principal reward in
    let s := set_active false (set_amount 0 s) in
    let st := write_stake sender _index s st in
    let! tok := token_call (safeTransfer sender payout (stakingToken st)) in
    let st := set_stakingToken tok st in
    Ok (emit (UnstakeAfterLock sender _index principal reward) st)
  else
    let penaltyPercentage := penalty_of st (lockPeriod s) in
    let! p := checked_mul principal penaltyPercentage in
    let penalty := p / DIVISOR in
    let! pool := checked_add (rewardPool st) penalty in
    let st := set_rewardPool pool st in
    let! payout := checked_sub (amount s) penalty in
    let s := set_active false (set_amount 0 s) in
    let st := write_stake sender _index s st in
    let! tok := token_call (safeTransfer sender payout (stakingToken st)) in
    let st := set_stakingToken tok st in
    Ok (emit (EarlyUnstake sender _index principal penalty) st).

Definition cleanUpExpiredStake (sender : address) (now : N)
    (_user : address) (_index : N) (st : YieldCore) : result YieldCore :=
  let! _ := onlyOwner sender st in
  let! s := stake_at st _user _index in
  let! _ := require (active s) "already inactive" in
  let! e := _isExpired now s in
  let! _ := require e "not expired" in
  let s := set_expired true (set_active false s) in
  let st := write_stake _user _index s st in
  Ok (emit (StakeExpired _user _index) st).

Definition emergencyWithdraw (sender : address) (_index : N)
    (st : YieldCore) : result YieldCore :=
  let! _ := whenPaused st in
  let! s := stake_at st sender _index in
  let! _ := require (active s) "invalid stake" in
  let principal := amount s in
  let s := set_active false (set_amount 0 s) in
  let st := write_stake sender _index s st in
  let! tok := token_call (safeTransfer sender principal (stakingToken st)) in
  let st := set_stakingToken tok st in
  Ok (emit (EmergencyWithdrawal sender _index principal) st).

Definition withdrawExcessRewards (sender : address) (st : YieldCore)
  : result YieldCore :=
  let! _ := onlyOwner sender st in
  let! _ := whenPaused st in
  let balance := balanceOf (stakingToken st) in
  let! _ := require (rewardPool st <? balance) "no excess rewards" in
  let! excess := checked_sub balance (rewardPool st) in
  let! tok := token_call (safeTransfer (owner st) excess (stakingToken st)) in
  let st := set_stakingToken tok st in
  Ok (emit (ExcessRewardsWithdrawn (owner st) excess) st).

Definition maxReward (_user : address) (_index : N) (st : YieldCore)
  : result N :=
  let! s := stake_at st _user _index in
  let rate := fixedRate s in
  let! p := checked_mul (amount s) rate in
  Ok (p / 100).

Definition getStakeCount (_user : address) (st : YieldCore) : N :=
  N.of_nat (length (stakes_of st _user)).

Definition getRewardsClaimed (_user : address) (_index : N) (st : YieldCore)
  : result N :=
  let! s := stake_at st _user _index in
  Ok (rewardsClaimed s).

Definition pause (sender : address) (st : YieldCore) : result YieldCore :=
  let! _ := onlyOwner sender st in
  let! _ := whenNotPaused st in
  Ok (emit (Paused sender) (set_paused true st)).

Definition unpause (sender : address) (st : YieldCore) : result YieldCore :=
  let! _ := onlyOwner sender st in
  let! _ := whenPaused st in
  Ok (emit (Unpaused sender) (set_paused false st)).

Definition transferOwnership (sender newOwner : address) (st : YieldCore)
  : result YieldCore :=
  let! _ := onlyOwner sender st in
  if N.eqb newOwner 0 then Err (OwnableInvalidOwner 0)
  else Ok (emit (OwnershipTransferred (owner st) newOwner)
             (set_owner newOwner st)).

Definition renounceOwnership (sender : address) (st : YieldCore)
  : result YieldCore :=
  let! _ := onlyOwner sender st in
  Ok (emit (OwnershipTransferred (owner st) 0) (set_owner 0 st)).

(** ** Transactions and reachable states *)

Inductive call : Type :=
  | SetLockParameters (_lockPeriod _dailyRate _penaltyRate : N)
  | FundRewardPool (_amount : N)
  | Stake (_amount _lockPeriod : N)
  | ClaimReward (_index : N)
  | Unstake (_index : N)
  | CleanUpExpiredStake (_user : address) (_index : N)
  | EmergencyWithdraw (_index : N)
  | WithdrawExcessRewards
  | Pause
  | Unpause
  | TransferOwnership (newOwner : address)
  | RenounceOwnership.

Definition exec (sender : address) (now : N) (c : call) (st : YieldCore)
  : result YieldCore :=
  match c with
  | SetLockParameters l r p => setLockParameters sender l r p st
  | FundRewardPool a => fundRewardPool sender a st
  | Stake a l => stake sender now a l st
  | ClaimReward i => claimReward sender now i st
  | Unstake i => unstake sender now i st
  | CleanUpExpiredStake u i => cleanUpExpiredStake sender now u i st
  | EmergencyWithdraw i => emergencyWithdraw sender i st
  | WithdrawExcessRewards => withdrawExcessRewards sender st
  | Pause => pause sender st
  | Unpause => unpause sender st
  | TransferOwnership a => transferOwnership sender a st
  | RenounceOwnership => renounceOwnership sender st
  end.

(** A transaction that reverts leaves the storage as it was. *)
Definition transact (sender : address) (now : N) (c : call) (st : YieldCore)
  : YieldCore :=
  match exec sender now c st with
  | Ok st' => st'
  | Err _ => st
  end.

(** The storage right after the constructor ran for [deployer]. *)
Definition deployed (deployer : address) (tok : T) : YieldCore :=
  mkYieldCore tok 0 ∅ ∅ ∅ false deployer [].

(** [future now st now' st']: from the storage [st] at time [now], some
    sequence of transactions (any senders, any calls) leads to [st'] at time
    [now']; block timestamps never decrease. *)
Inductive future (now : N) (st : YieldCore) : N -> YieldCore -> Prop :=
  | future_now : future now st now st
  | future_transact now1 st1 sender now2 c :
      future now st now1 st1 ->
      now1 <= now2 ->
      future now st now2 (transact sender now2 c st1).

(** Runs a list of transactions [(sender, now, call)] in order. *)
Definition run (txs : list (address * N * call)) (st : YieldCore)
  : YieldCore :=
  foldl (fun st '(sender, now, c) => transact sender now c st) st txs.

(** The time after [txs], if their timestamps never decrease from [now]. *)
Fixpoint run_clock (now : N) (txs : list (address * N * call)) : option N :=
  match txs with
  | [] => Some now
  | (_, t, _) :: txs => if now <=? t then run_clock t txs else None
  end.

(** [reachable now st]: [st] is the storage of a deployed vault at time
    [now]. *)
Definition reachable (now : N) (st : YieldCore) : Prop :=
  exists deployer tok now0, future now0 (deployed deployer tok) now st.

(** ** The reward formula as the specification words it

    Zero for a stake that is inactive, flagged expired or past its grace
    period; otherwise the amount earned over the elapsed time, capped at
    [MAX_REWARD_TIME], minus what was claimed, never below zero.  Integers
    are unbounded here and the division truncates toward zero. *)
Definition calculateReward_spec (s : StakeInfo) (now : N) : Z :=
  let principal := Z.of_N (amount s) in
  let start := Z.of_N (startTime s) in
  let lockDuration := Z.of_N (lockPeriod s) in
  let claimed := Z.of_N (rewardsClaimed s) in
  let now := Z.of_N now in
  if (negb (active s) || expired s
      || (start + lockDuration + Z.of_N GRACE_PERIOD <=? now)%Z)%bool
  then 0%Z
  else
    let elapsed := Z.min (now - start) (Z.of_N MAX_REWARD_TIME) in
    let totalEarned :=
      Z.quot (principal * Z.of_N (fixedRate s) * elapsed) (100 * 86400) in
    Z.max (totalEarned - claimed) 0.

(** The unsigned products of the accrual formula fit in 256 bits, and the
    clock is not before the stake's start. *)
Definition accrual_fits (s : StakeInfo) (now : N) : Prop :=
  startTime s <= now /\
  uint256 (amount s * fixedRate s) /\
  uint256 (amount s * fixedRate s
           * N.min (now - startTime s) MAX_REWARD_TIME).

(** What one transaction may do to one stake record: the terms fixed at
    creation stay; the claimed total only grows, and when it grows it stays
    under one day's reward on the amount before the call; the record is
    either kept as it is, withdrawn (amount zeroed, inactive) or tombstoned
    by the owner (inactive and expired, amount kept). *)
Definition stake_step (s s' : StakeInfo) : Prop :=
  startTime s' = startTime s /\
  lockPeriod s' = lockPeriod s /\
  fixedRate s' = fixedRate s /\
  (rewardsClaimed s' = rewardsClaimed s \/
   (rewardsClaimed s <= rewardsClaimed s' /\
    rewardsClaimed s' <= amount s * fixedRate s / 100)) /\
  ((amount s' = amount s /\ active s' = active s /\ expired s' = expired s)
   \/ (amount s' = 0 /\ active s' = false)
   \/ (amount s' = amount s /\ active s' = false /\ expired s' = true)).

(** The record and the storage as [unstake] sees them after its expiry
    check: past the grace period the record is flagged expired first. *)
Definition flag_expired (now : N) (s : StakeInfo) : StakeInfo :=
  if startTime s + lockPeriod s + GRACE_PERIOD <=? now
  then set_expired true s else s.

Definition flag_expired_in (sender : address) (now index : N)
    (s : StakeInfo) (st : YieldCore) : YieldCore :=
  if startTime s + lockPeriod s + GRACE_PERIOD <=? now
  then write_stake sender index (set_expired true s) st else st.

(** The storage after the unlocked and after the early path. *)
Definition unstaked_after_lock (sender : address) (now index reward : N)
    (tok : T) (s : StakeInfo) (st : YieldCore) : YieldCore :=
  emit (UnstakeAfterLock sender index (amount s) reward)
    (set_stakingToken tok
       (write_stake sender index
          (set_active false (set_amount 0
             (set_rewardsClaimed (rewardsClaimed s + reward)
                (flag_expired now s))))
          (set_rewardPool (rewardPool st - reward)
             (flag_expired_in sender now index s st)))).

Definition unstaked_early (sender : address) (index penalty : N) (tok : T)
    (s : StakeInfo) (st : YieldCore) : YieldCore :=
  emit (EarlyUnstake sender index (amount s) penalty)
    (set_stakingToken tok
       (write_stake sender index (set_active false (set_amount 0 s))
          (set_rewardPool (rewardPool st + penalty) st))).

(** The invariant behind the reward cap and the tombstones.  Every [Staked]
    event names an existing record, and every record [s] at [(u, i)] has
    exactly one staked amount [A] in the log; its stored amount is [A] while
    it is active and [A] or 0 afterwards, what was claimed stays within one
    day's reward on [A], and an inactive record that is not flagged expired
    holds no principal. *)
Definition staked_inv (st : YieldCore) : Prop :=
  (forall u j a l,
     Staked u j a l ∈ logs st ->
     (N.to_nat j < length (stakes_of st u))%nat) /\
  (forall u i s,
     stakes_of st u !! i = Some s ->
     exists A,
       Staked u (N.of_nat i) A (lockPeriod s) ∈ logs st /\
       (forall A' L', Staked u (N.of_nat i) A' L' ∈ logs st -> A' = A) /\
       (active s = true -> amount s = A) /\
       (amount s = A \/ amount s = 0) /\
       rewardsClaimed s <= A * fixedRate s / 100 /\
       (active s = false -> expired s = false -> amount s = 0)).

End Vault.

(** ** A concrete token

    The vault-side view of a plain ERC-20 ledger whose holders have approved
    the vault: the state is the vault's balance, a pull always arrives, a
    push needs the balance to cover it. *)
Module Ledger.

#[export] Instance ledger : IERC20 N := {|
  balanceOf t := t;
  safeTransferFrom _ v t := Some (t + v);
  safeTransfer _ v t := if v <=? t then Some (t - v) else None
|}.

Abbreviation vault := (@YieldCore N).

Definition deployer : address := 1.
Definition alice : address := 2.

(** The owner registers a 10-minute lock at 10% a day with a 10% penalty
    and funds the pool; alice stakes 100. *)
Definition txs_staked : list (address * N * call) :=
  [ (deployer, 0, SetLockParameters 600 10 10);
    (deployer, 0, FundRewardPool 1000);
    (alice, 0, Stake 100 600) ].

Definition staked : vault := run txs_staked (deployed deployer 0).

(** Alice claims after twelve hours ... *)
Definition txs_claimed_half : list (address * N * call) :=
  txs_staked ++ [ (alice, 43200, ClaimReward 0) ].

Definition claimed_half : vault :=
  run txs_claimed_half (deployed deployer 0).

(** ... again after a day, and then unstakes. *)
Definition txs_withdrawn : list (address * N * call) :=
  txs_claimed_half ++
  [ (alice, 86400, ClaimReward 0); (alice, 86400, Unstake 0) ].

Definition withdrawn : vault := run txs_withdrawn (deployed deployer 0).

(** The owner tombstones alice's stake once its grace period is over. *)
Definition txs_tombstoned : list (address * N * call) :=
  txs_staked ++ [ (deployer, 173400, CleanUpExpiredStake alice 0) ].

Definition tombstoned : vault := run txs_tombstoned (deployed deployer 0).

(** Alice unstakes after the grace period. *)
Definition txs_expired_withdrawn : list (address * N * call) :=
  txs_staked ++ [ (alice, 173400, Unstake 0) ].

Definition expired_withdrawn : vault :=
  run txs_expired_withdrawn (deployed deployer 0).

(** The owner pauses the vault after alice staked. *)
Definition txs_paused : list (address * N * call) :=
  txs_staked ++ [ (deployer, 10, Pause) ].

Definition paused_vault : vault := run txs_paused (deployed deployer 0).

(** A lock with a 101% penalty, and a stake of 50 under it. *)
Definition txs_steep : list (address * N * call) :=
  [ (deployer, 0, SetLockParameters 600 10 101);
    (alice, 0, Stake 50 600) ].

Definition steep : vault := run txs_steep (deployed deployer 0).

(** A lock with a 150% penalty, and a stake of 100 under it. *)
Definition txs_confiscating : list (address * N * call) :=
  [ (deployer, 0, SetLockParameters 600 10 150);
    (alice, 0, Stake 100 600) ].

Definition confiscating : vault :=
  run txs_confiscating (deployed deployer 0).

(** Alice's record in [staked], [claimed_half], [withdrawn], [tombstoned],
    [expired_withdrawn] and [steep]. *)
Definition fresh_stake : StakeInfo := mkStake 100 0 600 10 0 true false.
Definition half_claimed_stake : StakeInfo :=
  mkStake 100 0 600 10 5 true false.
Definition withdrawn_stake : StakeInfo := mkStake 0 0 600 10 10 false false.
Definition tombstoned_stake : StakeInfo :=
  mkStake 100 0 600 10 0 false true.
Definition expired_withdrawn_stake : StakeInfo :=
  mkStake 0 0 600 10 0 false true.
Definition steep_stake : StakeInfo := mkStake 50 0 600 10 0 true false.

(** The transactions that lead from [staked] to [withdrawn]. *)
Definition txs_claims_then_unstake : list (address * N * call) :=
  [ (alice, 43200, ClaimReward 0);
    (alice, 86400, ClaimReward 0);
    (alice, 86400, Unstake 0) ].



(** A vault that was never funded: alice stakes 100, the owner pauses ... *)
Definition txs_unfunded_paused : list (address * N * call) :=
  [ (deployer, 0, SetLockParameters 600 10 10);
    (alice, 0, Stake 100 600);
    (deployer, 10, Pause) ].

Definition unfunded_paused : vault :=
  run txs_unfunded_paused (deployed deployer 0).

(** ... and withdraws the excess. *)
Definition txs_drained : list (address * N * call) :=
  txs_unfunded_paused ++ [ (deployer, 20, WithdrawExcessRewards) ].

Definition drained : vault := run txs_drained (deployed deployer 0).

End Ledger.

(** ** Views and accounting over the whole storage *)

Section VaultViews.

Context {T : Type} `{Token : !IERC20 T}.


Definition getContractBalance (st : @YieldCore T) : N :=
  balanceOf (stakingToken st).

(** Sums over the event log. *)
Definition sum_events (f : event -> N) (l : list event) : N :=
  foldr (fun e acc => f e + acc) 0 l.

(** Tokens credited to the reward pool by an event. *)
Definition pool_credit (e : event) : N :=
  match e with
  | RewardFunded _ a => a
  | EarlyUnstake _ _ _ penalty => penalty
  | _ => 0
  end.

(** Reward debited from the pool by an event. *)
Definition pool_debit (e : event) : N :=
  match e with
  | ClaimedReward _ _ reward => reward
  | UnstakeAfterLock _ _ _ reward => reward
  | _ => 0
  end.

(** Tokens the owner took out through [withdrawExcessRewards]. *)
Definition excess_out (e : event) : N :=
  match e with
  | ExcessRewardsWithdrawn _ a => a
  | _ => 0
  end.

(** The principal held in the records of one account, and in all of them. *)
Definition principal_of (l : list StakeInfo) : N :=
  foldr (fun s acc => amount s + acc) 0 l.

Definition total_principal (st : @YieldCore T) : N :=
  map_fold (fun _ l acc => principal_of l + acc) 0 (stakes st).

(** A plain ERC-20 seen from the vault, with counterparties other than the
    vault itself: a pull that succeeds adds its amount to the vault's
    balance, a push succeeds only within the balance and takes its amount
    off it. *)
Class LawfulToken : Prop := {
  pull_balance from v t t' :
    safeTransferFrom from v t = Some t' -> balanceOf t' = balanceOf t + v;
  push_balance to v t t' :
    safeTransfer to v t = Some t' ->
    v <= balanceOf t /\ balanceOf t' = balanceOf t - v
}.

(** The life of one stake record.  [stake_move st sender now u s s']: a call
    by [sender] at time [now] on the storage [st] may leave a record [s] of
    account [u] as it is, or move it to [s'] by one of the contract's five
    transitions. *)
Inductive stake_move (st : @YieldCore T) (sender : address) (now : N)
    (u : address) : StakeInfo -> StakeInfo -> Prop :=
  | move_none s :
      stake_move st sender now u s s
  | move_claim s reward :
      u = sender -> paused st = false -> active s = true ->
      0 < reward -> reward <= rewardPool st ->
      stake_move st sender now u s
        (set_rewardsClaimed (rewardsClaimed s + reward) s)
  | move_unstake_unlocked s reward :
      u = sender -> paused st = false -> active s || expired s = true ->
      startTime s + lockPeriod s <= now -> reward <= rewardPool st ->
      stake_move st sender now u s
        (set_active false (set_amount 0
           (set_rewardsClaimed (rewardsClaimed s + reward)
              (flag_expired now s))))
  | move_unstake_early s :
      u = sender -> paused st = false -> active s || expired s = true ->
      now < startTime s + lockPeriod s ->
      stake_move st sender now u s (set_active false (set_amount 0 s))
  | move_cleanUp s :
      sender = owner st -> active s = true ->
      startTime s + lockPeriod s + GRACE_PERIOD <= now ->
      stake_move st sender now u s (set_expired true (set_active false s))
  | move_emergency s :
      u = sender -> paused st = true -> active s = true ->
      stake_move st sender now u s (set_active false (set_amount 0 s)).

(** What the lists of records look like after a call: the old records,
    each moved or kept, followed by what was appended. *)
Definition moved_stakes (st : @YieldCore T) (sender : address) (now : N)
    (st' : @YieldCore T) : Prop :=
  forall u, exists l' added,
    stakes_of st' u = l' ++ added /\
    Forall2 (stake_move st sender now u) (stakes_of st u) l' /\
    (added = [] \/
     (u = sender /\ paused st = false /\
      exists a l, 0 < a /\ 0 < dailyRate_of st l /\
        added = [mkStake a now l (dailyRate_of st l) 0 true false])).

(** What a call by someone else may do to a record: nothing, or, by the
    owner, tombstone an active one. *)
Definition untouched_or_tombstoned (by_owner : bool) (s s' : StakeInfo)
  : Prop :=
  s' = s \/
  (by_owner = true /\ active s = true /\
   s' = set_expired true (set_active false s)).

End VaultViews.

(** ** The dashboard's reward arithmetic

    [lib/rewards.ts], the stake list of [useStakingData] and the derived
    values of the [StakeItem] card.  A [bigint] is a [Z]; its [/] truncates
    toward zero. *)
Module Frontend.

Definition SECONDS_PER_DAY : Z := 86400.
Definition MAX_REWARD_TIME : Z := 86400.
Definition GRACE_PERIOD : Z := 172800.
Definition DIVISOR : Z := 100.

Local Open Scope Z_scope.

Definition calculateClaimableReward
    (amount dailyRate elapsedSeconds rewardsClaimed : Z) : Z :=
  let effectiveElapsed :=
    if elapsedSeconds >? MAX_REWARD_TIME then MAX_REWARD_TIME
    else elapsedSeconds in
  let totalEarned :=
    (amount * dailyRate * effectiveElapsed) ÷ (DIVISOR * SECONDS_PER_DAY) in
  if totalEarned <=? rewardsClaimed then 0
  else totalEarned - rewardsClaimed.


Definition isStakeExpired (startTime lockPeriod currentTime : Z) : bool :=
  currentTime >? startTime + lockPeriod + GRACE_PERIOD.

Definition isStakeUnlocked (startTime lockPeriod currentTime : Z) : bool :=
  currentTime >=? startTime + lockPeriod.

Definition hasReachedMaxReward (startTime currentTime : Z) : bool :=
  currentTime >=? startTime + MAX_REWARD_TIME.


Record StakeData : Type := mkStakeData {
  index : nat;
  displayNumber : nat;
  amount : Z;
  startTime : Z;
  lockPeriod : Z;
  fixedRate : Z;
  rewardsClaimed : Z;
  active : bool;
  expired : bool
}.


(** The values [StakeItem] derives for one stake at the browser's
    [currentTime]. *)
Definition elapsed (stake : StakeData) (currentTime : Z) : Z :=
  let diff := currentTime - startTime stake in
  if diff >? 0 then diff else 0.

Definition claimableReward (stake : StakeData) (currentTime : Z) : Z :=
  calculateClaimableReward (amount stake) (fixedRate stake)
    (elapsed stake currentTime) (rewardsClaimed stake).

Definition isExpired (stake : StakeData) (currentTime : Z) : bool :=
  isStakeExpired (startTime stake) (lockPeriod stake) currentTime.

Definition isUnlocked (stake : StakeData) (currentTime : Z) : bool :=
  isStakeUnlocked (startTime stake) (lockPeriod stake) currentTime.

Definition maxRewardReached (stake : StakeData) (currentTime : Z) : bool :=
  hasReachedMaxReward (startTime stake) currentTime.

Definition timeUntilUnlock (stake : StakeData) (currentTime : Z) : Z :=
  let unlockTime := startTime stake + lockPeriod stake in
  if currentTime >=? unlockTime then 0 else unlockTime - currentTime.

Definition timeUntilExpiry (stake : StakeData) (currentTime : Z) : Z :=
  let expiryTime := startTime stake + lockPeriod stake + GRACE_PERIOD in
  if currentTime >=? expiryTime then 0 else expiryTime - currentTime.

Definition isNearingExpiry (stake : StakeData) (currentTime : Z) : bool :=
  isUnlocked stake currentTime && negb (isExpired stake currentTime)
  && (timeUntilExpiry stake currentTime <=? 3600).

Definition canClaim (stake : StakeData) (currentTime : Z)
    (isWrongNetwork : bool) : bool :=
  negb (isExpired stake currentTime)
  && (claimableReward stake currentTime >? 0)
  && negb isWrongNetwork.

End Frontend.

(** ** Reading the vault from the dashboard *)

Section Dashboard.

Context {T : Type} `{Token : !IERC20 T}.



(** The card data of an on-chain record. *)
Definition stake_data (index displayNumber : nat) (s : StakeInfo)
  : Frontend.StakeData :=
  Frontend.mkStakeData index displayNumber
    (Z.of_N (amount s)) (Z.of_N (startTime s)) (Z.of_N (lockPeriod s))
    (Z.of_N (fixedRate s)) (Z.of_N (rewardsClaimed s))
    (active s) (expired s).

End Dashboard.

(** ** The activity log

    [hooks/useActivityLog.ts].  The hook keeps the set [processedTxs] of the
    identifiers it has seen and the list [activities] it shows.  Both are
    only touched by the three updates below, each run to its end before the
    next starts: [addActivity] for a live event, the clearing at the start
    of a fetch (or on disconnect), and the commit of the fetched history.  A
    [number] holding a timestamp or an index is a [Z].  [Array.sort] is
    stable: with a comparator that is a total preorder it returns the
    entries in order, equal ones in the order of the input. *)
Module ActivityLog.

Inductive ActivityType : Type :=
  | stake | claim | unstake | early_unstake | emergency_withdraw.

Record ActivityEntry : Type := mkActivityEntry {
  id : string;
  type : ActivityType;
  stakeIndex : Z;
  amount : string;
  timestamp : Z;
  txHash : string;
  penalty : option string
}.

Definition MAX_ENTRIES : nat := 50.

Record hook : Type := mkHook {
  processedTxs : gset string;
  activities : list ActivityEntry
}.

(** [useState([])] and [useRef(new Set())]. *)
Definition mounted : hook := mkHook ∅ [].

Local Open Scope Z_scope.

(** [Array.prototype.sort] with the comparator [cmp] ([a] goes before [b]
    when [cmp a b] is negative, and stays before it when it is zero). *)
Fixpoint sort_insert {A} (cmp : A -> A -> Z) (a : A) (l : list A) : list A :=
  match l with
  | [] => [a]
  | b :: l' => if cmp a b <=? 0 then a :: l else b :: sort_insert cmp a l'
  end.

Definition sort {A} (cmp : A -> A -> Z) (l : list A) : list A :=
  foldr (sort_insert cmp) [] l.

(** [(a, b) => b.timestamp - a.timestamp]: newest first. *)
Definition newest_first (a b : ActivityEntry) : Z :=
  timestamp b - timestamp a.

Definition addActivity (entry : ActivityEntry) (h : hook) : hook :=
  if decide (id entry ∈ processedTxs h) then h
  else
    mkHook ({[ id entry ]} ∪ processedTxs h)
      (if existsb (fun a => String.eqb (id a) (id entry)) (activities h)
       then activities h
       else take MAX_ENTRIES (sort newest_first (activities h ++ [entry]))).

(** The start of [fetchHistoricalEvents], and the disconnect branch of the
    effect. *)
Definition clearLog (h : hook) : hook := mkHook ∅ [].

(** The end of [fetchHistoricalEvents], with the [entries] built from the
    fetched logs. *)
Definition setHistory (entries : list ActivityEntry) (h : hook) : hook :=
  mkHook (foldl (fun seen e => {[ id e ]} ∪ seen) (processedTxs h) entries)
    (take MAX_ENTRIES (sort newest_first entries)).

Inductive update : Type :=
  | AddActivity (entry : ActivityEntry)
  | ClearLog
  | SetHistory (entries : list ActivityEntry).

Definition apply_update (h : hook) (u : update) : hook :=
  match u with
  | AddActivity entry => addActivity entry h
  | ClearLog => clearLog h
  | SetHistory entries => setHistory entries h
  end.

(** The fetched logs are distinct logs of the chain: no two entries of one
    history share an identifier. *)
Definition distinct_history (u : update) : Prop :=
  match u with
  | SetHistory entries => NoDup (id <$> entries)
  | _ => True
  end.

(** Newest first. *)
Definition newer_or_equal (a b : ActivityEntry) : Prop :=
  (timestamp b <= timestamp a)%Z.

(** What every update keeps: at most [MAX_ENTRIES] entries, newest first,
    no identifier twice, every identifier shown also in [processedTxs]. *)
Definition log_inv (h : hook) : Prop :=
  (length (activities h) <= MAX_ENTRIES)%nat /\
  StronglySorted newer_or_equal (activities h) /\
  NoDup (id <$> activities h) /\
  (forall a, a ∈ activities h -> id a ∈ processedTxs h).

(** Two entries of one account: a stake, and a claim ten minutes later. *)
Definition staked_entry : ActivityEntry :=
  mkActivityEntry "0xaa-0" stake 0 "100" 1700000000000 "0xaa" None.

Definition claimed_entry : ActivityEntry :=
  mkActivityEntry "0xbb-3" claim 0 "5" 1700000600000 "0xbb" None.

End ActivityLog.

(** ** Token amounts as text

    [formatTokenAmount] and [parseTokenAmount] of [lib/rewards.ts] and the
    amount field of the [StakeCard] form.  A JavaScript string is the list
    of its code units, here those below 256; [decimals] is a natural
    number. *)
Module StakeCard.

Import Stdlib.Strings.Ascii.

Local Open Scope Z_scope.

(** [BigInt.prototype.toString()]: the decimal numeral, "-" before a
    negative one. *)
Definition toString (z : Z) : list ascii :=
  String.list_ascii_of_string (NilZero.string_of_int (Z.to_int z)).

(** [s.padStart(targetLength, c)], [s.padEnd(targetLength, c)] and
    [s.slice(0, n)]. *)
Definition padStart (s : list ascii) (targetLength : nat) (c : ascii)
  : list ascii :=
  replicate (targetLength - length s) c ++ s.

Definition padEnd (s : list ascii) (targetLength : nat) (c : ascii)
  : list ascii :=
  s ++ replicate (targetLength - length s) c.

Definition slice0 (s : list ascii) (n : nat) : list ascii := take n s.

(** [s.split(sep)] for a separator of one character. *)
Fixpoint split (sep : ascii) (s : list ascii) : list (list ascii) :=
  match s with
  | [] => [[]]
  | c :: s' =>
      if eqb c sep then [] :: split sep s'
      else match split sep s' with
           | part :: parts => (c :: part) :: parts
           | [] => [[c]]
           end
  end.

(** [part || fallback] for a [part] that may be [undefined]: the fallback
    replaces [undefined] and the empty string. *)
Definition or_else (part : option (list ascii)) (fallback : list ascii)
  : list ascii :=
  match part with
  | Some (c :: s) => c :: s
  | _ => fallback
  end.

(** [BigInt(s)] for a string: white space around the literal is dropped;
    what is left is empty (0), decimal digits with an optional sign, or
    hexadecimal, octal or binary digits after [0x], [0o] or [0b]; anything
    else throws a [SyntaxError], here [None]. *)
Definition is_space (c : ascii) : bool :=
  let n := N_of_ascii c in
  ((n =? 9) || (n =? 10) || (n =? 11) || (n =? 12) || (n =? 13)
   || (n =? 32) || (n =? 160))%N.

Fixpoint drop_space (s : list ascii) : list ascii :=
  match s with
  | c :: s' => if is_space c then drop_space s' else s
  | [] => []
  end.

Definition trim (s : list ascii) : list ascii :=
  reverse (drop_space (reverse (drop_space s))).

Definition digit_value (c : ascii) : option Z :=
  let n := Z.of_N (N_of_ascii c) in
  if (48 <=? n) && (n <=? 57) then Some (n - 48)
  else if (97 <=? n) && (n <=? 122) then Some (n - 87)
  else if (65 <=? n) && (n <=? 90) then Some (n - 55)
  else None.

Fixpoint digits (base acc : Z) (s : list ascii) : option Z :=
  match s with
  | [] => Some acc
  | c :: s' =>
      match digit_value c with
      | Some d => if d <? base then digits base (base * acc + d) s' else None
      | None => None
      end
  end.

(** One digit at least. *)
Definition numeral (base : Z) (s : list ascii) : option Z :=
  match s with
  | [] => None
  | _ => digits base 0 s
  end.

Definition BigInt (s : list ascii) : option Z :=
  match trim s with
  | [] => Some 0
  | c :: s' =>
      if eqb c "-" then Z.opp <$> numeral 10 s'
      else if eqb c "+" then numeral 10 s'
      else
        match s' with
        | p :: s'' =>
            if eqb c "0" && (eqb p "x" || eqb p "X")
            then numeral 16 s''
            else if eqb c "0" && (eqb p "o" || eqb p "O")
            then numeral 8 s''
            else if eqb c "0" && (eqb p "b" || eqb p "B")
            then numeral 2 s''
            else numeral 10 (c :: s')
        | [] => numeral 10 (c :: s')
        end
  end.

Definition formatTokenAmount (amount : Z) (decimals : nat) : list ascii :=
  let divisor := 10 ^ Z.of_nat decimals in
  let integerPart := amount ÷ divisor in
  let fractionalPart := Z.rem amount divisor in
  let fractionalStr := padStart (toString fractionalPart) decimals "0" in
  let displayDecimals := slice0 fractionalStr 4 in
  toString integerPart ++ "."%char :: displayDecimals.

(** [None]: the [BigInt] conversion throws. *)
Definition parseTokenAmount (value : list ascii) (decimals : nat)
  : option Z :=
  match value with
  | [] => Some 0
  | _ =>
      let parts := split "." value in
      let integerPart := or_else (parts !! 0%nat) ["0"%char] in
      let fractionalPart := or_else (parts !! 1%nat) [] in
      let fractionalPart :=
        slice0 (padEnd fractionalPart decimals "0") decimals in
      BigInt (integerPart ++ fractionalPart)
  end.

(** The form of [StakeCard]: what the Max button writes into the amount
    field for a [balance], and what the form derives from the field. *)
Definition handleMax (balance : Z) (decimals : nat) : list ascii :=
  let divisor := 10 ^ Z.of_nat decimals in
  let integerPart := balance ÷ divisor in
  let fractionalPart := Z.rem balance divisor in
  let fractionalStr := padStart (toString fractionalPart) decimals "0" in
  let displayDecimals := slice0 fractionalStr 4 in
  toString integerPart ++ "."%char :: displayDecimals.

Definition parsedAmount (amount : list ascii) (decimals : nat) : Z :=
  match parseTokenAmount amount decimals with
  | Some v => v
  | None => 0
  end.

Definition needsApproval (parsedAmount allowance : Z) : bool :=
  (parsedAmount >? 0) && (allowance <? parsedAmount).

Definition hasInsufficientBalance (parsedAmount balance : Z) : bool :=
  parsedAmount >? balance.

Definition hasNoAmount (parsedAmount : Z) : bool := parsedAmount <=? 0.

Definition canStake (parsedAmount balance allowance : Z) : bool :=
  negb (hasNoAmount parsedAmount)
  && negb (hasInsufficientBalance parsedAmount balance)
  && negb (needsApproval parsedAmount allowance).

(** The characters 0 to 9, and the characters of a decimal numeral. *)
Definition decimal (c : ascii) : bool :=
  let n := Z.of_N (N_of_ascii c) in (48 <=? n) && (n <=? 57).

Definition chars (u : Decimal.uint) : list ascii :=
  String.list_ascii_of_string (NilEmpty.string_of_uint u).

End StakeCard.

(** * Properties *)

(** ** Checked arithmetic and the result monad *)

Lemma bind_Ok {A B} (m : result A) (k : A -> result B) b :
  bind m k = Ok b <-> exists a, m = Ok a /\ k a = Ok b.
Proof.
  destruct m as [a|e]; simpl; split.
  - eauto.
  - intros (a' & [= ->] & H). exact H.
  - discriminate.
  - intros (a' & [=] & _).
Qed.

Lemma require_Ok cond reason : require cond reason = Ok tt <-> cond = true.
Proof. unfold require. destruct cond; split; congruence. Qed.

Lemma checked_add_Ok a b c :
  checked_add a b = Ok c <-> c = a + b /\ uint256 (a + b).
Proof.
  unfold checked_add, uint256.
  destruct (N.leb_spec (a + b) MAX_UINT256); split.
  - intros [= <-]. auto.
  - intros [-> _]. reflexivity.
  - discriminate.
  - intros [_ ?]. lia.
Qed.

Lemma checked_sub_Ok a b c :
  checked_sub a b = Ok c <-> c = a - b /\ b <= a.
Proof.
  unfold checked_sub.
  destruct (N.leb_spec b a); split.
  - intros [= <-]. auto.
  - intros [-> _]. reflexivity.
  - discriminate.
  - intros [_ ?]. lia.
Qed.

Lemma checked_mul_Ok a b c :
  checked_mul a b = Ok c <-> c = a * b /\ uint256 (a * b).
Proof.
  unfold checked_mul, uint256.
  destruct (N.leb_spec (a * b) MAX_UINT256); split.
  - intros [= <-]. auto.
  - intros [-> _]. reflexivity.
  - discriminate.
  - intros [_ ?]. lia.
Qed.

Lemma checked_add_fits a b : uint256 (a + b) -> checked_add a b = Ok (a + b).
Proof. intros. apply checked_add_Ok. auto. Qed.

Lemma checked_sub_fits a b : b <= a -> checked_sub a b = Ok (a - b).
Proof. intros. apply checked_sub_Ok. auto. Qed.

Lemma checked_mul_fits a b : uint256 (a * b) -> checked_mul a b = Ok (a * b).
Proof. intros. apply checked_mul_Ok. auto. Qed.

Lemma checked_sub_underflow a b :
  a < b -> checked_sub a b = Err Panic_Arithmetic.
Proof.
  intros. unfold checked_sub. destruct (N.leb_spec b a); [lia|done].
Qed.

(** Splits a successful run of a function body into its successful steps. *)
Ltac ok_steps :=
  repeat match goal with
  | H : bind _ _ = Ok _ |- _ =>
      let a := fresh "a" in
      let Ha := fresh "Hstep" in
      apply bind_Ok in H; destruct H as (a & Ha & H)
  | H : require _ _ = Ok ?u |- _ =>
      destruct u; apply require_Ok in H
  | H : checked_add _ _ = Ok _ |- _ => apply checked_add_Ok in H; destruct H as [-> H]
  | H : checked_sub _ _ = Ok _ |- _ => apply checked_sub_Ok in H; destruct H as [-> H]
  | H : checked_mul _ _ = Ok _ |- _ => apply checked_mul_Ok in H; destruct H as [-> H]
  | H : Ok _ = Ok _ |- _ => injection H as H
  | H : Err _ = Ok _ |- _ => discriminate H
  end.

(** One day's reward bounds what accrues over any capped elapsed time. *)
Lemma accrual_le_cap (p e : N) :
  e <= MAX_REWARD_TIME -> p * e / (DIVISOR * ONE_DAY) <= p / 100.
Proof.
  intros He. unfold MAX_REWARD_TIME, DIVISOR, ONE_DAY in *.
  transitivity (p * 86400 / (100 * 86400)).
  - apply N.Div0.div_le_mono. nia.
  - rewrite N.Div0.div_mul_cancel_r by lia. reflexivity.
Qed.

Section VaultFacts.

Context {T : Type} `{Token : !IERC20 T}.
Implicit Types (st : @YieldCore T) (s : StakeInfo).

(** *** Reading and writing stake records *)

Lemma stake_at_Ok st user index s :
  stake_at st user index = Ok s <->
  stakes_of st user !! N.to_nat index = Some s.
Proof.
  unfold stake_at. destruct (stakes_of st user !! N.to_nat index); split;
    congruence.
Qed.

Lemma stakes_of_write_stake st user index s user' :
  stakes_of (write_stake user index s st) user' =
  if decide (user = user') then <[N.to_nat index := s]> (stakes_of st user)
  else stakes_of st user'.
Proof.
  unfold write_stake, stakes_of at 1. simpl.
  rewrite lookup_insert. destruct (decide (user = user')); reflexivity.
Qed.

Lemma stake_at_write_stake st user index s0 s :
  stake_at st user index = Ok s0 ->
  stake_at (write_stake user index s st) user index = Ok s.
Proof.
  intros H%stake_at_Ok. apply stake_at_Ok.
  rewrite stakes_of_write_stake, decide_True by done.
  apply list_lookup_insert_eq. eapply lookup_lt_Some, H.
Qed.

Lemma write_stake_id st user index s :
  stake_at st user index = Ok s -> write_stake user index s st = st.
Proof.
  intros H%stake_at_Ok. unfold write_stake, set_stakes.
  rewrite list_insert_id by done.
  destruct st as [tok pool m d p b o l]; simpl in *. f_equal.
  unfold stakes_of in H |- *. simpl in *.
  destruct (m !! user) as [k|] eqn:Hm; simpl in *.
  - apply insert_id. done.
  - rewrite lookup_nil in H. discriminate.
Qed.

(** [calculateReward] reads nothing but the addressed record. *)
Lemma calculateReward_ext st st' now user index :
  stake_at st user index = stake_at st' user index ->
  calculateReward now user index st = calculateReward now user index st'.
Proof. intros H. unfold calculateReward. rewrite H. reflexivity. Qed.

(** *** The reward calculator *)

Lemma capped_elapsed (e : N) :
  (if MAX_REWARD_TIME <? e then MAX_REWARD_TIME else e)
  = N.min e MAX_REWARD_TIME.
Proof. destruct (N.ltb_spec MAX_REWARD_TIME e); lia. Qed.

Lemma _isExpired_fits now s :
  uint256 (startTime s + lockPeriod s + GRACE_PERIOD) ->
  _isExpired now s
  = Ok (startTime s + lockPeriod s + GRACE_PERIOD <=? now).
Proof.
  intros H. unfold _isExpired, uint256 in *.
  rewrite checked_add_fits by (unfold uint256; lia). simpl.
  rewrite checked_add_fits by (unfold uint256; lia). reflexivity.
Qed.

Lemma _isExpired_Ok now s b :
  _isExpired now s = Ok b ->
  uint256 (startTime s + lockPeriod s + GRACE_PERIOD) /\
  b = (startTime s + lockPeriod s + GRACE_PERIOD <=? now).
Proof. unfold _isExpired. intros H. ok_steps. subst. auto. Qed.

(** What a successful [calculateReward] returned, and why. *)
Lemma calculateReward_Ok now st user index v :
  calculateReward now user index st = Ok v ->
  exists s, stake_at st user index = Ok s /\
    (v = 0 \/
     (active s = true /\ expired s = false /\
      uint256 (startTime s + lockPeriod s + GRACE_PERIOD) /\
      now < startTime s + lockPeriod s + GRACE_PERIOD /\
      accrual_fits s now /\
      rewardsClaimed s + v
      = amount s * fixedRate s * N.min (now - startTime s) MAX_REWARD_TIME
        / (DIVISOR * ONE_DAY))).
Proof.
  unfold calculateReward. intros H. ok_steps.
  rename a into s. exists s. split; [done|].
  destruct (active s) eqn:Ha; simpl in H; [|ok_steps; auto].
  destruct (expired s) eqn:He; [ok_steps; auto|].
  ok_steps. apply _isExpired_Ok in Hstep0 as [Hfit ->].
  destruct (N.leb_spec (startTime s + lockPeriod s + GRACE_PERIOD) now);
    [ok_steps; auto|].
  ok_steps. rewrite capped_elapsed in *.
  match type of H with (if ?c then _ else _) = _ => destruct c eqn:Hc end;
    ok_steps; [auto|].
  apply N.leb_gt in Hc. right. repeat split; try done. lia.
Qed.

(** Without overflow the calculator returns the specified value. *)
Lemma calculateReward_computes_spec st user index s now :
  stake_at st user index = Ok s ->
  (active s = true -> expired s = false ->
   uint256 (startTime s + lockPeriod s + GRACE_PERIOD)) ->
  (active s = true -> expired s = false ->
   now < startTime s + lockPeriod s + GRACE_PERIOD -> accrual_fits s now) ->
  exists v, calculateReward now user index st = Ok v /\
            Z.of_N v = calculateReward_spec s now.
Proof.
  intros Hs Hgrace Hfits.
  assert (Hcond :
    (Z.of_N (startTime s) + Z.of_N (lockPeriod s) + Z.of_N GRACE_PERIOD
     <=? Z.of_N now)%Z
    = (startTime s + lockPeriod s + GRACE_PERIOD <=? now)).
  { destruct (N.leb_spec (startTime s + lockPeriod s + GRACE_PERIOD) now),
      (Z.leb_spec (Z.of_N (startTime s) + Z.of_N (lockPeriod s)
                   + Z.of_N GRACE_PERIOD) (Z.of_N now)); lia. }
  unfold calculateReward, calculateReward_spec. cbv zeta.
  rewrite Hs, Hcond. clear Hcond. unfold bind at 1.
  destruct (active s); [|by exists 0].
  destruct (expired s); [by exists 0|].
  specialize (Hgrace eq_refl eq_refl). specialize (Hfits eq_refl eq_refl).
  rewrite _isExpired_fits by done. unfold bind at 1, negb, orb.
  destruct (N.leb_spec (startTime s + lockPeriod s + GRACE_PERIOD) now)
    as [Hle|Hlt]; [by exists 0|].
  destruct (Hfits Hlt) as (Hstart & Hp1 & Hp2).
  rewrite checked_sub_fits by done. unfold bind at 1.
  rewrite capped_elapsed.
  rewrite checked_mul_fits by done. unfold bind at 1.
  rewrite checked_mul_fits by done. unfold bind at 1.
  set (total := amount s * fixedRate s
                * N.min (now - startTime s) MAX_REWARD_TIME
                / (DIVISOR * ONE_DAY)).
  assert (Htotal :
    ((Z.of_N (amount s) * Z.of_N (fixedRate s)
      * Z.min (Z.of_N now - Z.of_N (startTime s)) (Z.of_N MAX_REWARD_TIME))
     ÷ (100 * 86400))%Z = Z.of_N total).
  { unfold total. rewrite N2Z.inj_quot, !N2Z.inj_mul, N2Z.inj_min.
    rewrite N2Z.inj_sub by done. reflexivity. }
  rewrite Htotal.
  destruct (N.leb_spec total (rewardsClaimed s)).
  - exists 0. split; [done|]. lia.
  - exists (total - rewardsClaimed s). split; [done|]. lia.
Qed.

(** A call that returned went through every checked operation. *)
Lemma calculateReward_Ok_fits st user index s now v :
  stake_at st user index = Ok s ->
  calculateReward now user index st = Ok v ->
  (active s = true -> expired s = false ->
   uint256 (startTime s + lockPeriod s + GRACE_PERIOD)) /\
  (active s = true -> expired s = false ->
   now < startTime s + lockPeriod s + GRACE_PERIOD -> accrual_fits s now).
Proof.
  intros Hs H. unfold calculateReward in H. rewrite Hs in H. cbn [bind] in H.
  destruct (active s); [|by split].
  destruct (expired s); [by split|]. cbn [negb] in H.
  ok_steps. apply _isExpired_Ok in Hstep as [Hfit ->].
  split; [done|]. intros _ _ Hlt.
  destruct (N.leb_spec (startTime s + lockPeriod s + GRACE_PERIOD) now);
    [lia|].
  ok_steps. rewrite capped_elapsed in *. by repeat split.
Qed.

(** C4. The reward calculator computes the specified formula.  For the
    stake record at a valid index and a current time [now], whatever
    [calculateReward] returns is the specified value: 0 when the record is
    inactive, flagged expired or past its grace period, and otherwise the
    amount earned over the elapsed time capped at [MAX_REWARD_TIME], minus
    what was claimed, never below zero (division truncating toward zero).
    And it does return: always for an inactive or flagged record, and for
    an active one as soon as the sums and products of the formula fit the
    checked 256-bit arithmetic (otherwise the call panics). *)
Theorem calculateReward_refines_spec st user index s now :
  stake_at st user index = Ok s ->
  (forall v, calculateReward now user index st = Ok v ->
             Z.of_N v = calculateReward_spec s now) /\
  ((active s = true -> expired s = false ->
    uint256 (startTime s + lockPeriod s + GRACE_PERIOD)) ->
   (active s = true -> expired s = false ->
    now < startTime s + lockPeriod s + GRACE_PERIOD -> accrual_fits s now) ->
   exists v, calculateReward now user index st = Ok v /\
             Z.of_N v = calculateReward_spec s now).
Proof.
  intros Hs. split.
  - intros v Hv.
    destruct (calculateReward_Ok_fits _ _ _ _ _ _ Hs Hv) as [Hgrace Hfits].
    destruct (calculateReward_computes_spec _ _ _ _ now Hs Hgrace Hfits)
      as (v' & Hv' & Hspec).
    rewrite Hv in Hv'. by injection Hv' as ->.
  - by apply calculateReward_computes_spec.
Qed.

(** *** The lock policy registry *)

(** C8. Rates are frozen per stake: a [setLockParameters] call, whatever its
    sender, duration and rates, and whether it succeeds or reverts, leaves
    every stake record as it was and leaves the result of [calculateReward]
    unchanged for every record and every time. *)
Theorem setLockParameters_keeps_stakes st sender now _lockPeriod _dailyRate
    _penaltyRate :
  let st' :=
    transact sender now
      (SetLockParameters _lockPeriod _dailyRate _penaltyRate) st in
  stakes st' = stakes st /\
  (forall user index, stake_at st' user index = stake_at st user index) /\
  (forall t user index,
     calculateReward t user index st' = calculateReward t user index st).
Proof.
  cbv zeta. unfold transact, exec.
  destruct (setLockParameters _ _ _ _ st) as [st'|e] eqn:Hcall;
    [|by repeat split].
  unfold setLockParameters in Hcall. ok_steps. subst st'.
  assert (Hframe : forall user index,
    stake_at (emit (LockParametersUpdated _lockPeriod _dailyRate _penaltyRate)
      (mkYieldCore (stakingToken st) (rewardPool st) (stakes st)
         (<[_lockPeriod:=_dailyRate]> (dailyRateByLock st))
         (<[_lockPeriod:=_penaltyRate]> (penaltyByLock st))
         (paused st) (owner st) (logs st))) user index
    = stake_at st user index) by reflexivity.
  split; [reflexivity|]. split; [exact Hframe|].
  intros. apply calculateReward_ext, Hframe.
Qed.

(** *** Emergency withdrawal *)

(** C7. [emergencyWithdraw] on a record at a valid index: it reverts while
    the vault is not paused and reverts on an inactive record; whenever it
    succeeds the vault was paused, the record was active, exactly the stored
    principal was pushed to the caller, the reward pool is unchanged and the
    record keeps its [rewardsClaimed] (only [amount] and [active] are
    reset); and it does succeed on an active record of a paused vault as soon
    as the token accepts the transfer of the principal. *)
Theorem emergencyWithdraw_principal_only st sender index s :
  stake_at st sender index = Ok s ->
  (paused st = false -> emergencyWithdraw sender index st = Err ExpectedPause)
  /\
  (paused st = true -> active s = false ->
   emergencyWithdraw sender index st = Err (RequireFailed "invalid stake"))
  /\
  (forall st', emergencyWithdraw sender index st = Ok st' ->
     paused st = true /\ active s = true /\
     safeTransfer sender (amount s) (stakingToken st)
     = Some (stakingToken st') /\
     rewardPool st' = rewardPool st /\
     stake_at st' sender index = Ok (set_active false (set_amount 0 s)) /\
     rewardsClaimed (set_active false (set_amount 0 s)) = rewardsClaimed s /\
     logs st' = logs st ++ [EmergencyWithdrawal sender index (amount s)])
  /\
  (paused st = true -> active s = true ->
   forall tok, safeTransfer sender (amount s) (stakingToken st) = Some tok ->
     exists st', emergencyWithdraw sender index st = Ok st' /\
                 stakingToken st' = tok).
Proof.
  intros Hs. unfold emergencyWithdraw, whenPaused. rewrite Hs. cbn [bind].
  split; [by intros ->|]. split; [by intros -> ->|]. split.
  - intros st' H.
    destruct (paused st); simpl in H; [|discriminate].
    destruct (active s); simpl in H; [|discriminate].
    destruct (safeTransfer _ _ _) as [tok|]; simpl in H; [|discriminate].
    injection H as <-.
    do 4 (split; [reflexivity|]). split; [|split; reflexivity].
    change (stake_at (write_stake sender index
                        (set_active false (set_amount 0 s)) st) sender index
            = Ok (set_active false (set_amount 0 s))).
    eapply stake_at_write_stake, Hs.
  - intros -> -> tok Htok. simpl. rewrite Htok. simpl. eauto.
Qed.

(** *** Modifiers *)

Lemma whenNotPaused_Ok st u : whenNotPaused st = Ok u <-> paused st = false.
Proof. unfold whenNotPaused. destruct u, (paused st); split; congruence. Qed.

Lemma whenPaused_Ok st u : whenPaused st = Ok u <-> paused st = true.
Proof. unfold whenPaused. destruct u, (paused st); split; congruence. Qed.

Lemma token_call_Ok (r : option T) tok : token_call r = Ok tok <-> r = Some tok.
Proof. unfold token_call. destruct r; split; congruence. Qed.

Lemma stake_at_same_stakes st st' user index :
  stakes st' = stakes st -> stake_at st' user index = stake_at st user index.
Proof. intros H. unfold stake_at, stakes_of. rewrite H. reflexivity. Qed.

(** *** Claiming *)

(** C3. Claiming is idempotent at a fixed time: right after a successful
    [claimReward] at time [now], the claimable reward of that record at
    [now] is 0, and a second [claimReward] at [now] pays nothing: it reverts
    with "no accrued rewards" and leaves the storage, token included, as it
    was. *)
Theorem claimReward_twice_pays_nothing st sender now index st' :
  claimReward sender now index st = Ok st' ->
  calculateReward now sender index st' = Ok 0 /\
  claimReward sender now index st'
  = Err (RequireFailed "no accrued rewards") /\
  transact sender now (ClaimReward index) st' = st'.
Proof.
  intros H. unfold claimReward in H. ok_steps.
  rename a0 into s, a2 into reward.
  apply whenNotPaused_Ok in Hstep. apply token_call_Ok in Hstep7.
  apply N.ltb_lt in Hstep3.
  destruct (calculateReward_Ok _ _ _ _ _ Hstep2) as (s0 & Hs0 & Hv).
  rewrite Hstep0 in Hs0. injection Hs0 as <-.
  destruct Hv as
    [->|(Ha & He & Hfit & Hgrace & (Hstart & Hp1 & Hp2) & Htotal)]; [lia|].
  set (s' := set_rewardsClaimed (rewardsClaimed s + reward) s).
  assert (Hs' : stake_at st' sender index = Ok s').
  { subst st'. eapply stake_at_write_stake, Hstep0. }
  assert (Hpaused : paused st' = false) by (subst st'; exact Hstep).
  assert (Hzero : calculateReward now sender index st' = Ok 0).
  { unfold calculateReward. rewrite Hs'. cbn [bind].
    change (active s') with (active s). change (expired s') with (expired s).
    rewrite Ha, He. cbn [negb].
    assert (Hexp : _isExpired now s' = _isExpired now s) by reflexivity.
    rewrite Hexp, _isExpired_fits by done.
    cbn [bind].
    destruct (N.leb_spec (startTime s + lockPeriod s + GRACE_PERIOD) now);
      [lia|].
    change (startTime s') with (startTime s).
    change (amount s') with (amount s).
    change (fixedRate s') with (fixedRate s).
    rewrite checked_sub_fits by done. cbn [bind]. rewrite capped_elapsed.
    rewrite checked_mul_fits by done. cbn [bind].
    rewrite checked_mul_fits by done. cbn [bind].
    change (rewardsClaimed s') with (rewardsClaimed s + reward).
    rewrite Htotal, N.leb_refl. reflexivity. }
  assert (Hsecond : claimReward sender now index st'
                    = Err (RequireFailed "no accrued rewards")).
  { unfold claimReward, whenNotPaused. rewrite Hpaused, Hs'. cbn [bind].
    change (active s') with (active s). rewrite Ha. cbn [require bind].
    rewrite Hzero. reflexivity. }
  split; [exact Hzero|]. split; [exact Hsecond|].
  unfold transact, exec. rewrite Hsecond. reflexivity.
Qed.

(** *** Unstaking *)

(** Every successful [unstake], taken apart. *)
Lemma unstake_Ok st sender now index st' :
  unstake sender now index st = Ok st' ->
  exists s,
    paused st = false /\
    stake_at st sender index = Ok s /\
    active s || expired s = true /\
    uint256 (startTime s + lockPeriod s + GRACE_PERIOD) /\
    ((startTime s + lockPeriod s <= now /\
      exists reward tok,
        calculateReward now sender index
          (flag_expired_in sender now index s st) = Ok reward /\
        reward <= rewardPool st /\
        uint256 (rewardsClaimed s + reward) /\
        uint256 (amount s + reward) /\
        safeTransfer sender (amount s + reward) (stakingToken st) = Some tok /\
        st' = unstaked_after_lock sender now index reward tok s st)
     \/
     (now < startTime s + lockPeriod s /\
      exists tok,
        let penalty := amount s * penalty_of st (lockPeriod s) / DIVISOR in
        uint256 (amount s * penalty_of st (lockPeriod s)) /\
        uint256 (rewardPool st + penalty) /\
        penalty <= amount s /\
        safeTransfer sender (amount s - penalty) (stakingToken st) = Some tok /\
        st' = unstaked_early sender index penalty tok s st)).
Proof.
  unfold unstake. intros H.
  apply bind_Ok in H as (? & Hp%whenNotPaused_Ok & H).
  apply bind_Ok in H as (s & Hs & H).
  apply bind_Ok in H as ([] & Hreq%require_Ok & H).
  apply bind_Ok in H as (e & He & H).
  apply _isExpired_Ok in He as [Hfit ->].
  exists s. do 4 (split; [done|]).
  unfold unstaked_after_lock, unstaked_early, flag_expired, flag_expired_in.
  destruct (N.leb_spec (startTime s + lockPeriod s + GRACE_PERIOD) now)
    as [Hg|Hg].
  - change (startTime (set_expired true s)) with (startTime s) in H.
    change (lockPeriod (set_expired true s)) with (lockPeriod s) in H.
    apply bind_Ok in H as (t & Ht & H). apply checked_add_Ok in Ht as [-> _].
    destruct (N.leb_spec (startTime s + lockPeriod s) now); [|lia].
    left. split; [done|]. ok_steps. apply token_call_Ok in Hstep4.
    apply N.leb_le in Hstep0.
    eexists _, _. repeat (split; [eassumption|]). symmetry. exact H.
  - apply bind_Ok in H as (t & Ht & H). apply checked_add_Ok in Ht as [-> _].
    destruct (N.leb_spec (startTime s + lockPeriod s) now).
    + left. split; [done|]. ok_steps. apply token_call_Ok in Hstep4.
      apply N.leb_le in Hstep0.
      eexists _, _. repeat (split; [eassumption|]). symmetry. exact H.
    + right. split; [done|]. ok_steps. apply token_call_Ok in Hstep2.
      eexists. cbv zeta. repeat (split; [eassumption|]). symmetry. exact H.
Qed.

(** The unlocked path succeeds as soon as the pool covers the reward, the
    sums fit and the token accepts the transfer. *)
Lemma unstake_after_lock_succeeds st sender now index s reward tok :
  paused st = false ->
  stake_at st sender index = Ok s ->
  active s || expired s = true ->
  uint256 (startTime s + lockPeriod s + GRACE_PERIOD) ->
  startTime s + lockPeriod s <= now ->
  calculateReward now sender index (flag_expired_in sender now index s st)
  = Ok reward ->
  reward <= rewardPool st ->
  uint256 (rewardsClaimed s + reward) ->
  uint256 (amount s + reward) ->
  safeTransfer sender (amount s + reward) (stakingToken st) = Some tok ->
  unstake sender now index st
  = Ok (unstaked_after_lock sender now index reward tok s st).
Proof.
  intros Hp Hs Hreq Hfit Hlock Hcalc Hpool Hc Hpay Htok.
  unfold unstake, whenNotPaused. rewrite Hp, Hs. cbn [bind].
  rewrite Hreq. cbn [require bind]. rewrite _isExpired_fits by done.
  cbn [bind].
  unfold unstaked_after_lock, flag_expired, flag_expired_in in *.
  destruct (N.leb_spec (startTime s + lockPeriod s + GRACE_PERIOD) now).
  - change (startTime (set_expired true s)) with (startTime s).
    change (lockPeriod (set_expired true s)) with (lockPeriod s).
    rewrite checked_add_fits by (unfold uint256 in *; lia). cbn [bind].
    destruct (N.leb_spec (startTime s + lockPeriod s) now); [|lia].
    rewrite Hcalc. cbn [bind].
    change (rewardPool (write_stake sender index (set_expired true s) st))
      with (rewardPool st).
    destruct (N.leb_spec reward (rewardPool st)); [|lia]. cbn [require bind].
    rewrite checked_sub_fits by done. cbn [bind].
    change (rewardsClaimed (set_expired true s)) with (rewardsClaimed s).
    rewrite checked_add_fits by done. cbn [bind].
    rewrite checked_add_fits by done. cbn [bind].
    cbn [stakingToken write_stake set_stakes set_rewardPool].
    rewrite Htok. reflexivity.
  - rewrite checked_add_fits by (unfold uint256 in *; lia). cbn [bind].
    destruct (N.leb_spec (startTime s + lockPeriod s) now); [|lia].
    rewrite Hcalc. cbn [bind].
    destruct (N.leb_spec reward (rewardPool st)); [|lia]. cbn [require bind].
    rewrite checked_sub_fits by done. cbn [bind].
    rewrite checked_add_fits by done. cbn [bind].
    rewrite checked_add_fits by done. cbn [bind].
    cbn [stakingToken write_stake set_stakes set_rewardPool].
    rewrite Htok. reflexivity.
Qed.

(** The early path succeeds as soon as the penalty does not exceed the
    principal, the products and sums fit and the token accepts the
    transfer. *)
Lemma unstake_early_succeeds st sender now index s tok :
  paused st = false ->
  stake_at st sender index = Ok s ->
  active s || expired s = true ->
  uint256 (startTime s + lockPeriod s + GRACE_PERIOD) ->
  now < startTime s + lockPeriod s ->
  let penalty := amount s * penalty_of st (lockPeriod s) / DIVISOR in
  uint256 (amount s * penalty_of st (lockPeriod s)) ->
  uint256 (rewardPool st + penalty) ->
  penalty <= amount s ->
  safeTransfer sender (amount s - penalty) (stakingToken st) = Some tok ->
  unstake sender now index st
  = Ok (unstaked_early sender index penalty tok s st).
Proof.
  intros Hp Hs Hreq Hfit Hlock penalty Hmul Hpool Hpen Htok.
  unfold unstake, whenNotPaused. rewrite Hp, Hs. cbn [bind].
  rewrite Hreq. cbn [require bind]. rewrite _isExpired_fits by done.
  cbn [bind].
  destruct (N.leb_spec (startTime s + lockPeriod s + GRACE_PERIOD) now);
    [lia|].
  rewrite checked_add_fits by (unfold uint256 in *; lia). cbn [bind].
  destruct (N.leb_spec (startTime s + lockPeriod s) now); [lia|].
  rewrite checked_mul_fits by done. cbn [bind].
  rewrite checked_add_fits by done. cbn [bind].
  rewrite checked_sub_fits by done. cbn [bind].
  cbn [stakingToken write_stake set_stakes set_rewardPool].
  subst penalty. rewrite Htok. reflexivity.
Qed.

(** C5. Early unstake.  For an active record of an unpaused vault and a time
    before [startTime + lockPeriod]: every successful [unstake] pushed
    exactly the principal minus the penalty [principal * penaltyRate / 100]
    to the caller, raised the reward pool by exactly that penalty, emitted
    [EarlyUnstake] (no reward is part of the payout) and left the record's
    [rewardsClaimed] as it was; and the call does succeed whenever the
    penalty does not exceed the principal, the checked sums and product fit
    and the token accepts the transfer. *)
Theorem unstake_early_pays_principal_minus_penalty st sender now index s :
  paused st = false ->
  stake_at st sender index = Ok s ->
  active s = true ->
  now < startTime s + lockPeriod s ->
  let penalty := amount s * penalty_of st (lockPeriod s) / DIVISOR in
  (forall st', unstake sender now index st = Ok st' ->
     safeTransfer sender (amount s - penalty) (stakingToken st)
     = Some (stakingToken st') /\
     penalty <= amount s /\
     rewardPool st' = rewardPool st + penalty /\
     stake_at st' sender index = Ok (set_active false (set_amount 0 s)) /\
     rewardsClaimed (set_active false (set_amount 0 s)) = rewardsClaimed s /\
     logs st' = logs st ++ [EarlyUnstake sender index (amount s) penalty])
  /\
  (uint256 (startTime s + lockPeriod s + GRACE_PERIOD) ->
   uint256 (amount s * penalty_of st (lockPeriod s)) ->
   uint256 (rewardPool st + penalty) ->
   penalty <= amount s ->
   forall tok,
     safeTransfer sender (amount s - penalty) (stakingToken st) = Some tok ->
     exists st', unstake sender now index st = Ok st' /\
                 stakingToken st' = tok).
Proof.
  intros Hp Hs Ha Hlock penalty. split.
  - intros st' H.
    destruct (unstake_Ok _ _ _ _ _ H) as (s0 & _ & Hs0 & _ & _ & Hcase).
    rewrite Hs in Hs0. injection Hs0 as <-.
    destruct Hcase as [[Hle _]|(_ & tok & Hmul & Hpool & Hpen & Htok & ->)];
      [lia|].
    split; [exact Htok|]. split; [exact Hpen|]. split; [reflexivity|].
    split; [|split; reflexivity].
    unfold unstaked_early.
    change (stake_at (write_stake sender index
                        (set_active false (set_amount 0 s))
                        (set_rewardPool (rewardPool st + penalty) st))
              sender index = Ok (set_active false (set_amount 0 s))).
    eapply stake_at_write_stake.
    erewrite stake_at_same_stakes; [exact Hs|reflexivity].
  - intros Hfit Hmul Hpool Hpen tok Htok. eexists. split.
    + apply unstake_early_succeeds; try done. by rewrite Ha.
    + reflexivity.
Qed.

Lemma calculateReward_claimed_fits now st user index s v :
  calculateReward now user index st = Ok v ->
  stake_at st user index = Ok s ->
  uint256 (rewardsClaimed s) ->
  uint256 (rewardsClaimed s + v).
Proof.
  intros (s0 & Hs0 & Hv)%calculateReward_Ok Hs Hc.
  rewrite Hs in Hs0. injection Hs0 as <-.
  destruct Hv as [->|(_ & _ & _ & _ & (_ & _ & Hp) & ->)].
  - by rewrite N.add_0_r.
  - unfold uint256 in *. etransitivity; [|exact Hp].
    apply N.Div0.div_le_upper_bound. unfold DIVISOR, ONE_DAY. nia.
Qed.

(** C6. Unstake once the lock has elapsed, for an active record of an
    unpaused vault whose stored values are [uint256]s and a time at or after
    [startTime + lockPeriod].
    - Within the grace period, with [reward] the claimable reward computed at
      that instant: if [reward] exceeds the pool the call reverts with
      "insufficient reward pool balance" and the storage is unchanged;
      otherwise it pushes [principal + reward] to the caller, takes exactly
      [reward] out of the pool, adds it to [rewardsClaimed], zeroes the
      amount and deactivates the record, emitting [UnstakeAfterLock].
    - Once the grace period has elapsed the record is flagged expired first,
      the reward is zero, the payout is the principal alone, the pool is
      unchanged and the event is again [UnstakeAfterLock]: the penalty path
      is not taken. *)
Theorem unstake_after_lock_pays_principal_plus_reward st sender now index s :
  paused st = false ->
  stake_at st sender index = Ok s ->
  active s = true ->
  uint256 (amount s) ->
  uint256 (rewardsClaimed s) ->
  uint256 (startTime s + lockPeriod s + GRACE_PERIOD) ->
  startTime s + lockPeriod s <= now ->
  (now < startTime s + lockPeriod s + GRACE_PERIOD ->
   forall reward, calculateReward now sender index st = Ok reward ->
     (rewardPool st < reward ->
      unstake sender now index st
      = Err (RequireFailed "insufficient reward pool balance") /\
      transact sender now (Unstake index) st = st)
     /\
     (reward <= rewardPool st ->
      uint256 (amount s + reward) ->
      forall tok,
        safeTransfer sender (amount s + reward) (stakingToken st) = Some tok ->
        exists st',
          unstake sender now index st = Ok st' /\
          stakingToken st' = tok /\
          rewardPool st' = rewardPool st - reward /\
          stake_at st' sender index
          = Ok (set_active false (set_amount 0
                  (set_rewardsClaimed (rewardsClaimed s + reward) s))) /\
          logs st'
          = logs st ++ [UnstakeAfterLock sender index (amount s) reward]))
  /\
  (startTime s + lockPeriod s + GRACE_PERIOD <= now ->
   forall tok,
     safeTransfer sender (amount s) (stakingToken st) = Some tok ->
     exists st',
       unstake sender now index st = Ok st' /\
       stakingToken st' = tok /\
       rewardPool st' = rewardPool st /\
       stake_at st' sender index
       = Ok (set_active false (set_amount 0 (set_expired true s))) /\
       logs st' = logs st ++ [UnstakeAfterLock sender index (amount s) 0]).
Proof.
  intros Hp Hs Ha Hamt Hcl Hfit Hlock. split.
  - intros Hgrace reward Hcalc.
    assert (Hflag : flag_expired_in sender now index s st = st).
    { unfold flag_expired_in.
      destruct (N.leb_spec (startTime s + lockPeriod s + GRACE_PERIOD) now);
        [lia|done]. }
    assert (Hflag' : flag_expired now s = s).
    { unfold flag_expired.
      destruct (N.leb_spec (startTime s + lockPeriod s + GRACE_PERIOD) now);
        [lia|done]. }
    split.
    + intros Hpool.
      assert (Hfail : unstake sender now index st
                      = Err (RequireFailed "insufficient reward pool balance")).
      { unfold unstake, whenNotPaused. rewrite Hp, Hs. cbn [bind].
        rewrite Ha. cbn [orb require bind].
        rewrite _isExpired_fits by done. cbn [bind].
        destruct (N.leb_spec (startTime s + lockPeriod s + GRACE_PERIOD) now);
          [lia|].
        rewrite checked_add_fits by (unfold uint256 in *; lia). cbn [bind].
        destruct (N.leb_spec (startTime s + lockPeriod s) now); [|lia].
        rewrite Hcalc. cbn [bind].
        destruct (N.leb_spec reward (rewardPool st)); [lia|]. reflexivity. }
      split; [exact Hfail|]. unfold transact, exec. by rewrite Hfail.
    + intros Hpool Hpay tok Htok. eexists. split.
      * refine (unstake_after_lock_succeeds st sender now index s reward tok
                  Hp Hs _ Hfit Hlock _ Hpool _ Hpay Htok).
        -- by rewrite Ha.
        -- rewrite Hflag. exact Hcalc.
        -- eapply calculateReward_claimed_fits; eassumption.
      * unfold unstaked_after_lock. rewrite Hflag, Hflag'.
        split; [reflexivity|]. split; [reflexivity|].
        split; [|reflexivity].
        erewrite stake_at_same_stakes; [|reflexivity].
        eapply stake_at_write_stake.
        erewrite stake_at_same_stakes; [exact Hs|reflexivity].
  - intros Hgrace tok Htok.
    assert (Hflag : flag_expired_in sender now index s st
                    = write_stake sender index (set_expired true s) st).
    { unfold flag_expired_in.
      destruct (N.leb_spec (startTime s + lockPeriod s + GRACE_PERIOD) now);
        [done|lia]. }
    assert (Hflag' : flag_expired now s = set_expired true s).
    { unfold flag_expired.
      destruct (N.leb_spec (startTime s + lockPeriod s + GRACE_PERIOD) now);
        [done|lia]. }
    assert (Hs1 : stake_at (write_stake sender index (set_expired true s) st)
                    sender index = Ok (set_expired true s)).
    { eapply stake_at_write_stake, Hs. }
    assert (Hcalc : calculateReward now sender index
                      (flag_expired_in sender now index s st) = Ok 0).
    { rewrite Hflag. unfold calculateReward. rewrite Hs1. cbn [bind].
      change (active (set_expired true s)) with (active s). by rewrite Ha. }
    eexists. split.
    + refine (unstake_after_lock_succeeds st sender now index s 0 tok
                Hp Hs _ Hfit Hlock Hcalc _ _ _ _).
      * by rewrite Ha.
      * lia.
      * by rewrite N.add_0_r.
      * by rewrite N.add_0_r.
      * rewrite N.add_0_r. exact Htok.
    + unfold unstaked_after_lock. rewrite Hflag, Hflag'.
      split; [reflexivity|]. split; [apply N.sub_0_r|].
      split; [|reflexivity].
      erewrite stake_at_same_stakes; [|reflexivity].
      change (rewardsClaimed (set_expired true s)) with (rewardsClaimed s).
      rewrite N.add_0_r.
      replace (set_rewardsClaimed (rewardsClaimed s) (set_expired true s))
        with (set_expired true s) by by destruct s.
      eapply stake_at_write_stake.
      erewrite stake_at_same_stakes; [exact Hs1|reflexivity].
Qed.

(** Unstaking a record that is inactive, flagged expired and empty goes
    through the unlocked path with nothing to pay. *)
Lemma unstake_withdrawn_expired st sender now index s :
  paused st = false ->
  stake_at st sender index = Ok s ->
  active s = false ->
  expired s = true ->
  amount s = 0 ->
  uint256 (rewardsClaimed s) ->
  uint256 (startTime s + lockPeriod s + GRACE_PERIOD) ->
  startTime s + lockPeriod s <= now ->
  forall tok,
    safeTransfer sender 0 (stakingToken st) = Some tok ->
    unstake sender now index st
    = Ok (emit (UnstakeAfterLock sender index 0 0) (set_stakingToken tok st)).
Proof.
  intros Hp Hs Ha He Hamt Hcl Hfit Hlock tok Htok.
  assert (Hflag' : flag_expired now s = s).
  { unfold flag_expired. destruct (_ <=? _); [|done].
    destruct s; simpl in *. by subst. }
  assert (Hflag : flag_expired_in sender now index s st = st).
  { unfold flag_expired_in. destruct (_ <=? _); [|done].
    replace (set_expired true s) with s by (destruct s; simpl in *; by subst).
    by apply write_stake_id. }
  assert (Hcalc : calculateReward now sender index
                    (flag_expired_in sender now index s st) = Ok 0).
  { rewrite Hflag. unfold calculateReward. rewrite Hs. cbn [bind].
    by rewrite Ha. }
  rewrite (unstake_after_lock_succeeds st sender now index s 0 tok);
    try done.
  - unfold unstaked_after_lock. rewrite Hflag, Hflag', Hamt, N.add_0_r.
    replace (set_active false (set_amount 0
               (set_rewardsClaimed (rewardsClaimed s) s))) with s
      by (destruct s; simpl in *; by subst).
    replace (set_rewardPool (rewardPool st - 0) st) with st
      by (destruct st; unfold set_rewardPool; simpl; by rewrite N.sub_0_r).
    by rewrite write_stake_id.
  - by rewrite He, orb_true_r.
  - lia.
  - by rewrite N.add_0_r.
  - rewrite Hamt. done.
  - by rewrite Hamt.
Qed.

(** C9. A record withdrawn by an unstake past its grace period is left
    inactive, flagged expired and with amount zero, and it can be unstaked
    again: at any later time, while the vault is still unpaused, a further
    [unstake] of that index does not revert as long as the token accepts a
    transfer of 0; it pays out 0, emits another [UnstakeAfterLock] (with
    principal 0 and reward 0) and changes nothing else in the storage. *)
Theorem unstake_again_after_expiry st sender t1 index s st1 t2 :
  stake_at st sender index = Ok s ->
  startTime s + lockPeriod s + GRACE_PERIOD <= t1 ->
  unstake sender t1 index st = Ok st1 ->
  t1 <= t2 ->
  exists s1,
    stake_at st1 sender index = Ok s1 /\
    active s1 = false /\ expired s1 = true /\ amount s1 = 0 /\
    forall tok,
      safeTransfer sender 0 (stakingToken st1) = Some tok ->
      unstake sender t2 index st1
      = Ok (emit (UnstakeAfterLock sender index 0 0)
              (set_stakingToken tok st1)).
Proof.
  intros Hs Hgrace H Ht.
  apply unstake_Ok in H as (s0 & Hp & Hs0 & _ & Hfit & Hcase).
  rewrite Hs in Hs0. injection Hs0 as <-.
  destruct Hcase as
    [(Hlock & reward & tok1 & _ & _ & Hcl & _ & _ & ->)|[Hlock _]];
    [|unfold GRACE_PERIOD in *; lia].
  unfold unstaked_after_lock, flag_expired, flag_expired_in.
  destruct (N.leb_spec (startTime s + lockPeriod s + GRACE_PERIOD) t1);
    [|lia].
  set (s1 := set_active false (set_amount 0
               (set_rewardsClaimed (rewardsClaimed s + reward)
                  (set_expired true s)))).
  set (st1 := emit _ _).
  assert (Hs1 : stake_at st1 sender index = Ok s1).
  { unfold st1. erewrite stake_at_same_stakes; [|reflexivity].
    eapply stake_at_write_stake.
    erewrite stake_at_same_stakes; [|reflexivity].
    eapply stake_at_write_stake, Hs. }
  exists s1. do 4 (split; [done|]). intros tok Htok.
  apply (unstake_withdrawn_expired st1 sender t2 index s1);
    [exact Hp|exact Hs1|reflexivity|reflexivity|reflexivity
    |exact Hcl|exact Hfit| |exact Htok].
  change (startTime s + lockPeriod s <= t2). lia.
Qed.

Lemma checked_add_Err a b e : checked_add a b = Err e -> e = Panic_Arithmetic.
Proof. unfold checked_add. destruct (_ <=? _); congruence. Qed.

Lemma checked_sub_Err a b e : checked_sub a b = Err e -> e = Panic_Arithmetic.
Proof. unfold checked_sub. destruct (_ <=? _); congruence. Qed.

Lemma checked_mul_Err a b e : checked_mul a b = Err e -> e = Panic_Arithmetic.
Proof. unfold checked_mul. destruct (_ <=? _); congruence. Qed.

Lemma _isExpired_Err now s e : _isExpired now s = Err e -> e = Panic_Arithmetic.
Proof.
  unfold _isExpired.
  destruct (checked_add (startTime s) (lockPeriod s)) eqn:H1; cbn [bind].
  - destruct (checked_add a GRACE_PERIOD) eqn:H2; cbn [bind]; [done|].
    intros [= <-]. eapply checked_add_Err, H2.
  - intros [= <-]. eapply checked_add_Err, H1.
Qed.

(** The penalty exceeds the principal exactly when
    [principal * (penaltyRate - 100) >= 100]. *)
Lemma penalty_exceeds_principal (principal rate : N) :
  principal < principal * rate / DIVISOR <-> 100 <= principal * (rate - 100).
Proof.
  unfold DIVISOR. split.
  - intros H. destruct (N.le_gt_cases rate 100) as [Hr|Hr].
    + assert (principal * rate / 100 <= principal); [|lia].
      apply N.Div0.div_le_upper_bound. nia.
    + assert (Hq : 100 * (principal * rate / 100) <= principal * rate)
        by apply N.Div0.mul_div_le.
      nia.
  - intros H. assert (100 < rate) by nia.
    assert (principal + 1 <= principal * rate / 100); [|lia].
    apply N.div_le_lower_bound; nia.
Qed.

(** C10 (as the code has it).  For an active record of an unpaused vault
    before [startTime + lockPeriod], with [penaltyRate] the rate registered
    for its lock duration: when [principal * (penaltyRate - 100) >= 100],
    that is when the penalty [principal * penaltyRate / 100] exceeds the
    principal, the early unstake always fails with an arithmetic panic and
    leaves the whole storage unchanged; with a rate above 100 but a smaller
    principal the penalty does not exceed the principal and the subtraction
    does not underflow; and with a rate of at most 100 the subtraction never
    underflows. *)
Theorem unstake_early_penalty_underflow st sender now index s :
  paused st = false ->
  stake_at st sender index = Ok s ->
  active s = true ->
  now < startTime s + lockPeriod s ->
  let penaltyRate := penalty_of st (lockPeriod s) in
  let penalty := amount s * penaltyRate / DIVISOR in
  (100 <= amount s * (penaltyRate - 100) ->
   amount s < penalty /\
   unstake sender now index st = Err Panic_Arithmetic /\
   transact sender now (Unstake index) st = st)
  /\
  (amount s * (penaltyRate - 100) < 100 ->
   checked_sub (amount s) penalty = Ok (amount s - penalty))
  /\
  (penaltyRate <= 100 ->
   checked_sub (amount s) penalty = Ok (amount s - penalty)).
Proof.
  intros Hp Hs Ha Hlock penaltyRate penalty.
  pose proof (penalty_exceeds_principal (amount s) penaltyRate) as Hiff.
  fold penalty in Hiff.
  split; [|split].
  - intros Hbig. apply Hiff in Hbig. split; [exact Hbig|].
    assert (Hfail : unstake sender now index st = Err Panic_Arithmetic).
    { unfold unstake, whenNotPaused. rewrite Hp, Hs. cbn [bind].
      rewrite Ha. cbn [orb require bind].
      destruct (_isExpired now s) as [e|e] eqn:He; cbn [bind];
        [|by rewrite (_isExpired_Err _ _ _ He)].
      apply _isExpired_Ok in He as [Hfit ->].
      destruct (N.leb_spec (startTime s + lockPeriod s + GRACE_PERIOD) now);
        [lia|].
      rewrite checked_add_fits by (unfold uint256 in *; lia). cbn [bind].
      destruct (N.leb_spec (startTime s + lockPeriod s) now); [lia|].
      fold penaltyRate.
      destruct (checked_mul (amount s) penaltyRate) as [p|e] eqn:Hmul;
        cbn [bind]; [|by rewrite (checked_mul_Err _ _ _ Hmul)].
      apply checked_mul_Ok in Hmul as [-> _]. fold penalty.
      destruct (checked_add (rewardPool st) penalty) as [p|e] eqn:Hadd;
        cbn [bind]; [|by rewrite (checked_add_Err _ _ _ Hadd)].
      rewrite checked_sub_underflow by done. reflexivity. }
    split; [exact Hfail|]. unfold transact, exec. by rewrite Hfail.
  - intros Hsmall. apply checked_sub_fits. lia.
  - intros Hrate. apply checked_sub_fits.
    assert (amount s * (penaltyRate - 100) < 100) by nia. lia.
Qed.

(** *** What a transaction does to the stake records *)

#[local] Instance stake_step_refl : Reflexive stake_step.
Proof. intros s. unfold stake_step. tauto. Qed.

Lemma stake_step_write l i s s' :
  l !! i = Some s -> stake_step s s' -> Forall2 stake_step l (<[i:=s']> l).
Proof.
  intros Hl Hstep. rewrite <- (list_insert_id l i s Hl) at 1.
  by apply Forall2_insert.
Qed.

(** A call that rewrote (at most) the record [index] of [user]. *)
Lemma written_stakes_step st st' user index s s' :
  stake_at st user index = Ok s ->
  stake_step s s' ->
  (forall u, stakes_of st' u
             = if decide (user = u)
               then <[N.to_nat index := s']> (stakes_of st user)
               else stakes_of st u) ->
  forall u, Forall2 stake_step (stakes_of st u) (stakes_of st' u).
Proof.
  intros Hs%stake_at_Ok Hstep Hst' u. rewrite Hst'.
  destruct (decide (user = u)) as [<-|]; [|done].
  by eapply stake_step_write.
Qed.

Lemma kept_stakes_step st st' :
  stakes st' = stakes st ->
  forall u, Forall2 stake_step (stakes_of st u) (stakes_of st' u).
Proof. intros H u. unfold stakes_of. by rewrite H. Qed.

Lemma claimable_step now st user index s v :
  stake_at st user index = Ok s ->
  calculateReward now user index st = Ok v ->
  rewardsClaimed s + v = rewardsClaimed s \/
  (rewardsClaimed s <= rewardsClaimed s + v /\
   rewardsClaimed s + v <= amount s * fixedRate s / 100).
Proof.
  intros Hs (s0 & Hs0 & Hv)%calculateReward_Ok.
  rewrite Hs in Hs0. injection Hs0 as <-.
  destruct Hv as [->|(_ & _ & _ & _ & _ & Htotal)]; [left; lia|right].
  split; [lia|]. rewrite Htotal. apply accrual_le_cap. lia.
Qed.

Lemma stakes_of_write_twice st user index s1 s2 p u :
  stakes_of (write_stake user index s2
               (set_rewardPool p (write_stake user index s1 st))) u
  = if decide (user = u) then <[N.to_nat index := s2]> (stakes_of st user)
    else stakes_of st u.
Proof.
  rewrite stakes_of_write_stake.
  change (stakes_of (set_rewardPool p (write_stake user index s1 st)))
    with (stakes_of (write_stake user index s1 st)).
  destruct (decide (user = u)) as [Hu|Hu].
  - rewrite stakes_of_write_stake, decide_True by done.
    apply list_insert_insert_eq.
  - rewrite stakes_of_write_stake. by rewrite decide_False.
Qed.

(** Every successful call either appends one fresh active record for the
    sender and logs its [Staked] event, or logs some other event and moves
    every record by a [stake_step]. *)
Lemma exec_stakes sender now c st st' :
  exec sender now c st = Ok st' ->
  (exists a l rate,
     logs st'
     = logs st ++ [Staked sender (N.of_nat (length (stakes_of st sender))) a l]
     /\
     forall u, stakes_of st' u
               = if decide (sender = u)
                 then stakes_of st sender
                        ++ [mkStake a now l rate 0 true false]
                 else stakes_of st u)
  \/
  (exists e,
     logs st' = logs st ++ [e] /\
     (forall u j a l, e <> Staked u j a l) /\
     forall u, Forall2 stake_step (stakes_of st u) (stakes_of st' u)).
Proof.
  destruct c; cbn [exec]; intros H.
  - (* setLockParameters *)
    unfold setLockParameters in H. ok_steps. subst st'. right.
    eexists. split; [reflexivity|]. split; [done|]. by apply kept_stakes_step.
  - (* fundRewardPool *)
    unfold fundRewardPool in H. ok_steps. subst st'. right.
    eexists. split; [reflexivity|]. split; [done|]. by apply kept_stakes_step.
  - (* stake *)
    unfold stake in H. ok_steps. subst st'. left.
    exists _amount, _lockPeriod, (dailyRate_of st _lockPeriod).
    split.
    + cbn [logs emit set_stakes set_stakingToken]. do 3 f_equal.
      unfold stakes_of at 1. cbn [stakes set_stakes set_stakingToken].
      rewrite lookup_insert_eq. cbn [default id].
      change (stakes_of (set_stakingToken ?t st)) with (stakes_of st).
      rewrite length_app. cbn [length]. lia.
    + intros u. unfold stakes_of at 1.
      cbn [stakes emit set_stakes set_stakingToken].
      rewrite lookup_insert. destruct (decide (sender = u)); reflexivity.
  - (* claimReward *)
    unfold claimReward in H. ok_steps. subst st'. right.
    eexists. split; [reflexivity|]. split; [done|].
    eapply written_stakes_step; [exact Hstep0| |].
    2: { intros u.
         change (stakes_of (emit ?e (set_stakingToken ?t (set_rewardPool ?p ?x))))
           with (stakes_of x).
         apply stakes_of_write_stake. }
    unfold stake_step. cbn. do 3 (split; [reflexivity|]).
    split; [|by left]. eapply claimable_step; eassumption.
  - (* unstake *)
    apply unstake_Ok in H as (s & _ & Hs & _ & Hfit & Hcase). right.
    destruct Hcase as
      [(Hlock & reward & tok & Hcalc & _ & _ & _ & _ & ->)
      |(Hlock & tok & _ & _ & _ & _ & ->)].
    + unfold unstaked_after_lock, flag_expired_in, flag_expired in *.
      destruct (startTime s + lockPeriod s + GRACE_PERIOD <=? now).
      * eexists. split; [reflexivity|]. split; [done|].
        eapply written_stakes_step; [exact Hs| |].
        2: { intros u.
             change (stakes_of (emit ?e (set_stakingToken ?t ?x)))
               with (stakes_of x).
             apply stakes_of_write_twice. }
        eapply (claimable_step _ _ _ _ (set_expired true s)) in Hcalc;
          [|eapply stake_at_write_stake, Hs].
        unfold stake_step. cbn. do 3 (split; [reflexivity|]).
        split; [exact Hcalc|]. right; left; done.
      * eexists. split; [reflexivity|]. split; [done|].
        eapply written_stakes_step; [exact Hs| |].
        2: { intros u.
             change (stakes_of (emit ?e (set_stakingToken ?t ?x)))
               with (stakes_of x).
             rewrite stakes_of_write_stake. reflexivity. }
        eapply claimable_step in Hcalc; [|exact Hs].
        unfold stake_step. cbn. do 3 (split; [reflexivity|]).
        split; [exact Hcalc|]. right; left; done.
    + eexists. split; [reflexivity|]. split; [done|].
      eapply written_stakes_step; [exact Hs| |].
      2: { intros u. unfold unstaked_early.
           change (stakes_of (emit ?e (set_stakingToken ?t ?x)))
             with (stakes_of x).
           rewrite stakes_of_write_stake. reflexivity. }
      unfold stake_step. cbn. do 3 (split; [reflexivity|]).
      split; [by left|]. right; left; done.
  - (* cleanUpExpiredStake *)
    unfold cleanUpExpiredStake in H. ok_steps. subst st'. right.
    eexists. split; [reflexivity|]. split; [done|].
    eapply written_stakes_step; [exact Hstep0| |].
    2: { intros u. apply stakes_of_write_stake. }
    unfold stake_step. cbn. do 3 (split; [reflexivity|]).
    split; [by left|]. right; right; done.
  - (* emergencyWithdraw *)
    unfold emergencyWithdraw in H. ok_steps. subst st'. right.
    eexists. split; [reflexivity|]. split; [done|].
    eapply written_stakes_step; [exact Hstep0| |].
    2: { intros u.
         change (stakes_of (emit ?e (set_stakingToken ?t ?x)))
           with (stakes_of x).
         apply stakes_of_write_stake. }
    unfold stake_step. cbn. do 3 (split; [reflexivity|]).
    split; [by left|]. right; left; done.
  - (* withdrawExcessRewards *)
    unfold withdrawExcessRewards in H. ok_steps. subst st'. right.
    eexists. split; [reflexivity|]. split; [done|]. by apply kept_stakes_step.
  - (* pause *)
    unfold pause in H. ok_steps. subst st'. right.
    eexists. split; [reflexivity|]. split; [done|]. by apply kept_stakes_step.
  - (* unpause *)
    unfold unpause in H. ok_steps. subst st'. right.
    eexists. split; [reflexivity|]. split; [done|]. by apply kept_stakes_step.
  - (* transferOwnership *)
    unfold transferOwnership in H. ok_steps.
    destruct (N.eqb newOwner 0); ok_steps. subst st'. right.
    eexists. split; [reflexivity|]. split; [done|]. by apply kept_stakes_step.
  - (* renounceOwnership *)
    unfold renounceOwnership in H. ok_steps. subst st'. right.
    eexists. split; [reflexivity|]. split; [done|]. by apply kept_stakes_step.
Qed.

(** *** The invariant of reachable storages *)

Lemma staked_inv_deployed deployer (tok : T) :
  staked_inv (deployed deployer tok).
Proof.
  split.
  - intros u j a l H. cbn in H. by apply elem_of_nil in H.
  - intros u i s H. unfold stakes_of in H. cbn in H.
    rewrite lookup_empty in H. cbn in H. by rewrite lookup_nil in H.
Qed.

Lemma staked_inv_exec sender now c st st' :
  exec sender now c st = Ok st' -> staked_inv st -> staked_inv st'.
Proof.
  intros Hexec [Hev Hrec].
  destruct (exec_stakes _ _ _ _ _ Hexec)
    as [(a & l & rate & Hlogs & Hstakes)|(e & Hlogs & Hne & Hsteps)].
  - (* a fresh record *)
    set (n := length (stakes_of st sender)) in *.
    split.
    + intros u j a' l' Hin. rewrite Hlogs in Hin. rewrite Hstakes.
      apply elem_of_app in Hin as [Hin|Hin%list_elem_of_singleton].
      * apply Hev in Hin. destruct (decide (sender = u)) as [<-|]; [|done].
        rewrite length_app. lia.
      * injection Hin as <- -> <- <-. rewrite decide_True by done.
        rewrite length_app. cbn. lia.
    + intros u i s Hs. rewrite Hstakes in Hs. rewrite Hlogs.
      assert (Hold : forall s0, stakes_of st u !! i = Some s0 ->
                s = s0 ->
                exists A,
                  Staked u (N.of_nat i) A (lockPeriod s)
                    ∈ logs st ++ [Staked sender (N.of_nat n) a l] /\
                  (forall A' L',
                     Staked u (N.of_nat i) A' L'
                       ∈ logs st ++ [Staked sender (N.of_nat n) a l] ->
                     A' = A) /\
                  (active s = true -> amount s = A) /\
                  (amount s = A \/ amount s = 0) /\
                  rewardsClaimed s <= A * fixedRate s / 100 /\
                  (active s = false -> expired s = false -> amount s = 0)).
      { intros s0 Hs0 ->.
        destruct (Hrec _ _ _ Hs0) as (A & Hin & Huniq & Hrest).
        exists A. split; [apply elem_of_app; by left|]. split; [|exact Hrest].
        intros A' L' Hin'.
        apply elem_of_app in Hin' as [Hin'|Hin'%list_elem_of_singleton];
          [by eapply Huniq|].
        injection Hin' as -> Hi _ _. apply Nat2N.inj in Hi. subst i.
        apply lookup_lt_Some in Hs0. unfold n in Hs0. lia. }
      destruct (decide (sender = u)) as [<-|Hu]; [|by eapply Hold].
      apply lookup_snoc_Some in Hs as [[_ Hs]|[-> <-]]; [by eapply Hold|].
      exists a. cbn.
      split; [apply elem_of_app; right; by apply list_elem_of_singleton|].
      split; [|split; [done|split; [by left|split; [apply N.le_0_l|done]]]].
      intros A' L' Hin'.
      apply elem_of_app in Hin' as [Hin'|Hin'%list_elem_of_singleton].
      * apply Hev in Hin'. rewrite Nat2N.id in Hin'. unfold n in Hin'. lia.
      * by injection Hin' as -> _.
  - (* the records move by a step *)
    assert (Hin_old : forall u j a l,
              Staked u j a l ∈ logs st' -> Staked u j a l ∈ logs st).
    { intros u j a l Hin. rewrite Hlogs in Hin.
      apply elem_of_app in Hin as [Hin|Hin%list_elem_of_singleton]; [done|].
      by destruct (Hne u j a l). }
    split.
    + intros u j a l Hin%Hin_old. apply Hev in Hin.
      by rewrite <- (Forall2_length _ _ _ (Hsteps u)).
    + intros u i s' Hs'.
      destruct (Forall2_lookup_r _ _ _ _ _ (Hsteps u) Hs')
        as (s & Hs & Hl & Hlk & Hr & Hc & Hm).
      destruct (Hrec _ _ _ Hs) as (A & Hin & Huniq & Hact & Hamt & Hcl & Hz).
      exists A. rewrite Hlk, Hr.
      split; [rewrite Hlogs; apply elem_of_app; by left|].
      split; [intros A' L' Hin'%Hin_old; by eapply Huniq|].
      assert (Hcl' : rewardsClaimed s' <= A * fixedRate s / 100).
      { destruct Hc as [->|[_ Hc]]; [done|].
        destruct Hamt as [<-|Hzero]; [done|].
        rewrite Hzero, N.mul_0_l in Hc.
        rewrite N.Div0.div_0_l in Hc. lia. }
      destruct Hm as [(Ha & Hb & He)|[(Ha & Hb)|(Ha & Hb & He)]].
      * rewrite Ha, Hb, He. done.
      * rewrite Ha, Hb. split; [done|]. split; [by right|]. done.
      * rewrite Ha, Hb, He. split; [done|]. split; [done|]. done.
Qed.

Lemma staked_inv_transact sender now c st :
  staked_inv st -> staked_inv (transact sender now c st).
Proof.
  intros Hinv. unfold transact.
  destruct (exec sender now c st) eqn:Hexec; [|done].
  by eapply staked_inv_exec.
Qed.

Lemma staked_inv_future now st now' st' :
  future now st now' st' -> staked_inv st -> staked_inv st'.
Proof.
  induction 1 as [|now1 st1 sender now2 c _ IH _]; [done|].
  intros Hinv. by apply staked_inv_transact, IH.
Qed.

Lemma staked_inv_reachable now st : reachable now st -> staked_inv st.
Proof.
  intros (deployer & tok & now0 & Hfut).
  eapply staked_inv_future; [exact Hfut|]. apply staked_inv_deployed.
Qed.

Lemma maxReward_Ok st user index s m :
  stake_at st user index = Ok s ->
  maxReward user index st = Ok m -> m = amount s * fixedRate s / 100.
Proof.
  intros Hs H. unfold maxReward in H. rewrite Hs in H. cbn [bind] in H.
  ok_steps. by subst.
Qed.

(** C1 (as the code has it).  In every reachable storage, every stake record
    has exactly one [Staked] event in the log, carrying the amount [A] it
    was staked with; the stored amount is [A] as long as the record is
    active, and [A] or 0 afterwards (unstake and emergencyWithdraw zero it).
    What was claimed plus what [calculateReward] returns, at any time, never
    exceeds [A * fixedRate / 100]; in particular, for a record whose amount
    has not been zeroed, it never exceeds what [maxReward] returns. *)
Theorem reward_cap_on_staked_amount now st user index s :
  reachable now st ->
  stake_at st user index = Ok s ->
  exists A,
    Staked user index A (lockPeriod s) ∈ logs st /\
    (forall A' L', Staked user index A' L' ∈ logs st -> A' = A) /\
    (active s = true -> amount s = A) /\
    (amount s = A \/ amount s = 0) /\
    rewardsClaimed s <= A * fixedRate s / 100 /\
    (forall t v,
       calculateReward t user index st = Ok v ->
       rewardsClaimed s + v <= A * fixedRate s / 100) /\
    (amount s <> 0 ->
     forall t v m,
       calculateReward t user index st = Ok v ->
       maxReward user index st = Ok m ->
       rewardsClaimed s + v <= m).
Proof.
  intros [_ Hrec]%staked_inv_reachable Hs.
  pose proof Hs as Hlk%stake_at_Ok.
  destruct (Hrec _ _ _ Hlk) as (A & Hin & Huniq & Hact & Hamt & Hcl & _).
  rewrite N2Nat.id in Hin, Huniq.
  assert (Hcap : forall t v,
            calculateReward t user index st = Ok v ->
            rewardsClaimed s + v <= A * fixedRate s / 100).
  { intros t v Hcalc.
    destruct (claimable_step _ _ _ _ _ _ Hs Hcalc) as [->|[_ Hle]]; [done|].
    destruct Hamt as [<-|Hz]; [done|].
    rewrite Hz, N.mul_0_l, N.Div0.div_0_l in Hle. lia. }
  exists A. do 5 (split; [done|]). split; [exact Hcap|].
  intros Hnz t v m Hcalc Hmax.
  rewrite (maxReward_Ok _ _ _ _ _ Hs Hmax).
  destruct Hamt as [->|Hz]; [by eapply Hcap|done].
Qed.

Lemma future_inactive now st now' st' user i s :
  future now st now' st' ->
  stakes_of st user !! i = Some s ->
  active s = false ->
  exists s', stakes_of st' user !! i = Some s' /\
             active s' = false /\
             (amount s = 0 -> amount s' = 0).
Proof.
  intros Hfut Hs Ha.
  induction Hfut as [|now1 st1 sender now2 c _ IH _]; [by exists s|].
  destruct IH as (s1 & Hs1 & Ha1 & Hz1).
  unfold transact. destruct (exec sender now2 c st1) as [st2|] eqn:Hexec;
    [|by exists s1].
  destruct (exec_stakes _ _ _ _ _ Hexec)
    as [(a & l & rate & _ & Hstakes)|(e & _ & _ & Hsteps)].
  - exists s1. split; [|done]. rewrite Hstakes.
    destruct (decide (sender = user)) as [->|]; [|done].
    rewrite lookup_app_l; [done|]. by eapply lookup_lt_Some.
  - destruct (Forall2_lookup_l _ _ _ _ _ (Hsteps user) Hs1)
      as (s2 & Hs2 & _ & _ & _ & _ & Hm).
    exists s2. split; [done|].
    destruct Hm as [(Hx & Hy & _)|[(Hx & Hy)|(Hx & Hy & _)]].
    + rewrite Hx, Hy. auto.
    + auto.
    + rewrite Hx. auto.
Qed.

(** C2 (as the code has it).  In every reachable storage, an inactive record
    that is not flagged expired holds no principal (unstake and
    emergencyWithdraw zero the amount in the call that deactivates the
    record), whereas [cleanUpExpiredStake] deactivates a record and flags it
    expired without touching its amount.  Whatever happens later, an
    inactive record stays inactive, and once its amount is zero it stays
    zero. *)
Theorem inactive_stake_principal now st user index s :
  reachable now st ->
  stake_at st user index = Ok s ->
  active s = false ->
  (expired s = false -> amount s = 0) /\
  (forall now' st',
     future now st now' st' ->
     exists s', stake_at st' user index = Ok s' /\
                active s' = false /\
                (amount s = 0 -> amount s' = 0)).
Proof.
  intros [_ Hrec]%staked_inv_reachable Hs%stake_at_Ok Ha. split.
  - intros He. destruct (Hrec _ _ _ Hs) as (A & _ & _ & _ & _ & _ & Hz).
    by apply Hz.
  - intros now' st' Hfut.
    destruct (future_inactive _ _ _ _ _ _ _ Hfut Hs Ha) as (s' & Hs' & H').
    exists s'. split; [by apply stake_at_Ok|done].
Qed.

(** *** Traces *)

Lemma future_trans now st now1 st1 now2 st2 :
  future now st now1 st1 -> future now1 st1 now2 st2 -> future now st now2 st2.
Proof.
  intros H1 H2. induction H2; [done|]. by eapply future_transact.
Qed.

Lemma run_future txs : forall now st now',
  run_clock now txs = Some now' -> future now st now' (run txs st).
Proof.
  induction txs as [|[[sender t] c] txs IH]; intros now st now' H.
  - injection H as <-. apply future_now.
  - cbn in H. destruct (N.leb_spec now t); [|discriminate].
    eapply future_trans; [|exact (IH _ _ _ H)].
    eapply future_transact; [apply future_now|done].
Qed.

Lemma run_reachable txs deployer (tok : T) now :
  run_clock 0 txs = Some now -> reachable now (run txs (deployed deployer tok)).
Proof. intros H. exists deployer, tok, 0. by apply run_future. Qed.

End VaultFacts.

(** * The properties on the concrete ledger *)

Import Ledger.

Ltac by_eval := vm_compute; first [reflexivity | discriminate].

(** C1, as stated, fails.  The reward cap read on the stored amount breaks
    once a stake that has claimed is unstaked: alice claimed 10 on a
    principal of 100 at 10% and withdrew, so the record holds amount 0 and
    [rewardsClaimed] 10. *)
Lemma reward_cap_on_stored_amount_fails :
  ~ (forall now (st : vault) user index s t v,
       reachable now st ->
       stake_at st user index = Ok s ->
       calculateReward t user index st = Ok v ->
       rewardsClaimed s + v <= amount s * fixedRate s / 100).
Proof.
  intros H.
  specialize (H 86400 withdrawn alice 0 withdrawn_stake 86400 0).
  assert (Hle : rewardsClaimed withdrawn_stake + 0
                <= amount withdrawn_stake * fixedRate withdrawn_stake / 100).
  { apply H.
    - apply (run_reachable txs_withdrawn). by_eval.
    - by_eval.
    - by_eval. }
  vm_compute in Hle. by apply Hle.
Qed.

Lemma reward_cap_on_staked_amount_witness :
  reachable 43200 claimed_half /\
  stake_at claimed_half alice 0 = Ok half_claimed_stake /\
  exists A,
    Staked alice 0 A (lockPeriod half_claimed_stake) ∈ logs claimed_half /\
    (forall A' L', Staked alice 0 A' L' ∈ logs claimed_half -> A' = A) /\
    (active half_claimed_stake = true -> amount half_claimed_stake = A) /\
    (amount half_claimed_stake = A \/ amount half_claimed_stake = 0) /\
    rewardsClaimed half_claimed_stake
    <= A * fixedRate half_claimed_stake / 100 /\
    (forall t v,
       calculateReward t alice 0 claimed_half = Ok v ->
       rewardsClaimed half_claimed_stake + v
       <= A * fixedRate half_claimed_stake / 100) /\
    (amount half_claimed_stake <> 0 ->
     forall t v m,
       calculateReward t alice 0 claimed_half = Ok v ->
       maxReward alice 0 claimed_half = Ok m ->
       rewardsClaimed half_claimed_stake + v <= m).
Proof.
  assert (Hr : reachable 43200 claimed_half)
    by (apply (run_reachable txs_claimed_half); by_eval).
  assert (Hs : stake_at claimed_half alice 0 = Ok half_claimed_stake)
    by by_eval.
  split; [exact Hr|]. split; [exact Hs|].
  exact (reward_cap_on_staked_amount 43200 claimed_half alice 0
           half_claimed_stake Hr Hs).
Defined.

(** C2, as stated, fails.  An inactive record need not be empty: after
    [cleanUpExpiredStake] alice's record is inactive and still holds its
    100. *)
Lemma inactive_stake_with_principal :
  ~ (forall now (st : vault) user index s,
       reachable now st ->
       stake_at st user index = Ok s ->
       active s = false ->
       amount s = 0).
Proof.
  intros H.
  specialize (H 173400 tombstoned alice 0 tombstoned_stake).
  assert (Hz : amount tombstoned_stake = 0).
  { apply H.
    - apply (run_reachable txs_tombstoned). by_eval.
    - by_eval.
    - reflexivity. }
  discriminate Hz.
Qed.

Lemma inactive_stake_principal_witness :
  reachable 86400 withdrawn /\
  stake_at withdrawn alice 0 = Ok withdrawn_stake /\
  active withdrawn_stake = false /\
  (expired withdrawn_stake = false -> amount withdrawn_stake = 0) /\
  (forall now' st',
     future 86400 withdrawn now' st' ->
     exists s', stake_at st' alice 0 = Ok s' /\
                active s' = false /\
                (amount withdrawn_stake = 0 -> amount s' = 0)).
Proof.
  assert (Hr : reachable 86400 withdrawn)
    by (apply (run_reachable txs_withdrawn); by_eval).
  assert (Hs : stake_at withdrawn alice 0 = Ok withdrawn_stake) by by_eval.
  split; [exact Hr|]. split; [exact Hs|]. split; [reflexivity|].
  exact (inactive_stake_principal 86400 withdrawn alice 0 withdrawn_stake
           Hr Hs eq_refl).
Defined.

Lemma claimReward_twice_pays_nothing_witness :
  claimReward alice 43200 0 staked = Ok claimed_half /\
  calculateReward 43200 alice 0 claimed_half = Ok 0 /\
  claimReward alice 43200 0 claimed_half
  = Err (RequireFailed "no accrued rewards") /\
  transact alice 43200 (ClaimReward 0) claimed_half = claimed_half.
Proof.
  assert (Hc : claimReward alice 43200 0 staked = Ok claimed_half) by by_eval.
  split; [exact Hc|].
  exact (claimReward_twice_pays_nothing staked alice 43200 0 claimed_half Hc).
Defined.

Lemma calculateReward_refines_spec_witness :
  stake_at staked alice 0 = Ok fresh_stake /\
  (forall v, calculateReward 43200 alice 0 staked = Ok v ->
             Z.of_N v = calculateReward_spec fresh_stake 43200) /\
  (exists v, calculateReward 43200 alice 0 staked = Ok v /\
             Z.of_N v = calculateReward_spec fresh_stake 43200).
Proof.
  assert (Hs : stake_at staked alice 0 = Ok fresh_stake) by by_eval.
  split; [exact Hs|].
  destruct (calculateReward_refines_spec staked alice 0 fresh_stake 43200 Hs)
    as [Hany Hsome].
  split; [exact Hany|]. apply Hsome.
  - intros _ _. by_eval.
  - intros _ _ _. repeat split; by_eval.
Defined.

Lemma unstake_early_pays_principal_minus_penalty_witness :
  paused staked = false /\
  stake_at staked alice 0 = Ok fresh_stake /\
  active fresh_stake = true /\
  300 < startTime fresh_stake + lockPeriod fresh_stake /\
  (forall st', unstake alice 300 0 staked = Ok st' ->
     safeTransfer alice (100 - 10) (stakingToken staked)
     = Some (stakingToken st') /\
     10 <= 100 /\
     rewardPool st' = 1000 + 10 /\
     stake_at st' alice 0 = Ok (set_active false (set_amount 0 fresh_stake)) /\
     rewardsClaimed (set_active false (set_amount 0 fresh_stake)) = 0 /\
     logs st' = logs staked ++ [EarlyUnstake alice 0 100 10]) /\
  (exists st', unstake alice 300 0 staked = Ok st' /\ stakingToken st' = 1010).
Proof.
  assert (Hp : paused staked = false) by by_eval.
  assert (Hs : stake_at staked alice 0 = Ok fresh_stake) by by_eval.
  assert (Hlock : 300 < startTime fresh_stake + lockPeriod fresh_stake)
    by by_eval.
  do 4 (split; [done|]).
  destruct (unstake_early_pays_principal_minus_penalty staked alice 300 0
              fresh_stake Hp Hs eq_refl Hlock) as [Hany Hsome].
  split; [exact Hany|]. apply Hsome; by_eval.
Defined.

Lemma unstake_after_lock_pays_principal_plus_reward_witness :
  paused claimed_half = false /\
  stake_at claimed_half alice 0 = Ok half_claimed_stake /\
  active half_claimed_stake = true /\
  startTime half_claimed_stake + lockPeriod half_claimed_stake <= 86400 /\
  calculateReward 86400 alice 0 claimed_half = Ok 5 /\
  (exists st',
     unstake alice 86400 0 claimed_half = Ok st' /\
     stakingToken st' = 990 /\
     rewardPool st' = 995 - 5 /\
     stake_at st' alice 0
     = Ok (set_active false (set_amount 0
             (set_rewardsClaimed (5 + 5) half_claimed_stake))) /\
     logs st' = logs claimed_half ++ [UnstakeAfterLock alice 0 100 5]) /\
  (exists st',
     unstake alice 173400 0 claimed_half = Ok st' /\
     stakingToken st' = 995 /\
     rewardPool st' = 995 /\
     stake_at st' alice 0
     = Ok (set_active false (set_amount 0
             (set_expired true half_claimed_stake))) /\
     logs st' = logs claimed_half ++ [UnstakeAfterLock alice 0 100 0]).
Proof.
  assert (Hp : paused claimed_half = false) by by_eval.
  assert (Hs : stake_at claimed_half alice 0 = Ok half_claimed_stake)
    by by_eval.
  assert (Hamt : uint256 (amount half_claimed_stake)) by by_eval.
  assert (Hcl : uint256 (rewardsClaimed half_claimed_stake)) by by_eval.
  assert (Hfit : uint256 (startTime half_claimed_stake
                          + lockPeriod half_claimed_stake + GRACE_PERIOD))
    by by_eval.
  assert (Hcalc : calculateReward 86400 alice 0 claimed_half = Ok 5)
    by by_eval.
  split; [exact Hp|]. split; [exact Hs|]. split; [reflexivity|].
  split; [by_eval|]. split; [exact Hcalc|]. split.
  - assert (Hlock : startTime half_claimed_stake
                    + lockPeriod half_claimed_stake <= 86400) by by_eval.
    destruct (unstake_after_lock_pays_principal_plus_reward claimed_half
                alice 86400 0 half_claimed_stake Hp Hs eq_refl Hamt Hcl Hfit
                Hlock) as [Hgrace _].
    assert (Hlt : 86400 < startTime half_claimed_stake
                          + lockPeriod half_claimed_stake + GRACE_PERIOD)
      by by_eval.
    destruct (Hgrace Hlt 5 Hcalc) as [_ Hok]. apply Hok; by_eval.
  - assert (Hlock : startTime half_claimed_stake
                    + lockPeriod half_claimed_stake <= 173400) by by_eval.
    destruct (unstake_after_lock_pays_principal_plus_reward claimed_half
                alice 173400 0 half_claimed_stake Hp Hs eq_refl Hamt Hcl Hfit
                Hlock) as [_ Hexpired].
    apply Hexpired; by_eval.
Defined.

Lemma emergencyWithdraw_principal_only_witness :
  stake_at paused_vault alice 0 = Ok fresh_stake /\
  (paused staked = false ->
   emergencyWithdraw alice 0 staked = Err ExpectedPause) /\
  (forall st', emergencyWithdraw alice 0 paused_vault = Ok st' ->
     rewardPool st' = rewardPool paused_vault /\
     stake_at st' alice 0 = Ok (set_active false (set_amount 0 fresh_stake)))
  /\
  (exists st', emergencyWithdraw alice 0 paused_vault = Ok st' /\
               stakingToken st' = 1000).
Proof.
  assert (Hs : stake_at staked alice 0 = Ok fresh_stake) by by_eval.
  assert (Hs' : stake_at paused_vault alice 0 = Ok fresh_stake) by by_eval.
  split; [exact Hs'|]. split.
  - exact (proj1 (emergencyWithdraw_principal_only staked alice 0
                    fresh_stake Hs)).
  - destruct (emergencyWithdraw_principal_only paused_vault alice 0
                fresh_stake Hs') as (_ & _ & Hany & Hsome).
    split.
    + intros st' Hok. destruct (Hany st' Hok) as (_ & _ & _ & Hpool & Hrec & _).
      by split.
    + apply Hsome; by_eval.
Defined.

Lemma unstake_again_after_expiry_witness :
  stake_at staked alice 0 = Ok fresh_stake /\
  unstake alice 173400 0 staked = Ok expired_withdrawn /\
  exists s1,
    stake_at expired_withdrawn alice 0 = Ok s1 /\
    active s1 = false /\ expired s1 = true /\ amount s1 = 0 /\
    forall tok,
      safeTransfer alice 0 (stakingToken expired_withdrawn) = Some tok ->
      unstake alice 200000 0 expired_withdrawn
      = Ok (emit (UnstakeAfterLock alice 0 0 0)
              (set_stakingToken tok expired_withdrawn)).
Proof.
  assert (Hs : stake_at staked alice 0 = Ok fresh_stake) by by_eval.
  assert (Hfirst : unstake alice 173400 0 staked = Ok expired_withdrawn)
    by by_eval.
  split; [exact Hs|]. split; [exact Hfirst|].
  apply (unstake_again_after_expiry staked alice 173400 0 fresh_stake
           expired_withdrawn 200000 Hs); [by_eval|exact Hfirst|by_eval].
Defined.

(** C10, as stated, fails.  A penalty rate above 100 does not always make
    the early unstake panic: under a 101% penalty a stake of
    50 is unstaked early without panic (penalty 50, payout 0). *)
Lemma unstake_early_steep_penalty_succeeds :
  ~ (forall t (st : vault) sender now index s,
       reachable t st ->
       t <= now ->
       paused st = false ->
       stake_at st sender index = Ok s ->
       active s = true ->
       100 < penalty_of st (lockPeriod s) ->
       now < startTime s + lockPeriod s ->
       unstake sender now index st = Err Panic_Arithmetic).
Proof.
  intros H.
  specialize (H 0 steep alice 300 0 steep_stake).
  assert (Hfail : unstake alice 300 0 steep = Err Panic_Arithmetic).
  { apply H.
    - apply (run_reachable txs_steep). by_eval.
    - by_eval.
    - by_eval.
    - by_eval.
    - reflexivity.
    - by_eval.
    - by_eval. }
  vm_compute in Hfail. discriminate Hfail.
Qed.

Lemma unstake_early_penalty_underflow_witness :
  paused confiscating = false /\
  stake_at confiscating alice 0 = Ok fresh_stake /\
  active fresh_stake = true /\
  300 < startTime fresh_stake + lockPeriod fresh_stake /\
  100 <= amount fresh_stake
         * (penalty_of confiscating (lockPeriod fresh_stake) - 100) /\
  amount fresh_stake
  < amount fresh_stake * penalty_of confiscating (lockPeriod fresh_stake)
    / DIVISOR /\
  unstake alice 300 0 confiscating = Err Panic_Arithmetic /\
  transact alice 300 (Unstake 0) confiscating = confiscating.
Proof.
  assert (Hp : paused confiscating = false) by by_eval.
  assert (Hs : stake_at confiscating alice 0 = Ok fresh_stake) by by_eval.
  assert (Hlock : 300 < startTime fresh_stake + lockPeriod fresh_stake)
    by by_eval.
  assert (Hbig : 100 <= amount fresh_stake
                        * (penalty_of confiscating (lockPeriod fresh_stake)
                           - 100)) by by_eval.
  do 3 (split; [done|]). split; [exact Hlock|]. split; [exact Hbig|].
  destruct (unstake_early_penalty_underflow confiscating alice 300 0
              fresh_stake Hp Hs eq_refl Hlock) as (Hpanic & _ & _).
  exact (Hpanic Hbig).
Defined.

(** * Further properties of the vault *)

Section VaultAccounting.

Context {T : Type} `{Token : !IERC20 T}.
Implicit Types (st : @YieldCore T) (s : StakeInfo).

Lemma onlyOwner_Ok sender st u :
  onlyOwner sender st = Ok u <-> owner st = sender.
Proof.
  unfold onlyOwner. destruct u. destruct (N.eqb_spec (owner st) sender);
    split; congruence.
Qed.

(** ** The reward pool against the event log *)

Lemma sum_events_snoc f l e : sum_events f (l ++ [e]) = sum_events f l + f e.
Proof.
  unfold sum_events. induction l as [|x l IH]; cbn; [lia|].
  cbn in IH. rewrite IH. lia.
Qed.

(** Every successful call logs exactly one event, and the pool moves by
    what that event credits and debits. *)
Lemma exec_pool sender now c st st' :
  exec sender now c st = Ok st' ->
  exists e,
    logs st' = logs st ++ [e] /\
    rewardPool st' + pool_debit e = rewardPool st + pool_credit e.
Proof.
  destruct c; cbn [exec]; intros H.
  - unfold setLockParameters in H. ok_steps. subst st'.
    eexists. split; [reflexivity|]. reflexivity.
  - unfold fundRewardPool in H. ok_steps. subst st'.
    eexists. split; [reflexivity|]. cbn. lia.
  - unfold stake in H. ok_steps. subst st'.
    eexists. split; [reflexivity|]. reflexivity.
  - unfold claimReward in H. ok_steps. subst st'.
    apply N.leb_le in Hstep4.
    eexists. split; [reflexivity|]. cbn in *. lia.
  - apply unstake_Ok in H as (s & _ & _ & _ & _ & Hcase).
    destruct Hcase as
      [(_ & reward & tok & _ & Hle & _ & _ & _ & ->)
      |(_ & tok & _ & _ & _ & _ & ->)].
    + eexists. split.
      * unfold unstaked_after_lock, flag_expired_in.
        destruct (_ <=? _); reflexivity.
      * unfold unstaked_after_lock. cbn. lia.
    + eexists. split; [reflexivity|]. unfold unstaked_early. cbn. lia.
  - unfold cleanUpExpiredStake in H. ok_steps. subst st'.
    eexists. split; [reflexivity|]. reflexivity.
  - unfold emergencyWithdraw in H. ok_steps. subst st'.
    eexists. split; [reflexivity|]. reflexivity.
  - unfold withdrawExcessRewards in H. ok_steps. subst st'.
    eexists. split; [reflexivity|]. reflexivity.
  - unfold pause in H. ok_steps. subst st'.
    eexists. split; [reflexivity|]. reflexivity.
  - unfold unpause in H. ok_steps. subst st'.
    eexists. split; [reflexivity|]. reflexivity.
  - unfold transferOwnership in H. ok_steps.
    destruct (N.eqb newOwner 0); ok_steps. subst st'.
    eexists. split; [reflexivity|]. reflexivity.
  - unfold renounceOwnership in H. ok_steps. subst st'.
    eexists. split; [reflexivity|]. reflexivity.
Qed.

(** X1. The reward pool is the log's balance: in every storage reachable
    from deployment, the pool plus all rewards ever paid out (claims and
    unlocked unstakes) equals all owner funding plus all early-unstake
    penalties; so the rewards paid never exceed funding plus penalties. *)
Theorem rewardPool_accounts_for_log now st :
  reachable now st ->
  rewardPool st + sum_events pool_debit (logs st)
  = sum_events pool_credit (logs st) /\
  sum_events pool_debit (logs st) <= sum_events pool_credit (logs st).
Proof.
  intros (deployer & tok & now0 & Hfut).
  assert (Heq : rewardPool st + sum_events pool_debit (logs st)
                = sum_events pool_credit (logs st)); [|split; [done|lia]].
  induction Hfut as [|now1 st1 sender now2 c _ IH _]; [reflexivity|].
  unfold transact. destruct (exec sender now2 c st1) as [st2|] eqn:Hexec;
    [|exact IH].
  destruct (exec_pool _ _ _ _ _ Hexec) as (e & -> & Hpool).
  rewrite !sum_events_snoc. lia.
Qed.


(** ** The vault's token balance against pool and principal *)

Lemma principal_of_app l1 l2 :
  principal_of (l1 ++ l2) = principal_of l1 + principal_of l2.
Proof.
  unfold principal_of. induction l1 as [|x l IH]; cbn; [done|].
  cbn in IH. rewrite IH. lia.
Qed.

Lemma principal_of_insert l i s s' :
  l !! i = Some s ->
  principal_of (<[i:=s']> l) + amount s = principal_of l + amount s'.
Proof.
  revert i. induction l as [|x l IH]; intros [|i] H; try discriminate.
  - injection H as ->. cbn. lia.
  - specialize (IH i H).
    change (amount x + principal_of (<[i:=s']> l) + amount s
            = amount x + principal_of l + amount s').
    lia.
Qed.

Lemma map_fold_principal_insert (m : gmap N (list StakeInfo)) u l' :
  map_fold (fun _ l acc => principal_of l + acc) 0 (<[u:=l']> m)
  + principal_of (default [] (m !! u))
  = map_fold (fun _ l acc => principal_of l + acc) 0 m + principal_of l'.
Proof.
  set (f := fun (_ : N) l acc => principal_of l + acc).
  assert (Hcomm : forall (m0 : gmap N (list StakeInfo)) j1 j2 z1 z2 y,
            j1 <> j2 -> m0 !! j1 = Some z1 -> m0 !! j2 = Some z2 ->
            f j1 z1 (f j2 z2 y) = f j2 z2 (f j1 z1 y))
    by (intros; unfold f; lia).
  destruct (m !! u) as [l|] eqn:Hm; cbn [default].
  - rewrite (map_fold_delete_L f 0 u l m) by eauto.
    rewrite <- (insert_delete_eq m u l').
    rewrite (map_fold_insert_L f 0 u l' (delete u m));
      [|eauto|apply lookup_delete_eq].
    unfold f, id. lia.
  - rewrite (map_fold_insert_L f 0 u l' m) by eauto.
    unfold f. cbn. lia.
Qed.

Lemma total_principal_write st user index s s' :
  stake_at st user index = Ok s ->
  total_principal (write_stake user index s' st) + amount s
  = total_principal st + amount s'.
Proof.
  intros Hs%stake_at_Ok. unfold total_principal, write_stake. cbn [stakes set_stakes].
  pose proof (map_fold_principal_insert (stakes st) user
                (<[N.to_nat index:=s']> (stakes_of st user))) as Hm.
  pose proof (principal_of_insert _ _ _ s' Hs) as Hl.
  fold (stakes_of st user) in Hm. lia.
Qed.

Lemma total_principal_push st user s :
  total_principal
    (set_stakes (<[user := stakes_of st user ++ [s]]> (stakes st)) st)
  = total_principal st + amount s.
Proof.
  unfold total_principal. cbn [stakes set_stakes].
  pose proof (map_fold_principal_insert (stakes st) user
                (stakes_of st user ++ [s])) as Hm.
  fold (stakes_of st user) in Hm. rewrite principal_of_app in Hm.
  cbn in Hm. lia.
Qed.

Lemma total_principal_emit e st :
  total_principal (emit e st) = total_principal st.
Proof. reflexivity. Qed.

Lemma total_principal_set_stakingToken (t : T) st :
  total_principal (set_stakingToken t st) = total_principal st.
Proof. reflexivity. Qed.

Lemma total_principal_set_rewardPool p st :
  total_principal (set_rewardPool p st) = total_principal st.
Proof. reflexivity. Qed.

(** Closes an accounting goal once the facts on [total_principal] are in
    the context: the totals become plain numbers. *)
Ltac settle_totals :=
  cbv zeta in *;
  repeat (progress
            rewrite ?total_principal_emit, ?total_principal_set_stakingToken,
              ?total_principal_set_rewardPool in * );
  repeat match goal with
  | H : context [total_principal ?x] |- _ =>
      let P := fresh "P" in set (P := total_principal x) in *; clearbody P
  | |- context [total_principal ?x] =>
      let P := fresh "P" in set (P := total_principal x) in *; clearbody P
  end;
  cbn in *; lia.

Section Lawful.

Context `{Lawful : !LawfulToken}.

Lemma token_pull from v (t t' : T) :
  token_call (safeTransferFrom from v t) = Ok t' ->
  balanceOf t' = balanceOf t + v.
Proof. intros H%token_call_Ok. by eapply pull_balance. Qed.

Lemma token_push to v (t t' : T) :
  token_call (safeTransfer to v t) = Ok t' ->
  v <= balanceOf t /\ balanceOf t' = balanceOf t - v.
Proof. intros H%token_call_Ok. by eapply push_balance. Qed.

(** Every successful call keeps balance, pool, principal and withdrawn
    excess in step. *)
Lemma exec_balance sender now c st st' :
  exec sender now c st = Ok st' ->
  exists e,
    logs st' = logs st ++ [e] /\
    balanceOf (stakingToken st') + excess_out e
    + rewardPool st + total_principal st
    = balanceOf (stakingToken st) + rewardPool st' + total_principal st'.
Proof.
  destruct c; cbn [exec]; intros H.
  - unfold setLockParameters in H. ok_steps. subst st'.
    eexists. split; [reflexivity|].
    change (total_principal (emit _ _)) with (total_principal st).
    settle_totals.
  - unfold fundRewardPool in H. ok_steps. subst st'.
    match goal with
    | Hp : token_call (safeTransferFrom _ _ _) = Ok _ |- _ =>
        apply token_pull in Hp
    end.
    eexists. split; [reflexivity|]. settle_totals.
  - unfold stake in H. ok_steps. subst st'.
    match goal with
    | Hp : token_call (safeTransferFrom _ _ _) = Ok ?t |- _ =>
        apply token_pull in Hp;
        pose proof (total_principal_push (set_stakingToken t st) sender
                      (mkStake _amount now _lockPeriod
                         (dailyRate_of st _lockPeriod) 0 true false)) as HP;
        change (stakes (set_stakingToken t st)) with (stakes st) in HP
    end.
    eexists. split; [reflexivity|]. settle_totals.
  - unfold claimReward in H. ok_steps. subst st'.
    match goal with
    | Hs : stake_at st sender _index = Ok ?s0,
      Hc : calculateReward _ _ _ _ = Ok ?r,
      Hle : (?r <=? _) = true,
      Hp : token_call (safeTransfer _ _ _) = Ok _ |- _ =>
        apply N.leb_le in Hle; apply token_push in Hp as [Hpay Hbal];
        pose proof (total_principal_write st sender _index s0
                      (set_rewardsClaimed (rewardsClaimed s0 + r) s0) Hs)
          as HP
    end.
    eexists. split; [reflexivity|]. settle_totals.
  - apply unstake_Ok in H as (s & _ & Hs & _ & _ & Hcase).
    destruct Hcase as
      [(_ & reward & tok & _ & Hle & _ & _ & Htok & ->)
      |(_ & tok & _ & _ & Hpen & Htok & ->)].
    + apply push_balance in Htok as [Hpay Hbal].
      unfold unstaked_after_lock, flag_expired, flag_expired_in.
      destruct (_ <=? _).
      * eexists. split; [reflexivity|].
        pose proof (total_principal_write st sender _index s
                      (set_expired true s) Hs) as HP1.
        pose proof (total_principal_write
                      (set_rewardPool (rewardPool st - reward)
                         (write_stake sender _index (set_expired true s) st))
                      sender _index (set_expired true s)
                      (set_active false (set_amount 0
                         (set_rewardsClaimed (rewardsClaimed s + reward)
                            (set_expired true s))))
                      (stake_at_write_stake _ _ _ _ _ Hs)) as HP2.
        settle_totals.
      * eexists. split; [reflexivity|].
        pose proof (total_principal_write
                      (set_rewardPool (rewardPool st - reward) st)
                      sender _index s
                      (set_active false (set_amount 0
                         (set_rewardsClaimed (rewardsClaimed s + reward) s)))
                      Hs) as HP.
        settle_totals.
    + apply push_balance in Htok as [Hpay Hbal].
      eexists. split; [reflexivity|].
      pose proof (total_principal_write
                    (set_rewardPool
                       (rewardPool st
                        + amount s * penalty_of st (lockPeriod s) / DIVISOR)
                       st)
                    sender _index s
                    (set_active false (set_amount 0 s)) Hs) as HP.
      unfold unstaked_early. settle_totals.
  - unfold cleanUpExpiredStake in H. ok_steps. subst st'.
    match goal with
    | Hs : stake_at st _user _index = Ok ?s0 |- _ =>
        pose proof (total_principal_write st _user _index s0
                      (set_expired true (set_active false s0)) Hs) as HP
    end.
    eexists. split; [reflexivity|]. settle_totals.
  - unfold emergencyWithdraw in H. ok_steps. subst st'.
    match goal with
    | Hs : stake_at st sender _index = Ok ?s0,
      Hp : token_call (safeTransfer _ _ _) = Ok _ |- _ =>
        apply token_push in Hp as [Hpay Hbal];
        pose proof (total_principal_write st sender _index s0
                      (set_active false (set_amount 0 s0)) Hs) as HP
    end.
    eexists. split; [reflexivity|]. settle_totals.
  - unfold withdrawExcessRewards in H. ok_steps. subst st'.
    match goal with
    | Hp : token_call (safeTransfer _ _ _) = Ok _ |- _ =>
        apply token_push in Hp as [Hpay Hbal]
    end.
    eexists. split; [reflexivity|]. settle_totals.
  - unfold pause in H. ok_steps. subst st'.
    eexists. split; [reflexivity|].
    change (total_principal (emit _ _)) with (total_principal st).
    settle_totals.
  - unfold unpause in H. ok_steps. subst st'.
    eexists. split; [reflexivity|].
    change (total_principal (emit _ _)) with (total_principal st).
    settle_totals.
  - unfold transferOwnership in H. ok_steps.
    destruct (N.eqb newOwner 0); ok_steps. subst st'.
    eexists. split; [reflexivity|].
    change (total_principal (emit _ _)) with (total_principal st).
    settle_totals.
  - unfold renounceOwnership in H. ok_steps. subst st'.
    eexists. split; [reflexivity|].
    change (total_principal (emit _ _)) with (total_principal st).
    settle_totals.
Qed.

(** Over any sequence of transactions, what the balance and the withdrawn
    excess gain is what pool and principal gain. *)
Lemma future_balance now0 st0 now st :
  future now0 st0 now st ->
  balanceOf (stakingToken st) + sum_events excess_out (logs st)
  + rewardPool st0 + total_principal st0
  = balanceOf (stakingToken st0) + sum_events excess_out (logs st0)
    + rewardPool st + total_principal st.
Proof.
  intros Hfut.
  induction Hfut as [|now1 st1 sender now2 c _ IH _]; [lia|].
  unfold transact. destruct (exec sender now2 c st1) as [st2|] eqn:Hexec;
    [|exact IH].
  destruct (exec_balance _ _ _ _ _ Hexec) as (e & -> & Hstep).
  rewrite sum_events_snoc. lia.
Qed.




(** X15. After such a withdrawal the principal is no longer in the vault: a
    staker whose amount exceeds the reward pool cannot get it back through
    [emergencyWithdraw], the token transfer fails. *)
Theorem principal_stranded_after_excess_withdrawal sender st st' user index s :
  withdrawExcessRewards sender st = Ok st' ->
  stake_at st' user index = Ok s ->
  active s = true ->
  rewardPool st' < amount s ->
  emergencyWithdraw user index st' = Err SafeERC20FailedOperation.
Proof.
  intros H Hs Ha Hlt.
  assert (Hst' : paused st' = true /\
                 balanceOf (stakingToken st') = rewardPool st').
  { unfold withdrawExcessRewards in H. ok_steps. subst st'.
    match goal with
    | Hp : whenPaused _ = Ok _, Hl : (_ <? _) = true,
      Htok : token_call _ = Ok _ |- _ =>
        apply whenPaused_Ok in Hp; apply N.ltb_lt in Hl;
        apply token_push in Htok as [Hle Hbal]
    end.
    cbn in *. split; [done|lia]. }
  destruct Hst' as [Hp Hbal].
  unfold emergencyWithdraw, whenPaused. rewrite Hp, Hs. cbn [bind].
  rewrite Ha. cbn [require bind].
  cbn [stakingToken write_stake set_stakes].
  destruct (safeTransfer user (amount s) (stakingToken st')) as [tok|] eqn:Htok;
    [|reflexivity].
  apply push_balance in Htok as [Hle _]. lia.
Qed.
End Lawful.
End VaultAccounting.

(** ** The life cycle of the records *)

Section VaultLifecycle.

Context {T : Type} `{Token : !IERC20 T}.
Implicit Types (st : @YieldCore T) (s : StakeInfo).

Lemma Forall2_write {A} (R : relation A) `{!Reflexive R} l i (x y : A) :
  l !! i = Some x -> R x y -> Forall2 R l (<[i:=y]> l).
Proof.
  intros Hl Hxy. rewrite <- (list_insert_id l i x Hl) at 1.
  by apply Forall2_insert.
Qed.

#[local] Instance stake_move_refl st sender now u :
  Reflexive (stake_move st sender now u).
Proof. intros s. apply move_none. Qed.

Lemma kept_moves st sender now st' :
  stakes st' = stakes st -> moved_stakes st sender now st'.
Proof.
  intros H u. exists (stakes_of st u), []. rewrite app_nil_r.
  split; [unfold stakes_of; by rewrite H|]. split; [reflexivity|by left].
Qed.

Lemma written_moves st sender now st' user index s s' :
  stake_at st user index = Ok s ->
  stake_move st sender now user s s' ->
  (forall u, stakes_of st' u
             = if decide (user = u)
               then <[N.to_nat index := s']> (stakes_of st user)
               else stakes_of st u) ->
  moved_stakes st sender now st'.
Proof.
  intros Hs%stake_at_Ok Hmove Hst' u. rewrite Hst'.
  destruct (decide (user = u)) as [<-|].
  - eexists _, []. rewrite app_nil_r. split; [reflexivity|].
    split; [|by left].
    exact (Forall2_write (stake_move st sender now user) _ _ s s' Hs Hmove).
  - eexists _, []. rewrite app_nil_r. split; [reflexivity|].
    split; [reflexivity|by left].
Qed.

(** Every successful call moves each record along [stake_move] and appends
    at most one fresh record, to the sender's list. *)
Lemma exec_moves sender now c st st' :
  exec sender now c st = Ok st' -> moved_stakes st sender now st'.
Proof.
  destruct c; cbn [exec]; intros H.
  - unfold setLockParameters in H. ok_steps. subst st'. by apply kept_moves.
  - unfold fundRewardPool in H. ok_steps. subst st'. by apply kept_moves.
  - unfold stake in H. ok_steps. subst st'.
    match goal with
    | Hp : whenNotPaused st = Ok _ |- _ => apply whenNotPaused_Ok in Hp
    end.
    intros u. unfold stakes_of at 1.
    cbn [stakes emit set_stakes set_stakingToken].
    rewrite lookup_insert. destruct (decide (sender = u)) as [<-|].
    + cbn [default id]. eexists _, _. split; [reflexivity|].
      split; [reflexivity|]. right. do 2 (split; [done|]).
      exists _amount, _lockPeriod. repeat split; try done; by apply N.ltb_lt.
    + eexists _, []. rewrite app_nil_r. split; [reflexivity|].
      split; [reflexivity|by left].
  - unfold claimReward in H. ok_steps. subst st'.
    match goal with
    | Hp : whenNotPaused st = Ok _, Hs : stake_at st sender _index = Ok ?s0,
      Hpos : (0 <? ?r) = true, Hle : (?r <=? _) = true |- _ =>
        apply whenNotPaused_Ok in Hp; apply N.ltb_lt in Hpos;
        apply N.leb_le in Hle;
        eapply (written_moves _ _ _ _ sender _index s0); [exact Hs| |]
    end.
    + by apply move_claim.
    + intros u.
      change (stakes_of (emit ?e (set_stakingToken ?t (set_rewardPool ?p ?x))))
        with (stakes_of x).
      apply stakes_of_write_stake.
  - apply unstake_Ok in H as (s & Hp & Hs & Hreq & Hfit & Hcase).
    destruct Hcase as
      [(Hlock & reward & tok & _ & Hle & _ & _ & _ & ->)
      |(Hlock & tok & _ & _ & _ & _ & ->)].
    + eapply (written_moves _ _ _ _ sender _index s); [exact Hs| |].
      * by apply (move_unstake_unlocked _ _ _ _ s reward).
      * intros u. unfold unstaked_after_lock, flag_expired_in.
        change (stakes_of (emit ?e (set_stakingToken ?t ?x)))
          with (stakes_of x).
        destruct (_ <=? _).
        -- apply stakes_of_write_twice.
        -- rewrite stakes_of_write_stake. reflexivity.
    + eapply (written_moves _ _ _ _ sender _index s); [exact Hs| |].
      * by apply move_unstake_early.
      * intros u. unfold unstaked_early.
        change (stakes_of (emit ?e (set_stakingToken ?t ?x)))
          with (stakes_of x).
        rewrite stakes_of_write_stake. reflexivity.
  - unfold cleanUpExpiredStake in H. ok_steps. subst st'.
    match goal with
    | Ho : onlyOwner sender st = Ok _, Hs : stake_at st _user _index = Ok ?s0,
      He : _isExpired now ?s0 = Ok ?e |- _ =>
        apply onlyOwner_Ok in Ho; apply _isExpired_Ok in He as [_ He];
        eapply (written_moves _ _ _ _ _user _index s0); [exact Hs| |]
    end.
    + apply move_cleanUp; [done|done|]. apply N.leb_le. congruence.
    + intros u. apply stakes_of_write_stake.
  - unfold emergencyWithdraw in H. ok_steps. subst st'.
    match goal with
    | Hp : whenPaused st = Ok _, Hs : stake_at st sender _index = Ok ?s0 |- _ =>
        apply whenPaused_Ok in Hp;
        eapply (written_moves _ _ _ _ sender _index s0); [exact Hs| |]
    end.
    + by apply move_emergency.
    + intros u.
      change (stakes_of (emit ?e (set_stakingToken ?t ?x)))
        with (stakes_of x).
      apply stakes_of_write_stake.
  - unfold withdrawExcessRewards in H. ok_steps. subst st'.
    by apply kept_moves.
  - unfold pause in H. ok_steps. subst st'. by apply kept_moves.
  - unfold unpause in H. ok_steps. subst st'. by apply kept_moves.
  - unfold transferOwnership in H. ok_steps.
    destruct (N.eqb newOwner 0); ok_steps. subst st'. by apply kept_moves.
  - unfold renounceOwnership in H. ok_steps. subst st'. by apply kept_moves.
Qed.

Lemma transact_moves sender now c st :
  moved_stakes st sender now (transact sender now c st).
Proof.
  unfold transact. destruct (exec sender now c st) eqn:Hexec.
  - by eapply exec_moves.
  - by apply kept_moves.
Qed.


(** *** Who can touch what *)

(** X3. A call never rewrites a record of an account other than its sender,
    with one exception: the owner may tombstone another account's active
    record (and nothing else: amount and claimed rewards are kept).  The
    other accounts' lists keep their length. *)
Theorem other_accounts_stakes_untouched sender now c st u :
  u <> sender ->
  Forall2 (untouched_or_tombstoned (N.eqb (owner st) sender))
    (stakes_of st u) (stakes_of (transact sender now c st) u).
Proof.
  intros Hu.
  destruct (transact_moves sender now c st u)
    as (l' & added & -> & Hmoves & [->|(? & _)]); [|done].
  rewrite app_nil_r. eapply Forall2_impl; [exact Hmoves|].
  intros s s' Hmove. destruct Hmove; try done.
  - by left.
  - right. subst sender. rewrite N.eqb_refl. done.
Qed.

Lemma onlyOwner_Err sender st :
  owner st <> sender ->
  onlyOwner sender st = Err (OwnableUnauthorizedAccount sender).
Proof.
  intros H. unfold onlyOwner. by destruct (N.eqb_spec (owner st) sender).
Qed.

(** X4. Only the owner configures the vault: a call by anyone else, whether
    it succeeds or reverts, leaves the lock registry (both rates), the pause
    flag and the owner as they were. *)
Theorem only_owner_changes_configuration sender now c st :
  owner st <> sender ->
  let st' := transact sender now c st in
  dailyRateByLock st' = dailyRateByLock st /\
  penaltyByLock st' = penaltyByLock st /\
  paused st' = paused st /\
  owner st' = owner st.
Proof.
  intros Ho. cbv zeta. unfold transact.
  destruct (exec sender now c st) as [st'|] eqn:H; [|done].
  pose proof (onlyOwner_Err sender st Ho) as Hno.
  destruct c; cbn [exec] in H.
  - unfold setLockParameters in H. rewrite Hno in H. discriminate.
  - unfold fundRewardPool in H. rewrite Hno in H. discriminate.
  - unfold stake in H. ok_steps. by subst st'.
  - unfold claimReward in H. ok_steps. by subst st'.
  - apply unstake_Ok in H as (s & _ & _ & _ & _ & Hcase).
    destruct Hcase as
      [(_ & reward & tok & _ & _ & _ & _ & _ & ->)
      |(_ & tok & _ & _ & _ & _ & ->)]; [|done].
    unfold unstaked_after_lock, flag_expired_in. by destruct (_ <=? _).
  - unfold cleanUpExpiredStake in H. rewrite Hno in H. discriminate.
  - unfold emergencyWithdraw in H. ok_steps. by subst st'.
  - unfold withdrawExcessRewards in H. rewrite Hno in H. discriminate.
  - unfold pause in H. rewrite Hno in H. discriminate.
  - unfold unpause in H. rewrite Hno in H. discriminate.
  - unfold transferOwnership in H. rewrite Hno in H. discriminate.
  - unfold renounceOwnership in H. rewrite Hno in H. discriminate.
Qed.

(** *** Pausing *)

(** X5. While the vault is paused no reward is paid and no stake is
    created: any call leaves the reward pool unchanged, keeps the length of
    every account's list, and moves a record only by an emergency withdrawal
    of its own sender or by the owner's tombstoning, neither of which
    changes [rewardsClaimed]. *)
Theorem paused_vault_pays_no_reward sender now c st :
  paused st = true ->
  let st' := transact sender now c st in
  rewardPool st' = rewardPool st /\
  forall u,
    Forall2
      (fun s s' =>
         rewardsClaimed s' = rewardsClaimed s /\
         (s' = s \/
          (active s = true /\ u = sender /\
           s' = set_active false (set_amount 0 s)) \/
          (active s = true /\ sender = owner st /\
           s' = set_expired true (set_active false s))))
      (stakes_of st u) (stakes_of st' u).
Proof.
  intros Hp. cbv zeta. split.
  - unfold transact.
    destruct (exec sender now c st) as [st'|] eqn:H; [|done].
    destruct c; cbn [exec] in H.
    + unfold setLockParameters in H. ok_steps. by subst st'.
    + unfold fundRewardPool, whenNotPaused in H. rewrite Hp in H.
      destruct (onlyOwner sender st); discriminate.
    + unfold stake, whenNotPaused in H. rewrite Hp in H. discriminate.
    + unfold claimReward, whenNotPaused in H. rewrite Hp in H. discriminate.
    + unfold unstake, whenNotPaused in H. rewrite Hp in H. discriminate.
    + unfold cleanUpExpiredStake in H. ok_steps. by subst st'.
    + unfold emergencyWithdraw in H. ok_steps. by subst st'.
    + unfold withdrawExcessRewards in H. ok_steps. by subst st'.
    + unfold pause in H. ok_steps. by subst st'.
    + unfold unpause in H. ok_steps. by subst st'.
    + unfold transferOwnership in H. ok_steps.
      destruct (N.eqb newOwner 0); ok_steps. by subst st'.
    + unfold renounceOwnership in H. ok_steps. by subst st'.
  - intros u.
    destruct (transact_moves sender now c st u)
      as (l' & added & -> & Hmoves & [->|(_ & Hnp & _)]); [|congruence].
    rewrite app_nil_r. eapply Forall2_impl; [exact Hmoves|].
    intros s s' Hmove. destruct Hmove; try congruence.
    + split; [done|by left].
    + split; [done|]. right; right. done.
    + split; [done|]. right; left. done.
Qed.

(** *** Records over time *)

Lemma stake_move_terms st sender now u s s' :
  stake_move st sender now u s s' ->
  startTime s' = startTime s /\
  lockPeriod s' = lockPeriod s /\
  fixedRate s' = fixedRate s /\
  rewardsClaimed s <= rewardsClaimed s' /\
  (amount s' = amount s \/ amount s' = 0) /\
  (active s' = true -> active s = true /\ amount s' = amount s) /\
  (expired s = true -> expired s' = true).
Proof.
  intros Hmove. destruct Hmove; cbn; try (repeat split; auto; lia).
  unfold flag_expired. destruct (_ <=? _); cbn; repeat split; auto; lia.
Qed.

(** X6. Records are append-only and their terms are frozen: whatever
    transactions follow, the record at an index is still there, with the
    same start time, lock period and rate; its claimed total has not
    decreased, its amount is what it was or zero, it is active only if it
    was active all along (and then still holds its amount), and a record
    flagged expired stays flagged.  The account's stake count never
    decreases. *)
Theorem stake_records_are_append_only now st now' st' u index s :
  future now st now' st' ->
  stake_at st u index = Ok s ->
  getStakeCount u st <= getStakeCount u st' /\
  exists s',
    stake_at st' u index = Ok s' /\
    startTime s' = startTime s /\
    lockPeriod s' = lockPeriod s /\
    fixedRate s' = fixedRate s /\
    rewardsClaimed s <= rewardsClaimed s' /\
    (amount s' = amount s \/ amount s' = 0) /\
    (active s' = true -> active s = true /\ amount s' = amount s) /\
    (expired s = true -> expired s' = true).
Proof.
  intros Hfut Hs.
  induction Hfut as [|now1 st1 sender now2 c _ IH _].
  - split; [lia|]. exists s. repeat split; auto; lia.
  - destruct IH as (Hcount & s1 & Hs1 & Hst & Hlk & Hr & Hc & Ham & Hact & Hex).
    destruct (transact_moves sender now2 c st1 u)
      as (l' & added & Hl & Hmoves & _).
    apply stake_at_Ok in Hs1.
    destruct (Forall2_lookup_l _ _ _ _ _ Hmoves Hs1) as (s2 & Hs2 & Hmove).
    apply stake_move_terms in Hmove
      as (Hst' & Hlk' & Hr' & Hc' & Ham' & Hact' & Hex').
    split.
    + unfold getStakeCount in *. rewrite Hl, length_app.
      rewrite <- (Forall2_length _ _ _ Hmoves). lia.
    + exists s2. split.
      * apply stake_at_Ok. rewrite Hl.
        rewrite lookup_app_l; [done|]. by eapply lookup_lt_Some.
      * rewrite Hst', Hlk', Hr'. do 3 (split; [done|]).
        split; [lia|]. split; [destruct Ham' as [->| ->]; auto|].
        split; [|auto].
        intros Ha2. destruct (Hact' Ha2) as [Ha1 Heq].
        destruct (Hact Ha1) as [Ha Heq']. split; [done|congruence].
Qed.

(** X7. A record withdrawn before its grace period ended (inactive and not
    flagged expired) is final: no later transaction, by anyone, changes any
    of its fields. *)
Theorem withdrawn_record_is_final now st now' st' u index s :
  future now st now' st' ->
  stake_at st u index = Ok s ->
  active s = false ->
  expired s = false ->
  stake_at st' u index = Ok s.
Proof.
  intros Hfut Hs Ha He.
  induction Hfut as [|now1 st1 sender now2 c _ IH _]; [done|].
  destruct (transact_moves sender now2 c st1 u)
    as (l' & added & Hl & Hmoves & _).
  apply stake_at_Ok in IH.
  destruct (Forall2_lookup_l _ _ _ _ _ Hmoves IH) as (s2 & Hs2 & Hmove).
  apply stake_at_Ok. rewrite Hl.
  rewrite lookup_app_l; [|by eapply lookup_lt_Some].
  destruct Hmove; try done; try congruence.
  all: rewrite Ha, He in *; discriminate.
Qed.

(** *** Creating and claiming *)

(** X8. [stake] reverts on a paused vault, on a zero amount and on a lock
    duration whose registered daily rate is zero (never registered, or
    disabled).  Every successful call pulled exactly the amount from the
    sender and appended one record at the index equal to the sender's
    previous stake count: active, unflagged, nothing claimed, started at the
    block time, with the rate registered at that moment; every other record
    of every account, the pool and the stake count of other accounts are as
    before.  It succeeds whenever the three checks pass and the token
    delivers the amount. *)
Theorem stake_appends_record st sender now _amount _lockPeriod :
  let rate := dailyRate_of st _lockPeriod in
  let index := getStakeCount sender st in
  (paused st = true ->
   stake sender now _amount _lockPeriod st = Err EnforcedPause) /\
  (paused st = false -> _amount = 0 ->
   stake sender now _amount _lockPeriod st
   = Err (RequireFailed "can't stake zero")) /\
  (paused st = false -> 0 < _amount -> rate = 0 ->
   stake sender now _amount _lockPeriod st
   = Err (RequireFailed "invalid lock period")) /\
  (forall st', stake sender now _amount _lockPeriod st = Ok st' ->
     safeTransferFrom sender _amount (stakingToken st)
     = Some (stakingToken st') /\
     getStakeCount sender st' = index + 1 /\
     stake_at st' sender index
     = Ok (mkStake _amount now _lockPeriod rate 0 true false) /\
     (forall u i, (u, i) <> (sender, index) ->
                  stake_at st' u i = stake_at st u i) /\
     rewardPool st' = rewardPool st /\
     logs st' = logs st ++ [Staked sender index _amount _lockPeriod]) /\
  (paused st = false -> 0 < _amount -> 0 < rate ->
   forall tok,
     safeTransferFrom sender _amount (stakingToken st) = Some tok ->
     exists st', stake sender now _amount _lockPeriod st = Ok st' /\
                 stakingToken st' = tok).
Proof.
  cbv zeta. unfold stake, whenNotPaused.
  split; [by intros ->|].
  split; [by intros -> ->|].
  split.
  { intros -> Hpos Hrate. cbn [bind].
    destruct (N.ltb_spec 0 _amount); [|lia]. cbn [require bind].
    by rewrite Hrate. }
  split.
  - intros st' H. ok_steps. subst st'.
    match goal with
    | Hp : token_call (safeTransferFrom _ _ _) = Ok _ |- _ =>
        apply token_call_Ok in Hp; rename Hp into Htok
    end.
    split; [exact Htok|].
    set (fresh := mkStake _amount now _lockPeriod
                    (dailyRate_of st _lockPeriod) 0 true false).
    match goal with |- context [getStakeCount sender ?x = _] =>
      set (st' := x) end.
    assert (Hlist : forall u,
      stakes_of st' u
      = if decide (sender = u) then stakes_of st sender ++ [fresh]
        else stakes_of st u).
    { intros u. unfold st', stakes_of.
      cbn [stakes emit set_stakes set_stakingToken].
      rewrite lookup_insert. by destruct (decide (sender = u)). }
    assert (Hcount : getStakeCount sender st' = getStakeCount sender st + 1).
    { unfold getStakeCount. rewrite Hlist, decide_True by done.
      rewrite length_app. cbn. lia. }
    split; [exact Hcount|]. split.
    { apply stake_at_Ok. unfold getStakeCount. rewrite Nat2N.id.
      rewrite Hlist, decide_True by done.
      apply lookup_snoc_Some. right. done. }
    split.
    { intros u i Hneq. unfold stake_at. rewrite Hlist.
      destruct (decide (sender = u)) as [<-|]; [|done].
      assert (Hi : N.to_nat i <> length (stakes_of st sender)).
      { intros Hi. apply Hneq. f_equal. unfold getStakeCount.
        rewrite <- Hi. by rewrite N2Nat.id. }
      destruct (decide (N.to_nat i < length (stakes_of st sender))%nat).
      - by rewrite lookup_app_l.
      - rewrite !lookup_ge_None_2; [done|lia|rewrite length_app; cbn; lia]. }
    split; [reflexivity|].
    unfold st'. cbn [logs emit set_stakes set_stakingToken]. do 3 f_equal.
    fold fresh.
    match goal with |- N.of_nat (length ?l) - 1 = _ =>
      change l with (stakes_of st' sender) end.
    rewrite Hlist, decide_True by done.
    unfold getStakeCount. rewrite length_app. cbn. lia.
  - intros -> Hpos Hrate tok Htok. cbn [bind].
    destruct (N.ltb_spec 0 _amount); [|lia]. cbn [require bind].
    destruct (N.ltb_spec 0 (dailyRate_of st _lockPeriod)); [|lia].
    cbn [require bind]. rewrite Htok. cbn [token_call bind].
    rewrite checked_sub_fits.
    + eexists. split; reflexivity.
    + unfold stakes_of at 1. cbn [stakes set_stakes set_stakingToken].
      rewrite lookup_insert_eq. cbn [default id].
      rewrite length_app. cbn. lia.
Qed.

(** X9. [claimReward] on a record at a valid index: it reverts on a paused
    vault, on an inactive record ("inactive stake"), when nothing is
    claimable ("no accrued rewards") and when the claimable reward exceeds
    the pool ("insufficient reward pool"); otherwise, as soon as the token
    accepts the transfer, it pays exactly what [calculateReward] returns at
    that time, takes it out of the pool, adds it to [rewardsClaimed] and
    leaves amount and flags alone. *)
Theorem claimReward_pays_claimable st sender now index s :
  stake_at st sender index = Ok s ->
  (paused st = true -> claimReward sender now index st = Err EnforcedPause)
  /\
  (paused st = false -> active s = false ->
   claimReward sender now index st = Err (RequireFailed "inactive stake"))
  /\
  (paused st = false -> active s = true ->
   forall reward, calculateReward now sender index st = Ok reward ->
     (reward = 0 ->
      claimReward sender now index st
      = Err (RequireFailed "no accrued rewards")) /\
     (rewardPool st < reward ->
      claimReward sender now index st
      = Err (RequireFailed "insufficient reward pool")) /\
     (0 < reward -> reward <= rewardPool st ->
      forall tok,
        safeTransfer sender reward (stakingToken st) = Some tok ->
        exists st',
          claimReward sender now index st = Ok st' /\
          stakingToken st' = tok /\
          rewardPool st' = rewardPool st - reward /\
          stake_at st' sender index
          = Ok (set_rewardsClaimed (rewardsClaimed s + reward) s) /\
          logs st' = logs st ++ [ClaimedReward sender index reward])).
Proof.
  intros Hs. unfold claimReward, whenNotPaused. rewrite Hs. cbn [bind].
  split; [by intros ->|]. split; [by intros -> ->|].
  intros -> Ha reward Hcalc. rewrite Ha, Hcalc. cbn [require bind].
  split; [by intros ->|]. split.
  - intros Hpool. destruct (N.ltb_spec 0 reward); [|lia].
    cbn [require bind]. destruct (N.leb_spec reward (rewardPool st)); [lia|].
    reflexivity.
  - intros Hpos Hle tok Htok.
    destruct (N.ltb_spec 0 reward); [|lia]. cbn [require bind].
    destruct (N.leb_spec reward (rewardPool st)); [|lia]. cbn [require bind].
    destruct (calculateReward_Ok _ _ _ _ _ Hcalc) as (s0 & Hs0 & Hv).
    rewrite Hs in Hs0. injection Hs0 as <-.
    destruct Hv as [->|(_ & _ & _ & _ & (_ & _ & Hfit) & Htotal)]; [lia|].
    rewrite checked_add_fits.
    2: { unfold uint256 in *. rewrite Htotal. etransitivity; [|exact Hfit].
         apply N.Div0.div_le_upper_bound. unfold DIVISOR, ONE_DAY. nia. }
    cbn [bind]. rewrite checked_sub_fits by done. cbn [bind].
    cbn [stakingToken write_stake set_stakes set_rewardPool].
    rewrite Htok. cbn [token_call bind]. eexists. split; [reflexivity|].
    do 2 (split; [reflexivity|]). split; [|reflexivity].
    erewrite stake_at_same_stakes; [|reflexivity].
    eapply stake_at_write_stake, Hs.
Qed.

(** *** The accrual curve *)

(** What an active, unflagged record within its grace period has earned in
    total at [now]. *)
Lemma calculateReward_value now st user index s v :
  stake_at st user index = Ok s ->
  active s = true -> expired s = false ->
  now < startTime s + lockPeriod s + GRACE_PERIOD ->
  calculateReward now user index st = Ok v ->
  v = amount s * fixedRate s * N.min (now - startTime s) MAX_REWARD_TIME
      / (DIVISOR * ONE_DAY) - rewardsClaimed s /\
  startTime s <= now.
Proof.
  intros Hs Ha He Hlt H. unfold calculateReward in H.
  rewrite Hs in H. cbn [bind] in H. rewrite Ha, He in H. cbn [negb] in H.
  ok_steps.
  match goal with Hx : _isExpired _ _ = Ok _ |- _ =>
    apply _isExpired_Ok in Hx as [_ ->] end.
  destruct (N.leb_spec (startTime s + lockPeriod s + GRACE_PERIOD) now);
    [lia|].
  ok_steps. rewrite capped_elapsed in *.
  match type of H with (if ?c then _ else _) = _ => destruct c eqn:Hc end;
    ok_steps; subst v; split; try done.
  apply N.leb_le in Hc. lia.
Qed.

(** X10. The reward is capped at one day's worth.  For an active, unflagged
    record, from [startTime + MAX_REWARD_TIME] until the end of the grace
    period, [calculateReward] returns the same value at every instant:
    [maxReward] minus what was claimed (provided the checked products
    fit). *)
Theorem reward_is_capped_after_one_day st user index s now :
  stake_at st user index = Ok s ->
  active s = true ->
  expired s = false ->
  uint256 (startTime s + lockPeriod s + GRACE_PERIOD) ->
  uint256 (amount s * fixedRate s * MAX_REWARD_TIME) ->
  startTime s + MAX_REWARD_TIME <= now ->
  now < startTime s + lockPeriod s + GRACE_PERIOD ->
  maxReward user index st = Ok (amount s * fixedRate s / 100) /\
  calculateReward now user index st
  = Ok (amount s * fixedRate s / 100 - rewardsClaimed s).
Proof.
  intros Hs Ha He Hfit Hprod Hday Hlt.
  assert (Hmul : uint256 (amount s * fixedRate s)).
  { unfold uint256, MAX_REWARD_TIME in *. nia. }
  split.
  - unfold maxReward. rewrite Hs. cbn [bind].
    by rewrite checked_mul_fits.
  - unfold calculateReward. rewrite Hs. cbn [bind]. rewrite Ha, He.
    cbn [negb]. rewrite _isExpired_fits by done. cbn [bind].
    destruct (N.leb_spec (startTime s + lockPeriod s + GRACE_PERIOD) now);
      [lia|].
    rewrite checked_sub_fits by lia. cbn [bind]. rewrite capped_elapsed.
    rewrite N.min_r by lia.
    rewrite checked_mul_fits by done. cbn [bind].
    rewrite checked_mul_fits by done. cbn [bind].
    assert (Hcap : amount s * fixedRate s * MAX_REWARD_TIME
                   / (DIVISOR * ONE_DAY) = amount s * fixedRate s / 100).
    { unfold MAX_REWARD_TIME, DIVISOR, ONE_DAY.
      by rewrite N.Div0.div_mul_cancel_r by lia. }
    rewrite Hcap.
    destruct (N.leb_spec (amount s * fixedRate s / 100) (rewardsClaimed s));
      [|done].
    f_equal. lia.
Qed.

(** X11. Until the grace period ends the claimable reward of an untouched
    record never decreases with time: of two calls that return, the later
    one returns at least as much. *)
Theorem claimable_reward_grows_until_expiry st user index s now1 now2 v1 v2 :
  stake_at st user index = Ok s ->
  now1 <= now2 ->
  now2 < startTime s + lockPeriod s + GRACE_PERIOD ->
  calculateReward now1 user index st = Ok v1 ->
  calculateReward now2 user index st = Ok v2 ->
  v1 <= v2.
Proof.
  intros Hs Hle Hlt H1 H2.
  destruct (active s) eqn:Ha.
  2: { unfold calculateReward in H1. rewrite Hs in H1. cbn [bind] in H1.
       rewrite Ha in H1. injection H1 as <-. lia. }
  destruct (expired s) eqn:He.
  1: { unfold calculateReward in H1. rewrite Hs in H1. cbn [bind] in H1.
       rewrite Ha, He in H1. injection H1 as <-. lia. }
  destruct (calculateReward_value _ _ _ _ _ _ Hs Ha He Hlt H2) as [-> Hst2].
  assert (Hlt1 : now1 < startTime s + lockPeriod s + GRACE_PERIOD) by lia.
  destruct (calculateReward_value _ _ _ _ _ _ Hs Ha He Hlt1 H1) as [-> Hst1].
  apply N.sub_le_mono_r. apply N.Div0.div_le_mono.
  apply N.mul_le_mono_l. lia.
Qed.

(** *** The lock registry *)

(** X12. [setLockParameters] is for the owner only and rejects a zero
    duration.  When it succeeds, the registry reads back the new daily rate
    and penalty for that duration and what it read before for every other
    duration; and registering a daily rate of zero withdraws the duration
    from offer: every later [stake] with it reverts with "invalid lock
    period". *)
Theorem setLockParameters_registers st sender _lockPeriod _dailyRate
    _penaltyRate :
  (owner st <> sender ->
   setLockParameters sender _lockPeriod _dailyRate _penaltyRate st
   = Err (OwnableUnauthorizedAccount sender)) /\
  (owner st = sender -> _lockPeriod = 0 ->
   setLockParameters sender _lockPeriod _dailyRate _penaltyRate st
   = Err (RequireFailed "invalid lock period")) /\
  (owner st = sender -> 0 < _lockPeriod ->
   exists st',
     setLockParameters sender _lockPeriod _dailyRate _penaltyRate st = Ok st'
     /\
     dailyRate_of st' _lockPeriod = _dailyRate /\
     penalty_of st' _lockPeriod = _penaltyRate /\
     (forall l, l <> _lockPeriod ->
        dailyRate_of st' l = dailyRate_of st l /\
        penalty_of st' l = penalty_of st l) /\
     (_dailyRate = 0 -> paused st' = false ->
      forall who now _amount,
        0 < _amount ->
        stake who now _amount _lockPeriod st'
        = Err (RequireFailed "invalid lock period"))).
Proof.
  unfold setLockParameters. split.
  { intros Ho. by rewrite onlyOwner_Err. }
  assert (Hown : owner st = sender -> onlyOwner sender st = Ok tt)
    by (intros; by apply onlyOwner_Ok).
  split.
  { intros Ho ->. by rewrite Hown. }
  intros Ho Hpos. rewrite (Hown Ho). cbn [bind].
  destruct (N.ltb_spec 0 _lockPeriod); [|lia]. cbn [require bind].
  eexists. split; [reflexivity|].
  unfold dailyRate_of, penalty_of. cbn [dailyRateByLock penaltyByLock emit].
  rewrite !lookup_insert_eq. do 2 (split; [reflexivity|]). split.
  - intros l Hl. by rewrite !lookup_insert_ne.
  - intros -> Hp who now _amount Ha.
    unfold stake, whenNotPaused. rewrite Hp. cbn [bind].
    destruct (N.ltb_spec 0 _amount); [|lia]. cbn [require bind].
    unfold dailyRate_of. cbn [dailyRateByLock emit].
    rewrite lookup_insert_eq. reflexivity.
Qed.

(** *** Tombstoning *)

(** X13. [cleanUpExpiredStake] only flips the two flags: amount, claimed
    rewards, pool and token are as before.  From then on the record earns
    nothing at any time and cannot be claimed, but its principal is not
    lost: on an unpaused vault a later [unstake] by the account pays out
    exactly the stored amount, with no reward and no penalty, as soon as the
    token accepts the transfer. *)
Theorem cleanUp_then_unstake_returns_principal st sender now user index s
    st1 :
  stake_at st user index = Ok s ->
  cleanUpExpiredStake sender now user index st = Ok st1 ->
  stake_at st1 user index = Ok (set_expired true (set_active false s)) /\
  rewardPool st1 = rewardPool st /\
  stakingToken st1 = stakingToken st /\
  (forall t, calculateReward t user index st1 = Ok 0) /\
  (forall t, paused st1 = false ->
     claimReward user t index st1 = Err (RequireFailed "inactive stake")) /\
  (forall now' tok,
     paused st1 = false -> now <= now' ->
     uint256 (amount s) -> uint256 (rewardsClaimed s) ->
     safeTransfer user (amount s) (stakingToken st1) = Some tok ->
     exists st2,
       unstake user now' index st1 = Ok st2 /\
       stakingToken st2 = tok /\
       rewardPool st2 = rewardPool st1 /\
       stake_at st2 user index
       = Ok (set_active false (set_amount 0 (set_expired true s))) /\
       logs st2 = logs st1 ++ [UnstakeAfterLock user index (amount s) 0]).
Proof.
  intros Hs H. unfold cleanUpExpiredStake in H. ok_steps.
  match goal with Hx : stake_at st user index = Ok ?s0 |- _ =>
    rewrite Hs in Hx; injection Hx as <- end.
  match goal with Hx : _isExpired _ _ = Ok ?e, Hreq : ?e = true |- _ =>
    apply _isExpired_Ok in Hx as [Hfit He]; rewrite Hreq in He;
    symmetry in He; apply N.leb_le in He end.
  set (s1 := set_expired true (set_active false s)).
  assert (Hs1 : stake_at st1 user index = Ok s1).
  { subst st1. erewrite stake_at_same_stakes; [|reflexivity].
    eapply stake_at_write_stake, Hs. }
  assert (Hzero : forall t, calculateReward t user index st1 = Ok 0).
  { intros t. unfold calculateReward. by rewrite Hs1. }
  split; [exact Hs1|]. split; [by subst st1|]. split; [by subst st1|].
  split; [exact Hzero|]. split.
  { intros t Hp. unfold claimReward, whenNotPaused. by rewrite Hp, Hs1. }
  intros now' tok Hp Hle Hamt Hcl Htok.
  assert (Hflag' : flag_expired now' s1 = s1).
  { unfold flag_expired. by destruct (_ <=? _). }
  assert (Hflag : flag_expired_in user now' index s1 st1 = st1).
  { unfold flag_expired_in. destruct (_ <=? _); [|done].
    by apply write_stake_id. }
  eexists. split.
  - refine (unstake_after_lock_succeeds st1 user now' index s1 0 tok
              Hp Hs1 eq_refl Hfit _ _ _ _ _ _).
    + change (startTime s + lockPeriod s <= now'). lia.
    + rewrite Hflag. apply Hzero.
    + lia.
    + change (uint256 (rewardsClaimed s + 0)). by rewrite N.add_0_r.
    + change (uint256 (amount s + 0)). by rewrite N.add_0_r.
    + change (amount s1 + 0) with (amount s + 0). by rewrite N.add_0_r.
  - unfold unstaked_after_lock. rewrite Hflag, Hflag'.
    split; [reflexivity|]. split; [apply N.sub_0_r|].
    split; [|reflexivity].
    erewrite stake_at_same_stakes; [|reflexivity].
    replace (set_active false (set_amount 0 (set_expired true s)))
      with (set_active false (set_amount 0
              (set_rewardsClaimed (rewardsClaimed s1 + 0) s1))).
    2: { unfold s1. destruct s; cbn. by rewrite N.add_0_r. }
    eapply stake_at_write_stake.
    erewrite stake_at_same_stakes; [exact Hs1|reflexivity].
Qed.
End VaultLifecycle.

(** * The dashboard against the vault *)

Section DashboardFacts.

Context {T : Type} `{Token : !IERC20 T}.
Implicit Types (st : @YieldCore T) (s : StakeInfo).

Lemma frontend_total_earned (a r e : N) :
  ((Z.of_N a * Z.of_N r
    * (if Z.of_N e >? Frontend.MAX_REWARD_TIME then Frontend.MAX_REWARD_TIME
       else Z.of_N e))
   ÷ (Frontend.DIVISOR * Frontend.SECONDS_PER_DAY))%Z
  = Z.of_N (a * r * N.min e MAX_REWARD_TIME / (DIVISOR * ONE_DAY)).
Proof.
  rewrite N2Z.inj_quot, !N2Z.inj_mul, N2Z.inj_min.
  change (Z.of_N MAX_REWARD_TIME) with Frontend.MAX_REWARD_TIME.
  change (Z.of_N DIVISOR) with Frontend.DIVISOR.
  change (Z.of_N ONE_DAY) with Frontend.SECONDS_PER_DAY.
  f_equal. f_equal.
  destruct (Z.gtb_spec (Z.of_N e) Frontend.MAX_REWARD_TIME); lia.
Qed.

Lemma frontend_elapsed i n s (now : N) :
  startTime s <= now ->
  Frontend.elapsed (stake_data i n s) (Z.of_N now)
  = Z.of_N (now - startTime s).
Proof.
  intros H. unfold Frontend.elapsed, stake_data. cbn.
  destruct (Z.gtb_spec (Z.of_N now - Z.of_N (startTime s)) 0); lia.
Qed.

Lemma frontend_isExpired i n s (now : N) :
  Frontend.isExpired (stake_data i n s) (Z.of_N now)
  = (startTime s + lockPeriod s + GRACE_PERIOD <? now).
Proof.
  unfold Frontend.isExpired, Frontend.isStakeExpired, stake_data.
  cbn [Frontend.startTime Frontend.lockPeriod].
  change Frontend.GRACE_PERIOD with (Z.of_N GRACE_PERIOD).
  destruct (Z.gtb_spec (Z.of_N now)
              (Z.of_N (startTime s) + Z.of_N (lockPeriod s)
               + Z.of_N GRACE_PERIOD)),
    (N.ltb_spec (startTime s + lockPeriod s + GRACE_PERIOD) now); lia.
Qed.

(** The card's claimable reward, for a clock not before the start. *)
Lemma frontend_claimable i n s (now : N) :
  startTime s <= now ->
  Frontend.claimableReward (stake_data i n s) (Z.of_N now)
  = Z.of_N (amount s * fixedRate s
            * N.min (now - startTime s) MAX_REWARD_TIME
            / (DIVISOR * ONE_DAY) - rewardsClaimed s).
Proof.
  intros Hst.
  unfold Frontend.claimableReward, Frontend.calculateClaimableReward.
  rewrite frontend_elapsed by done.
  cbn [Frontend.amount Frontend.fixedRate Frontend.rewardsClaimed stake_data].
  rewrite frontend_total_earned.
  set (total := amount s * fixedRate s
                * N.min (now - startTime s) MAX_REWARD_TIME
                / (DIVISOR * ONE_DAY)).
  destruct (Z.leb_spec (Z.of_N total) (Z.of_N (rewardsClaimed s))); lia.
Qed.


(** X17. The last second of the grace period.  The vault treats
    [now = startTime + lockPeriod + GRACE_PERIOD] as expired, the dashboard
    only what comes after it.  So at exactly that time, for an active record
    with rewards left to claim, the card is not marked expired and its claim
    button is enabled, while the vault computes a reward of 0 and a
    [claimReward] reverts with "no accrued rewards". *)
Theorem dashboard_offers_claim_at_grace_end st user index s i n :
  let now := startTime s + lockPeriod s + GRACE_PERIOD in
  stake_at st user index = Ok s ->
  active s = true ->
  expired s = false ->
  uint256 now ->
  rewardsClaimed s < amount s * fixedRate s / 100 ->
  Frontend.isExpired (stake_data i n s) (Z.of_N now) = false /\
  Frontend.canClaim (stake_data i n s) (Z.of_N now) false = true /\
  _isExpired now s = Ok true /\
  calculateReward now user index st = Ok 0 /\
  (paused st = false ->
   claimReward user now index st = Err (RequireFailed "no accrued rewards")).
Proof.
  intros now Hs Ha He Hfit Hleft.
  assert (Hexp : _isExpired now s = Ok true).
  { rewrite _isExpired_fits by done. fold now. by rewrite N.leb_refl. }
  assert (Hzero : calculateReward now user index st = Ok 0).
  { unfold calculateReward. rewrite Hs. cbn [bind]. rewrite Ha, He.
    cbn [negb]. by rewrite Hexp. }
  assert (Hfe : Frontend.isExpired (stake_data i n s) (Z.of_N now) = false).
  { rewrite frontend_isExpired. apply N.ltb_irrefl. }
  split; [exact Hfe|]. split.
  - unfold Frontend.canClaim. rewrite Hfe. cbn [negb andb].
    rewrite andb_true_r.
    rewrite frontend_claimable by (unfold now; lia).
    rewrite N.min_r by (unfold now, GRACE_PERIOD, MAX_REWARD_TIME; lia).
    assert (Hcap : amount s * fixedRate s * MAX_REWARD_TIME
                   / (DIVISOR * ONE_DAY) = amount s * fixedRate s / 100).
    { unfold MAX_REWARD_TIME, DIVISOR, ONE_DAY.
      by rewrite N.Div0.div_mul_cancel_r by lia. }
    rewrite Hcap. apply Z.gtb_lt. lia.
  - split; [exact Hexp|]. split; [exact Hzero|].
    intros Hp. unfold claimReward, whenNotPaused.
    rewrite Hp, Hs. cbn [bind]. rewrite Ha. cbn [require bind].
    by rewrite Hzero.
Qed.

(** X18. Away from that second the claim button is right.  For an active,
    unflagged record, on the right network and at any time other than
    [startTime + lockPeriod + GRACE_PERIOD], the dashboard enables the claim
    exactly when the vault computes a positive reward. *)
Theorem dashboard_canClaim_matches_chain st user index s now v i n :
  stake_at st user index = Ok s ->
  active s = true ->
  expired s = false ->
  now <> startTime s + lockPeriod s + GRACE_PERIOD ->
  calculateReward now user index st = Ok v ->
  Frontend.canClaim (stake_data i n s) (Z.of_N now) false = true <-> 0 < v.
Proof.
  intros Hs Ha He Hne Hv. unfold Frontend.canClaim.
  rewrite andb_true_r, frontend_isExpired.
  destruct (N.ltb_spec (startTime s + lockPeriod s + GRACE_PERIOD) now)
    as [Hgt|Hle]; cbn [negb andb].
  - destruct (calculateReward_Ok _ _ _ _ _ Hv) as (s0 & Hs0 & Hcase).
    rewrite Hs in Hs0. injection Hs0 as <-.
    destruct Hcase as [->|(_ & _ & _ & Hlt & _)]; [|lia].
    split; [discriminate|lia].
  - assert (Hlt : now < startTime s + lockPeriod s + GRACE_PERIOD) by lia.
    destruct (calculateReward_value _ _ _ _ _ _ Hs Ha He Hlt Hv) as [-> Hst].
    rewrite frontend_claimable by done. rewrite <- Zgt_is_gt_bool. lia.
Qed.


(** *** The list of cards *)



End DashboardFacts.


(** * Accounting, life cycle and dashboard on the example vault *)

(** The example token is a plain ERC-20. *)
#[export] Instance ledger_lawful : @LawfulToken N ledger.
Proof.
  split.
  - intros from v t t' H. cbn in *. by injection H as <-.
  - intros to v t t' H. cbn in *.
    destruct (N.leb_spec v t); [|discriminate].
    injection H as <-. done.
Qed.

Lemma rewardPool_accounts_for_log_witness :
  reachable 86400 withdrawn /\
  rewardPool withdrawn + sum_events pool_debit (logs withdrawn)
  = sum_events pool_credit (logs withdrawn) /\
  sum_events pool_debit (logs withdrawn)
  <= sum_events pool_credit (logs withdrawn).
Proof.
  assert (Hr : reachable 86400 withdrawn)
    by (apply (run_reachable txs_withdrawn); by_eval).
  split; [exact Hr|].
  exact (rewardPool_accounts_for_log 86400 withdrawn Hr).
Defined.



Lemma principal_stranded_after_excess_withdrawal_witness :
  withdrawExcessRewards deployer unfunded_paused = Ok drained /\
  stake_at drained alice 0 = Ok fresh_stake /\
  active fresh_stake = true /\
  rewardPool drained < amount fresh_stake /\
  emergencyWithdraw alice 0 drained = Err SafeERC20FailedOperation.
Proof.
  assert (Hw : withdrawExcessRewards deployer unfunded_paused = Ok drained)
    by by_eval.
  assert (Hs : stake_at drained alice 0 = Ok fresh_stake) by by_eval.
  assert (Ha : active fresh_stake = true) by by_eval.
  assert (Hlt : rewardPool drained < amount fresh_stake) by by_eval.
  split; [exact Hw|]. split; [exact Hs|]. split; [exact Ha|].
  split; [exact Hlt|].
  exact (principal_stranded_after_excess_withdrawal deployer unfunded_paused
           drained alice 0 fresh_stake Hw Hs Ha Hlt).
Defined.

Lemma other_accounts_stakes_untouched_witness :
  alice <> deployer /\
  Forall2 (untouched_or_tombstoned (N.eqb (owner staked) deployer))
    (stakes_of staked alice)
    (stakes_of (transact deployer 173400 (CleanUpExpiredStake alice 0) staked)
       alice).
Proof.
  assert (Hne : alice <> deployer) by by_eval.
  split; [exact Hne|].
  exact (other_accounts_stakes_untouched deployer 173400
           (CleanUpExpiredStake alice 0) staked alice Hne).
Defined.

Lemma only_owner_changes_configuration_witness :
  owner staked <> alice /\
  (let st' := transact alice 0 Pause staked in
   dailyRateByLock st' = dailyRateByLock staked /\
   penaltyByLock st' = penaltyByLock staked /\
   paused st' = paused staked /\
   owner st' = owner staked).
Proof.
  assert (Hne : owner staked <> alice) by by_eval.
  split; [exact Hne|].
  exact (only_owner_changes_configuration alice 0 Pause staked Hne).
Defined.

Lemma paused_vault_pays_no_reward_witness :
  paused paused_vault = true /\
  (let st' := transact alice 43200 (ClaimReward 0) paused_vault in
   rewardPool st' = rewardPool paused_vault /\
   forall u,
     Forall2
       (fun s s' =>
          rewardsClaimed s' = rewardsClaimed s /\
          (s' = s \/
           (active s = true /\ u = alice /\
            s' = set_active false (set_amount 0 s)) \/
           (active s = true /\ alice = owner paused_vault /\
            s' = set_expired true (set_active false s))))
       (stakes_of paused_vault u) (stakes_of st' u)).
Proof.
  assert (Hp : paused paused_vault = true) by by_eval.
  split; [exact Hp|].
  exact (paused_vault_pays_no_reward alice 43200 (ClaimReward 0)
           paused_vault Hp).
Defined.

Lemma stake_records_are_append_only_witness :
  future 0 staked 86400 (run txs_claims_then_unstake staked) /\
  stake_at staked alice 0 = Ok fresh_stake /\
  getStakeCount alice staked
  <= getStakeCount alice (run txs_claims_then_unstake staked) /\
  exists s',
    stake_at (run txs_claims_then_unstake staked) alice 0 = Ok s' /\
    startTime s' = startTime fresh_stake /\
    lockPeriod s' = lockPeriod fresh_stake /\
    fixedRate s' = fixedRate fresh_stake /\
    rewardsClaimed fresh_stake <= rewardsClaimed s' /\
    (amount s' = amount fresh_stake \/ amount s' = 0) /\
    (active s' = true ->
     active fresh_stake = true /\ amount s' = amount fresh_stake) /\
    (expired fresh_stake = true -> expired s' = true).
Proof.
  assert (Hf : future 0 staked 86400 (run txs_claims_then_unstake staked))
    by (apply run_future; by_eval).
  assert (Hs : stake_at staked alice 0 = Ok fresh_stake) by by_eval.
  split; [exact Hf|]. split; [exact Hs|].
  exact (stake_records_are_append_only 0 staked 86400
           (run txs_claims_then_unstake staked) alice 0 fresh_stake Hf Hs).
Defined.

Lemma withdrawn_record_is_final_witness :
  future 86400 withdrawn 200000
    (transact deployer 200000 (CleanUpExpiredStake alice 0) withdrawn) /\
  stake_at withdrawn alice 0 = Ok withdrawn_stake /\
  active withdrawn_stake = false /\
  expired withdrawn_stake = false /\
  stake_at (transact deployer 200000 (CleanUpExpiredStake alice 0) withdrawn)
    alice 0
  = Ok withdrawn_stake.
Proof.
  assert (Hle : 86400 <= 200000) by by_eval.
  assert (Hf : future 86400 withdrawn 200000
                 (transact deployer 200000 (CleanUpExpiredStake alice 0)
                    withdrawn))
    by exact (future_transact 86400 withdrawn 86400 withdrawn deployer 200000
                (CleanUpExpiredStake alice 0)
                (future_now 86400 withdrawn) Hle).
  assert (Hs : stake_at withdrawn alice 0 = Ok withdrawn_stake) by by_eval.
  assert (Ha : active withdrawn_stake = false) by by_eval.
  assert (He : expired withdrawn_stake = false) by by_eval.
  split; [exact Hf|]. split; [exact Hs|]. split; [exact Ha|].
  split; [exact He|].
  exact (withdrawn_record_is_final 86400 withdrawn 200000 _ alice 0
           withdrawn_stake Hf Hs Ha He).
Defined.

Lemma stake_appends_record_witness :
  paused staked = false /\
  0 < 50 /\
  0 < dailyRate_of staked 600 /\
  safeTransferFrom alice 50 (stakingToken staked) = Some 1150 /\
  exists st', stake alice 100 50 600 staked = Ok st' /\
              stakingToken st' = 1150.
Proof.
  assert (Hp : paused staked = false) by by_eval.
  assert (Ha : 0 < 50) by by_eval.
  assert (Hr : 0 < dailyRate_of staked 600) by by_eval.
  assert (Ht : safeTransferFrom alice 50 (stakingToken staked) = Some 1150)
    by by_eval.
  split; [exact Hp|]. split; [exact Ha|]. split; [exact Hr|].
  split; [exact Ht|].
  exact (proj2 (proj2 (proj2 (proj2
           (stake_appends_record staked alice 100 50 600))))
           Hp Ha Hr 1150 Ht).
Defined.

Lemma claimReward_pays_claimable_witness :
  stake_at staked alice 0 = Ok fresh_stake /\
  paused staked = false /\
  active fresh_stake = true /\
  calculateReward 43200 alice 0 staked = Ok 5 /\
  safeTransfer alice 5 (stakingToken staked) = Some 1095 /\
  exists st',
    claimReward alice 43200 0 staked = Ok st' /\
    stakingToken st' = 1095 /\
    rewardPool st' = rewardPool staked - 5 /\
    stake_at st' alice 0
    = Ok (set_rewardsClaimed (rewardsClaimed fresh_stake + 5) fresh_stake) /\
    logs st' = logs staked ++ [ClaimedReward alice 0 5].
Proof.
  assert (Hs : stake_at staked alice 0 = Ok fresh_stake) by by_eval.
  assert (Hp : paused staked = false) by by_eval.
  assert (Ha : active fresh_stake = true) by by_eval.
  assert (Hc : calculateReward 43200 alice 0 staked = Ok 5) by by_eval.
  assert (Ht : safeTransfer alice 5 (stakingToken staked) = Some 1095)
    by by_eval.
  assert (Hpos : 0 < 5) by by_eval.
  assert (Hle : 5 <= rewardPool staked) by by_eval.
  split; [exact Hs|]. split; [exact Hp|]. split; [exact Ha|].
  split; [exact Hc|]. split; [exact Ht|].
  exact (proj2 (proj2
           (proj2 (proj2
              (claimReward_pays_claimable staked alice 43200 0 fresh_stake
                 Hs))
              Hp Ha 5 Hc))
           Hpos Hle 1095 Ht).
Defined.

Lemma reward_is_capped_after_one_day_witness :
  stake_at staked alice 0 = Ok fresh_stake /\
  active fresh_stake = true /\
  expired fresh_stake = false /\
  uint256 (startTime fresh_stake + lockPeriod fresh_stake + GRACE_PERIOD) /\
  uint256 (amount fresh_stake * fixedRate fresh_stake * MAX_REWARD_TIME) /\
  startTime fresh_stake + MAX_REWARD_TIME <= 100000 /\
  100000 < startTime fresh_stake + lockPeriod fresh_stake + GRACE_PERIOD /\
  maxReward alice 0 staked
  = Ok (amount fresh_stake * fixedRate fresh_stake / 100) /\
  calculateReward 100000 alice 0 staked
  = Ok (amount fresh_stake * fixedRate fresh_stake / 100
        - rewardsClaimed fresh_stake).
Proof.
  assert (Hs : stake_at staked alice 0 = Ok fresh_stake) by by_eval.
  assert (Ha : active fresh_stake = true) by by_eval.
  assert (He : expired fresh_stake = false) by by_eval.
  assert (H1 : uint256 (startTime fresh_stake + lockPeriod fresh_stake
                        + GRACE_PERIOD)) by by_eval.
  assert (H2 : uint256 (amount fresh_stake * fixedRate fresh_stake
                        * MAX_REWARD_TIME)) by by_eval.
  assert (H3 : startTime fresh_stake + MAX_REWARD_TIME <= 100000) by by_eval.
  assert (H4 : 100000 < startTime fresh_stake + lockPeriod fresh_stake
                        + GRACE_PERIOD) by by_eval.
  split; [exact Hs|]. split; [exact Ha|]. split; [exact He|].
  split; [exact H1|]. split; [exact H2|]. split; [exact H3|].
  split; [exact H4|].
  exact (reward_is_capped_after_one_day staked alice 0 fresh_stake 100000
           Hs Ha He H1 H2 H3 H4).
Defined.

Lemma claimable_reward_grows_until_expiry_witness :
  stake_at staked alice 0 = Ok fresh_stake /\
  43200 <= 86400 /\
  86400 < startTime fresh_stake + lockPeriod fresh_stake + GRACE_PERIOD /\
  calculateReward 43200 alice 0 staked = Ok 5 /\
  calculateReward 86400 alice 0 staked = Ok 10 /\
  5 <= 10.
Proof.
  assert (Hs : stake_at staked alice 0 = Ok fresh_stake) by by_eval.
  assert (Hle : 43200 <= 86400) by by_eval.
  assert (Hlt : 86400 < startTime fresh_stake + lockPeriod fresh_stake
                        + GRACE_PERIOD) by by_eval.
  assert (H1 : calculateReward 43200 alice 0 staked = Ok 5) by by_eval.
  assert (H2 : calculateReward 86400 alice 0 staked = Ok 10) by by_eval.
  split; [exact Hs|]. split; [exact Hle|]. split; [exact Hlt|].
  split; [exact H1|]. split; [exact H2|].
  exact (claimable_reward_grows_until_expiry staked alice 0 fresh_stake
           43200 86400 5 10 Hs Hle Hlt H1 H2).
Defined.

Lemma setLockParameters_registers_witness :
  owner staked = deployer /\
  0 < 600 /\
  exists st',
    setLockParameters deployer 600 0 10 staked = Ok st' /\
    dailyRate_of st' 600 = 0 /\
    penalty_of st' 600 = 10 /\
    (forall l, l <> 600 ->
       dailyRate_of st' l = dailyRate_of staked l /\
       penalty_of st' l = penalty_of staked l) /\
    (0 = 0 -> paused st' = false ->
     forall who now _amount,
       0 < _amount ->
       stake who now _amount 600 st'
       = Err (RequireFailed "invalid lock period")).
Proof.
  assert (Ho : owner staked = deployer) by by_eval.
  assert (Hl : 0 < 600) by by_eval.
  split; [exact Ho|]. split; [exact Hl|].
  exact (proj2 (proj2 (setLockParameters_registers staked deployer 600 0 10))
           Ho Hl).
Defined.

Lemma cleanUp_then_unstake_returns_principal_witness :
  stake_at staked alice 0 = Ok fresh_stake /\
  cleanUpExpiredStake deployer 173400 alice 0 staked = Ok tombstoned /\
  stake_at tombstoned alice 0
  = Ok (set_expired true (set_active false fresh_stake)) /\
  rewardPool tombstoned = rewardPool staked /\
  stakingToken tombstoned = stakingToken staked /\
  (forall t, calculateReward t alice 0 tombstoned = Ok 0) /\
  (forall t, paused tombstoned = false ->
     claimReward alice t 0 tombstoned
     = Err (RequireFailed "inactive stake")) /\
  (forall now' tok,
     paused tombstoned = false -> 173400 <= now' ->
     uint256 (amount fresh_stake) -> uint256 (rewardsClaimed fresh_stake) ->
     safeTransfer alice (amount fresh_stake) (stakingToken tombstoned)
     = Some tok ->
     exists st2,
       unstake alice now' 0 tombstoned = Ok st2 /\
       stakingToken st2 = tok /\
       rewardPool st2 = rewardPool tombstoned /\
       stake_at st2 alice 0
       = Ok (set_active false (set_amount 0 (set_expired true fresh_stake)))
       /\
       logs st2
       = logs tombstoned
         ++ [UnstakeAfterLock alice 0 (amount fresh_stake) 0]).
Proof.
  assert (Hs : stake_at staked alice 0 = Ok fresh_stake) by by_eval.
  assert (Hc : cleanUpExpiredStake deployer 173400 alice 0 staked
               = Ok tombstoned) by by_eval.
  split; [exact Hs|]. split; [exact Hc|].
  exact (cleanUp_then_unstake_returns_principal staked deployer 173400 alice
           0 fresh_stake tombstoned Hs Hc).
Defined.


Lemma dashboard_offers_claim_at_grace_end_witness :
  stake_at staked alice 0 = Ok fresh_stake /\
  active fresh_stake = true /\
  expired fresh_stake = false /\
  uint256 173400 /\
  rewardsClaimed fresh_stake
  < amount fresh_stake * fixedRate fresh_stake / 100 /\
  Frontend.isExpired (stake_data 0 1 fresh_stake) (Z.of_N 173400) = false /\
  Frontend.canClaim (stake_data 0 1 fresh_stake) (Z.of_N 173400) false
  = true /\
  _isExpired 173400 fresh_stake = Ok true /\
  calculateReward 173400 alice 0 staked = Ok 0 /\
  (paused staked = false ->
   claimReward alice 173400 0 staked
   = Err (RequireFailed "no accrued rewards")).
Proof.
  assert (Hs : stake_at staked alice 0 = Ok fresh_stake) by by_eval.
  assert (Ha : active fresh_stake = true) by by_eval.
  assert (He : expired fresh_stake = false) by by_eval.
  assert (Hu : uint256 173400) by by_eval.
  assert (Hlt : rewardsClaimed fresh_stake
                < amount fresh_stake * fixedRate fresh_stake / 100)
    by by_eval.
  split; [exact Hs|]. split; [exact Ha|]. split; [exact He|].
  split; [exact Hu|]. split; [exact Hlt|].
  exact (dashboard_offers_claim_at_grace_end staked alice 0 fresh_stake
           0%nat 1%nat Hs Ha He Hu Hlt).
Defined.

Lemma dashboard_canClaim_matches_chain_witness :
  stake_at staked alice 0 = Ok fresh_stake /\
  active fresh_stake = true /\
  expired fresh_stake = false /\
  43200 <> startTime fresh_stake + lockPeriod fresh_stake + GRACE_PERIOD /\
  calculateReward 43200 alice 0 staked = Ok 5 /\
  (Frontend.canClaim (stake_data 0 1 fresh_stake) (Z.of_N 43200) false
   = true <-> 0 < 5).
Proof.
  assert (Hs : stake_at staked alice 0 = Ok fresh_stake) by by_eval.
  assert (Ha : active fresh_stake = true) by by_eval.
  assert (He : expired fresh_stake = false) by by_eval.
  assert (Hne : 43200 <> startTime fresh_stake + lockPeriod fresh_stake
                         + GRACE_PERIOD) by by_eval.
  assert (Hc : calculateReward 43200 alice 0 staked = Ok 5) by by_eval.
  split; [exact Hs|]. split; [exact Ha|]. split; [exact He|].
  split; [exact Hne|]. split; [exact Hc|].
  exact (dashboard_canClaim_matches_chain staked alice 0 fresh_stake 43200 5
           0%nat 1%nat Hs Ha He Hne Hc).
Defined.



(** * Solvency *)

Section VaultSolvency.

Context {T : Type} `{Token : !IERC20 T} `{Lawful : !LawfulToken}.
Implicit Types (st : @YieldCore T) (s : StakeInfo).

Lemma no_excess_out (l : list event) :
  (forall who a, ExcessRewardsWithdrawn who a ∉ l) ->
  sum_events excess_out l = 0.
Proof.
  induction l as [|e l IH]; intros H; [reflexivity|].
  change (sum_events excess_out (e :: l))
    with (excess_out e + sum_events excess_out l).
  rewrite IH.
  - destruct e; cbn; try lia.
    exfalso. eapply H. apply list_elem_of_here.
  - intros who a Hin. eapply H. apply list_elem_of_further, Hin.
Qed.

Lemma principal_of_account st u :
  principal_of (stakes_of st u) <= total_principal st.
Proof.
  pose proof (map_fold_principal_insert (stakes st) u []) as H.
  unfold total_principal, stakes_of. cbn in H. lia.
Qed.

Lemma amount_le_principal_of (l : list StakeInfo) i s :
  l !! i = Some s -> amount s <= principal_of l.
Proof.
  intros H.
  pose proof (principal_of_insert l i s (set_amount 0 s) H) as Hi.
  cbn in Hi. lia.
Qed.

(** X20. Solvent until the owner withdraws.  With a plain ERC-20, as long
    as the log shows no [ExcessRewardsWithdrawn], the vault's balance covers
    the reward pool and, on top of it, the whole principal recorded for any
    account; in particular the amount of every single record.  So no
    payout the vault computes can fail for lack of tokens before the first
    such withdrawal. *)
Theorem vault_solvent_before_excess_withdrawal deployer tok0 now0 now st u :
  future now0 (deployed deployer tok0) now st ->
  (forall who a, ExcessRewardsWithdrawn who a ∉ logs st) ->
  rewardPool st + principal_of (stakes_of st u)
  <= balanceOf (stakingToken st) /\
  forall index s,
    stake_at st u index = Ok s ->
    rewardPool st + amount s <= balanceOf (stakingToken st).
Proof.
  intros Hfut Hlog.
  pose proof (future_balance _ _ _ _ Hfut) as Hacc.
  cbn in Hacc. unfold total_principal at 1 in Hacc. cbn in Hacc.
  rewrite map_fold_empty, (no_excess_out _ Hlog) in Hacc.
  pose proof (principal_of_account st u) as Hu.
  split; [lia|].
  intros index s Hs%stake_at_Ok.
  pose proof (amount_le_principal_of _ _ _ Hs). lia.
Qed.

End VaultSolvency.

(** * The card's lock badge *)

Section DashboardLock.

Context {T : Type} `{Token : !IERC20 T}.
Implicit Types (st : @YieldCore T) (s : StakeInfo).

Lemma frontend_isUnlocked i n s (now : N) :
  Frontend.isUnlocked (stake_data i n s) (Z.of_N now)
  = (startTime s + lockPeriod s <=? now).
Proof.
  unfold Frontend.isUnlocked, Frontend.isStakeUnlocked, stake_data.
  cbn [Frontend.startTime Frontend.lockPeriod].
  rewrite Z.geb_leb.
  destruct (Z.leb_spec (Z.of_N (startTime s) + Z.of_N (lockPeriod s))
              (Z.of_N now)),
    (N.leb_spec (startTime s + lockPeriod s) now); lia.
Qed.

Lemma frontend_timeUntilUnlock i n s (now : N) :
  Frontend.timeUntilUnlock (stake_data i n s) (Z.of_N now)
  = Z.of_N (startTime s + lockPeriod s - now).
Proof.
  unfold Frontend.timeUntilUnlock, stake_data.
  cbn [Frontend.startTime Frontend.lockPeriod]. cbv zeta.
  rewrite Z.geb_leb.
  destruct (Z.leb_spec (Z.of_N (startTime s) + Z.of_N (lockPeriod s))
              (Z.of_N now)); lia.
Qed.

(** X21. The lock badge tells which way [unstake] goes.  For a record of
    the connected account and a vault time equal to the browser's: when the
    card shows the stake unlocked (countdown at 0), every successful
    [unstake] is the penalty-free one and logs [UnstakeAfterLock] with the
    full principal; when it shows it locked, every successful [unstake] is
    the early one and logs [EarlyUnstake] with the penalty registered for
    the lock period, and the countdown is exactly the time left until the
    vault stops charging it. *)
Theorem dashboard_lock_badge_matches_unstake st sender now index s st' i n :
  stake_at st sender index = Ok s ->
  unstake sender now index st = Ok st' ->
  if Frontend.isUnlocked (stake_data i n s) (Z.of_N now)
  then
    Frontend.timeUntilUnlock (stake_data i n s) (Z.of_N now) = 0%Z /\
    exists reward,
      logs st'
      = logs st ++ [UnstakeAfterLock sender index (amount s) reward]
  else
    (0 < Frontend.timeUntilUnlock (stake_data i n s) (Z.of_N now))%Z /\
    (Z.of_N now + Frontend.timeUntilUnlock (stake_data i n s) (Z.of_N now)
     = Z.of_N (startTime s + lockPeriod s))%Z /\
    logs st'
    = logs st
      ++ [EarlyUnstake sender index (amount s)
            (amount s * penalty_of st (lockPeriod s) / DIVISOR)].
Proof.
  intros Hs H.
  apply unstake_Ok in H as (s0 & _ & Hs0 & _ & _ & H).
  rewrite Hs in Hs0. injection Hs0 as <-.
  rewrite frontend_isUnlocked, frontend_timeUntilUnlock.
  destruct H as [(Hle & reward & tok & _ & _ & _ & _ & _ & ->)
                |(Hlt & tok & _ & _ & _ & _ & ->)].
  - rewrite (proj2 (N.leb_le _ _) Hle). split; [lia|].
    exists reward. unfold unstaked_after_lock, flag_expired_in.
    destruct (startTime s + lockPeriod s + GRACE_PERIOD <=? now);
      reflexivity.
  - rewrite (proj2 (N.leb_gt _ _) Hlt).
    split; [lia|]. split; [lia|]. reflexivity.
Qed.

End DashboardLock.


(** * The activity log *)

Section ActivityLogFacts.

Import ActivityLog.

Lemma sort_insert_perm {A} (cmp : A -> A -> Z) a l :
  sort_insert cmp a l ≡ₚ a :: l.
Proof.
  induction l as [|b l IH]; [done|]. cbn.
  destruct (cmp a b <=? 0)%Z; [done|].
  rewrite IH. apply Permutation_swap.
Qed.

Lemma sort_perm {A} (cmp : A -> A -> Z) l : sort cmp l ≡ₚ l.
Proof.
  induction l as [|a l IH]; [done|]. cbn.
  rewrite sort_insert_perm. by rewrite IH.
Qed.

Lemma sort_insert_sorted a l :
  StronglySorted newer_or_equal l ->
  StronglySorted newer_or_equal (sort_insert newest_first a l).
Proof.
  induction l as [|b l IH]; intros Hl.
  - cbn. apply StronglySorted_cons. split; [constructor|exact Hl].
  - apply StronglySorted_cons in Hl as [Hb Hl]. cbn.
    unfold newest_first at 1.
    destruct (Z.leb_spec (timestamp b - timestamp a) 0) as [Hle|Hgt].
    + apply StronglySorted_cons. split.
      * constructor; [unfold newer_or_equal; lia|].
        eapply Forall_impl; [exact Hb|]. unfold newer_or_equal. cbn.
        intros c Hc. lia.
      * apply StronglySorted_cons. done.
    + apply StronglySorted_cons. split; [|by apply IH].
      rewrite sort_insert_perm. constructor; [|done].
      unfold newer_or_equal. lia.
Qed.

Lemma sort_sorted l : StronglySorted newer_or_equal (sort newest_first l).
Proof.
  induction l as [|a l IH]; [constructor|]. cbn. by apply sort_insert_sorted.
Qed.

Lemma take_sorted n l :
  StronglySorted newer_or_equal l ->
  StronglySorted newer_or_equal (take n l).
Proof.
  revert n. induction l as [|a l IH]; intros [|n] Hl; cbn;
    try constructor.
  - apply IH. by apply StronglySorted_cons in Hl as [_ ?].
  - apply Forall_take. by apply StronglySorted_cons in Hl as [? _].
Qed.

Lemma shown_inv (seen : gset string) l :
  NoDup (id <$> l) ->
  (forall a, a ∈ l -> id a ∈ seen) ->
  log_inv (mkHook seen (take MAX_ENTRIES (sort newest_first l))).
Proof.
  intros Hnd Hseen. unfold log_inv. cbn [activities processedTxs].
  split; [rewrite length_take; lia|].
  split; [apply take_sorted, sort_sorted|].
  split.
  - rewrite fmap_take. eapply sublist_NoDup; [|apply sublist_take].
    by rewrite sort_perm.
  - intros a Ha%subseteq_take. apply Hseen.
    by rewrite <- (sort_perm newest_first).
Qed.

Lemma seen_history (entries : list ActivityEntry) :
  forall (seen : gset string) x,
  x ∈ foldl (fun seen e => {[ id e ]} ∪ seen) seen entries
  <-> x ∈ seen \/ x ∈ id <$> entries.
Proof.
  induction entries as [|e l IH]; intros seen x; cbn.
  - rewrite elem_of_nil. tauto.
  - rewrite IH, elem_of_cons, elem_of_union, elem_of_singleton. tauto.
Qed.

Lemma existsb_id x (l : list ActivityEntry) :
  existsb (fun a => String.eqb (id a) x) l = true <-> x ∈ id <$> l.
Proof.
  induction l as [|a l IH]; cbn.
  - rewrite elem_of_nil. split; [discriminate|tauto].
  - rewrite orb_true_iff, IH, elem_of_cons, String.eqb_eq.
    split; intros [?|?]; auto.
Qed.

Lemma apply_update_inv h u :
  distinct_history u -> log_inv h -> log_inv (apply_update h u).
Proof.
  intros Hu (Hlen & Hsorted & Hnd & Hseen). destruct u as [e| |entries]; cbn.
  - unfold addActivity. destruct (decide _) as [Hin|Hnew]; [done|].
    destruct (existsb _ _) eqn:Hex.
    + unfold log_inv. cbn. do 3 (split; [done|]).
      intros a Ha. apply elem_of_union_r. by apply Hseen.
    + apply shown_inv.
      * rewrite fmap_app. cbn. apply NoDup_app. split; [done|].
        split; [|apply NoDup_singleton].
        intros x Hx ->%list_elem_of_singleton.
        apply existsb_id in Hx. congruence.
      * intros a [Ha| ->%list_elem_of_singleton]%elem_of_app.
        -- apply elem_of_union_r. by apply Hseen.
        -- apply elem_of_union_l. by apply elem_of_singleton.
  - unfold clearLog, log_inv. cbn.
    split; [lia|]. split; [constructor|]. split; [constructor|].
    intros a Ha. by apply elem_of_nil in Ha.
  - unfold setHistory. apply shown_inv; [exact Hu|].
    intros a Ha. apply seen_history. right. by apply list_elem_of_fmap_2.
Qed.

Lemma run_log_inv (us : list update) :
  Forall distinct_history us -> log_inv (foldl apply_update mounted us).
Proof.
  intros Hus. induction us as [|u us IH] using rev_ind.
  - unfold log_inv, mounted. cbn.
    split; [lia|]. split; [constructor|]. split; [constructor|].
    intros a Ha. by apply elem_of_nil in Ha.
  - rewrite foldl_app. cbn. apply Forall_app in Hus as [Hus Hu].
    apply apply_update_inv; [exact (Forall_inv Hu)|by apply IH].
Qed.

(** Sorting a sorted list with one entry appended puts the entry behind
    those at least as new and before the older ones. *)
Lemma sort_snoc_sorted e l :
  StronglySorted newer_or_equal l ->
  exists l1 l2,
    l = l1 ++ l2 /\
    sort newest_first (l ++ [e]) = l1 ++ e :: l2 /\
    Forall (fun a => (timestamp e <= timestamp a)%Z) l1 /\
    Forall (fun a => (timestamp a < timestamp e)%Z) l2.
Proof.
  induction l as [|x l IH]; intros Hl.
  - exists [], []. cbn. repeat split; constructor.
  - apply StronglySorted_cons in Hl as [Hx Hl].
    destruct (IH Hl) as (l1 & l2 & -> & Hsort & H1 & H2).
    change (sort newest_first ((x :: l1 ++ l2) ++ [e]))
      with (sort_insert newest_first x
              (sort newest_first ((l1 ++ l2) ++ [e]))).
    rewrite Hsort.
    destruct (Z.le_gt_cases (timestamp e) (timestamp x)) as [Hle|Hgt].
    + exists (x :: l1), l2. split; [done|].
      split; [|split; [by constructor|done]].
      destruct l1 as [|y l1]; cbn; unfold newest_first at 1.
      * by rewrite (proj2 (Z.leb_le _ _)) by lia.
      * apply Forall_cons in Hx as [Hy _]. unfold newer_or_equal in Hy.
        by rewrite (proj2 (Z.leb_le _ _)) by lia.
    + destruct l1 as [|y l1].
      * exists [], (x :: l2). cbn. split; [done|].
        split; [|split; [constructor|by constructor]].
        unfold newest_first at 1.
        rewrite (proj2 (Z.leb_gt _ _)) by lia. f_equal.
        destruct l2 as [|z l2]; cbn; [done|]. unfold newest_first at 1.
        apply Forall_cons in Hx as [Hz _]. unfold newer_or_equal in Hz.
        by rewrite (proj2 (Z.leb_le _ _)) by lia.
      * apply Forall_cons in Hx as [Hy _]. unfold newer_or_equal in Hy.
        apply Forall_cons in H1 as [Hy' _]. lia.
Qed.

(** X22. The activity list is always in order.  Whatever live events,
    clearings and fetched histories the hook processes after mounting (no
    fetched history naming a log twice), the list it shows holds at most 50
    entries, newest first, and no identifier twice; and every identifier
    it shows is in [processedTxs], so a live event already shown is never
    added again. *)
Theorem activity_log_sorted_deduplicated (us : list update) :
  Forall distinct_history us ->
  let h := foldl apply_update mounted us in
  (length (activities h) <= MAX_ENTRIES)%nat /\
  StronglySorted newer_or_equal (activities h) /\
  NoDup (id <$> activities h) /\
  (forall a, a ∈ activities h ->
     id a ∈ processedTxs h /\ addActivity a h = h).
Proof.
  intros Hus. cbv zeta.
  destruct (run_log_inv us Hus) as (Hlen & Hsorted & Hnd & Hseen).
  do 3 (split; [done|]).
  intros a Ha. split; [by apply Hseen|].
  unfold addActivity. rewrite decide_True; [done|by apply Hseen].
Qed.

(** X23. A live event shows up.  When [addActivity] gets an entry whose
    identifier was not processed before, the identifier is recorded and the
    entry is in the list afterwards, unless the list already holds 50
    entries none of which is older than it: then the list stays as it
    is. *)
Theorem addActivity_shows_new_event (us : list update) e :
  Forall distinct_history us ->
  let h := foldl apply_update mounted us in
  let h' := addActivity e h in
  id e ∉ processedTxs h ->
  processedTxs h' = {[ id e ]} ∪ processedTxs h /\
  (e ∈ activities h' \/
   (length (activities h) = MAX_ENTRIES /\
    Forall (fun a => (timestamp e <= timestamp a)%Z) (activities h) /\
    activities h' = activities h)).
Proof.
  intros Hus. cbv zeta. set (h := foldl apply_update mounted us).
  destruct (run_log_inv us Hus) as (Hlen & Hsorted & Hnd & Hseen).
  fold h in Hlen, Hsorted, Hnd, Hseen.
  intros Hnew. unfold addActivity. rewrite decide_False by done.
  cbn [processedTxs activities]. split; [done|].
  destruct (existsb _ _) eqn:Hex.
  { apply existsb_id, list_elem_of_fmap in Hex as (a & Hid & Ha).
    exfalso. apply Hnew. rewrite Hid. by apply Hseen. }
  destruct (sort_snoc_sorted e _ Hsorted) as (l1 & l2 & Hl & -> & H1 & H2).
  rewrite Hl, length_app in Hlen.
  destruct (decide (length l1 < MAX_ENTRIES)%nat) as [Hlt|Hge].
  - left. apply elem_of_take. exists (length l1). split; [|done].
    by rewrite list_lookup_middle.
  - right. assert (l2 = []) as -> by (apply length_zero_iff_nil; lia).
    rewrite app_nil_r in Hl. rewrite <- Hl in *. cbn in Hlen.
    split; [lia|]. split; [done|].
    rewrite take_app_le by lia. apply take_ge. lia.
Qed.

End ActivityLogFacts.


(** * Amounts as text *)

Section StakeCardFacts.

Import StakeCard Stdlib.Strings.Ascii.

Local Open Scope Z_scope.

Lemma of_uint_acc_value u : forall acc,
  Z.pos (Pos.of_uint_acc u acc)
  = Z.pos acc * 10 ^ Z.of_nat (Decimal.nb_digits u)
    + Z.of_N (Pos.of_uint u).
Proof.
  induction u; intros acc;
    cbn [Pos.of_uint_acc Pos.of_uint Decimal.nb_digits Z.of_N];
    rewrite ?Nat2Z.inj_succ, ?Z.pow_succ_r by lia;
    rewrite ?IHu; lia.
Qed.

Lemma digits_chars u : forall acc,
  digits 10 acc (chars u)
  = Some (acc * 10 ^ Z.of_nat (Decimal.nb_digits u) + Z.of_N (Pos.of_uint u)).
Proof.
  induction u; intros acc;
    cbn [chars NilEmpty.string_of_uint String.list_ascii_of_string digits
         Decimal.nb_digits Pos.of_uint Z.of_N];
    [f_equal; lia|..];
    fold (chars u);
    match goal with
    | |- context [digit_value ?c] =>
        let d := eval vm_compute in (digit_value c) in
        change (digit_value c) with d
    end;
    cbn match; rewrite IHu, ?of_uint_acc_value;
    rewrite Nat2Z.inj_succ, Z.pow_succ_r by lia; f_equal; lia.
Qed.

Lemma length_chars u : length (chars u) = Decimal.nb_digits u.
Proof.
  unfold chars. induction u; cbn; congruence.
Qed.

Lemma decimal_chars u : Forall (fun c => decimal c = true) (chars u).
Proof.
  unfold chars. induction u; cbn; constructor; done.
Qed.

Lemma toString_nonneg n : 0 <= n -> toString n = chars (N.to_uint (Z.to_N n)).
Proof.
  intros Hn. destruct n as [|p|p]; [reflexivity| |lia].
  unfold toString, chars.
  cbn [Z.to_int Z.to_N N.to_uint NilZero.string_of_int].
  unfold NilZero.string_of_uint.
  pose proof (DecimalPos.Unsigned.to_uint_nonnil p).
  destruct (Pos.to_uint p); congruence.
Qed.

Lemma digits_toString n : 0 <= n -> digits 10 0 (toString n) = Some n.
Proof.
  intros Hn. rewrite toString_nonneg, digits_chars by done.
  change (Pos.of_uint ?u) with (N.of_uint u).
  rewrite DecimalN.Unsigned.of_to. f_equal. lia.
Qed.

Lemma to_uint_nzhead p : Decimal.nzhead (Pos.to_uint p) = Pos.to_uint p.
Proof.
  pose proof (DecimalPos.Unsigned.to_of (Pos.to_uint p)) as H.
  pose proof (DecimalPos.Unsigned.of_to p) as Hp.
  rewrite Hp in H. cbn [N.to_uint] in H.
  destruct (Decimal.nzhead (Pos.to_uint p)) eqn:Hn.
  1: { apply unorm_0 in Hn. rewrite Hn in H. rewrite H in Hp. discriminate. }
  all: rewrite unorm_nzhead in H by (rewrite Hn; discriminate); congruence.
Qed.

Lemma chars_lower u :
  Decimal.nzhead u = u -> u <> Decimal.Nil ->
  10 ^ (Z.of_nat (Decimal.nb_digits u) - 1) <= Z.of_N (Pos.of_uint u).
Proof.
  intros Hu Hnil.
  destruct u; try done;
    try (cbn [Pos.of_uint Decimal.nb_digits Z.of_N];
         rewrite of_uint_acc_value;
         replace (Z.of_nat (S (Decimal.nb_digits u)) - 1)
           with (Z.of_nat (Decimal.nb_digits u)) by lia;
         pose proof (Z.pow_pos_nonneg 10 (Z.of_nat (Decimal.nb_digits u)));
         nia).
  exfalso. by eapply nzhead_nonzero.
Qed.

Lemma length_toString n k :
  0 <= n < 10 ^ Z.of_nat k -> (1 <= k)%nat -> (length (toString n) <= k)%nat.
Proof.
  intros Hn Hk. destruct n as [|p|p]; [cbn; lia| |lia].
  rewrite toString_nonneg, length_chars by lia. cbn [Z.to_N N.to_uint].
  pose proof (chars_lower (Pos.to_uint p) (to_uint_nzhead p)
                (DecimalPos.Unsigned.to_uint_nonnil p)) as Hlow.
  change (Pos.of_uint ?u) with (N.of_uint u) in Hlow.
  change (Pos.to_uint p) with (N.to_uint (N.pos p)) in Hlow at 2.
  rewrite DecimalN.Unsigned.of_to in Hlow. cbn [Z.of_N] in Hlow.
  destruct (decide (Decimal.nb_digits (Pos.to_uint p) <= k)%nat); [done|].
  exfalso.
  assert (10 ^ Z.of_nat k
          <= 10 ^ (Z.of_nat (Decimal.nb_digits (Pos.to_uint p)) - 1))
    by (apply Z.pow_le_mono_r; lia).
  lia.
Qed.

Lemma length_toString_pos n : 0 <= n -> (1 <= length (toString n))%nat.
Proof.
  intros Hn. destruct n as [|p|p]; [cbn; lia| |lia].
  rewrite toString_nonneg, length_chars by lia. cbn [Z.to_N N.to_uint].
  destruct (Decimal.nb_digits (Pos.to_uint p)) eqn:E; [|lia].
  apply nb_digits_0 in E. by apply DecimalPos.Unsigned.to_uint_nonnil in E.
Qed.

Lemma decimal_toString n :
  0 <= n -> Forall (fun c => decimal c = true) (toString n).
Proof. intros Hn. rewrite toString_nonneg by done. apply decimal_chars. Qed.

Lemma decimal_range c :
  decimal c = true <-> 48 <= Z.of_N (N_of_ascii c) <= 57.
Proof. unfold decimal. cbv zeta. rewrite andb_true_iff, !Z.leb_le. done. Qed.

Lemma decimal_digit_value c :
  decimal c = true ->
  exists d, digit_value c = Some d /\ 0 <= d < 10.
Proof.
  intros H. unfold digit_value. cbv zeta.
  unfold decimal in H. cbv zeta in H. rewrite H.
  apply andb_true_iff in H as [?%Z.leb_le ?%Z.leb_le].
  eexists. split; [reflexivity|lia].
Qed.

Lemma decimal_not_space c : decimal c = true -> is_space c = false.
Proof.
  intros H%decimal_range. unfold is_space. cbv zeta.
  by rewrite !(proj2 (N.eqb_neq _ _)) by lia.
Qed.

Lemma decimal_not_char c c' :
  decimal c = true -> decimal c' = false -> eqb c c' = false.
Proof.
  intros H H'. destruct (eqb_spec c c') as [->|]; [congruence|done].
Qed.

Lemma digits_app b s1 : forall acc s2,
  digits b acc (s1 ++ s2)
  = match digits b acc s1 with
    | Some v => digits b v s2
    | None => None
    end.
Proof.
  induction s1 as [|c s1 IH]; intros acc s2; cbn; [done|].
  destruct (digit_value c) as [d|]; [|done].
  destruct (d <? b); [apply IH|done].
Qed.

Lemma digits_zeros k : forall acc,
  digits 10 acc (replicate k "0"%char) = Some (acc * 10 ^ Z.of_nat k).
Proof.
  induction k as [|k IH]; intros acc.
  - cbn. f_equal. lia.
  - cbn [replicate digits]. change (digit_value "0") with (Some 0).
    cbn match. change (0 <? 10) with true. cbn match. rewrite IH.
    rewrite Nat2Z.inj_succ, Z.pow_succ_r by lia. f_equal. lia.
Qed.

(** A decimal numeral read after [acc]: [acc] shifted, plus the numeral's own
    value, which is below the power of ten of its length. *)
Lemma digits_decimal s :
  Forall (fun c => decimal c = true) s ->
  exists v,
    0 <= v < 10 ^ Z.of_nat (length s) /\
    forall acc, digits 10 acc s = Some (acc * 10 ^ Z.of_nat (length s) + v).
Proof.
  induction 1 as [|c s Hc _ (v & Hv & IH)].
  - exists 0. cbn. split; [lia|]. intros acc. f_equal. lia.
  - destruct (decimal_digit_value c Hc) as (d & Hd & Hrange).
    exists (d * 10 ^ Z.of_nat (length s) + v).
    cbn [length]. rewrite Nat2Z.inj_succ, Z.pow_succ_r by lia.
    split; [nia|]. intros acc. cbn [digits]. rewrite Hd.
    rewrite (proj2 (Z.ltb_lt _ _)) by lia. rewrite IH. f_equal. lia.
Qed.

Lemma split_decimal s :
  Forall (fun c => decimal c = true) s -> split "." s = [s].
Proof.
  induction 1 as [|c s Hc _ IH]; [done|]. cbn [split].
  rewrite (decimal_not_char c "." Hc) by done. by rewrite IH.
Qed.

Lemma split_decimal_dot s1 s2 :
  Forall (fun c => decimal c = true) s1 ->
  split "." (s1 ++ "."%char :: s2) = s1 :: split "." s2.
Proof.
  induction 1 as [|c s Hc _ IH]; [done|]. cbn [split app].
  rewrite (decimal_not_char c "." Hc) by done. by rewrite IH.
Qed.

Lemma drop_space_decimal s :
  Forall (fun c => decimal c = true) s -> drop_space s = s.
Proof.
  destruct 1 as [|c s Hc _]; [done|]. cbn.
  by rewrite decimal_not_space.
Qed.

Lemma BigInt_decimal s :
  Forall (fun c => decimal c = true) s -> s <> [] ->
  BigInt s = digits 10 0 s.
Proof.
  intros Hs Hne. unfold BigInt, trim.
  rewrite (drop_space_decimal s Hs).
  rewrite (drop_space_decimal (reverse s)) by by apply Forall_reverse.
  rewrite reverse_involutive.
  destruct Hs as [|c s Hc Hs]; [done|].
  rewrite !(decimal_not_char c _ Hc) by done.
  destruct Hs as [|p s Hp Hs]; [done|].
  rewrite !(decimal_not_char p _ Hp) by done.
  rewrite !andb_false_r. done.
Qed.

Lemma or_else_nil s : or_else (Some s) [] = s.
Proof. by destruct s. Qed.

Lemma digits_padStart r d :
  0 <= r ->
  digits 10 0 (padStart (toString r) d "0") = Some r.
Proof.
  intros Hr. unfold padStart.
  rewrite digits_app, digits_zeros. cbn [Z.mul]. by apply digits_toString.
Qed.

(** Reading back what [formatTokenAmount] wrote: the amount with everything
    below the fourth decimal cut off. *)
Lemma parse_format a d :
  0 <= a ->
  parseTokenAmount (formatTokenAmount a d) d
  = Some (a - a mod 10 ^ Z.of_nat (d - 4)).
Proof.
  intros Ha. unfold formatTokenAmount. cbv zeta.
  set (P := 10 ^ Z.of_nat d).
  assert (HP : 0 < P) by (apply Z.pow_pos_nonneg; lia).
  rewrite Z.quot_div_nonneg, Z.rem_mod_nonneg by lia.
  pose proof (Z.div_mod a P ltac:(lia)) as Ha'.
  pose proof (Z.div_pos a P Ha HP) as Hq.
  pose proof (Z.mod_pos_bound a P HP) as Hr.
  set (q := a / P) in *. set (r := a mod P) in *.
  pose proof (decimal_toString q Hq) as HI.
  pose proof (length_toString_pos q Hq) as HIlen.
  pose proof (digits_toString q Hq) as HIval.
  pose proof (digits_padStart r d ltac:(lia)) as HFval.
  assert (HF : Forall (fun c => decimal c = true)
                 (padStart (toString r) d "0")).
  { apply Forall_app. split; [by apply Forall_replicate|].
    apply decimal_toString. lia. }
  assert (HFlen : (1 <= d)%nat ->
                  length (padStart (toString r) d "0") = d).
  { intros Hd. unfold padStart. rewrite length_app, length_replicate.
    pose proof (length_toString r d ltac:(lia) Hd). lia. }
  set (F := padStart (toString r) d "0") in *.
  set (D4 := slice0 F 4).
  assert (HD4 : Forall (fun c => decimal c = true) D4)
    by by apply Forall_take.
  set (I := toString q) in *.
  assert (Hparts : split "." (I ++ "."%char :: D4) = [I; D4])
    by by rewrite split_decimal_dot, split_decimal.
  unfold parseTokenAmount. cbv zeta. rewrite Hparts.
  change ([I; D4] !! 0%nat) with (Some I).
  change ([I; D4] !! 1%nat) with (Some D4).
  rewrite or_else_nil.
  assert (Hor : or_else (Some I) ["0"%char] = I)
    by (destruct I; [cbn in HIlen; lia|done]).
  rewrite Hor.
  destruct (I ++ "."%char :: D4) eqn:Hvalue; [by destruct I|].
  assert (Hfrac : Forall (fun c => decimal c = true)
                    (slice0 (padEnd D4 d "0") d)).
  { apply Forall_take, Forall_app. split; [done|by apply Forall_replicate]. }
  rewrite BigInt_decimal.
  2: { apply Forall_app. by split. }
  2: { intros Hnil. apply (f_equal length) in Hnil.
       rewrite length_app in Hnil. cbn in Hnil. lia. }
  rewrite digits_app, HIval.
  destruct d as [|d'].
  { cbn. f_equal. unfold P in *. cbn in *.
    rewrite Z.mod_1_r, Z.sub_0_r. unfold q. by rewrite Z.div_1_r. }
  set (d := S d') in *. specialize (HFlen ltac:(lia)).
  set (m := Nat.min 4 d). set (e := (d - 4)%nat).
  assert (Hm : length D4 = m) by (unfold D4, slice0; rewrite length_take; lia).
  assert (Hpad : slice0 (padEnd D4 d "0") d = D4 ++ replicate e "0"%char).
  { unfold slice0, padEnd. rewrite Hm.
    replace (d - m)%nat with e by lia.
    apply take_ge. rewrite length_app, length_replicate. lia. }
  rewrite Hpad, digits_app.
  destruct (digits_decimal D4 HD4) as (vD & HvD & HD).
  destruct (digits_decimal (drop 4 F) ltac:(by apply Forall_drop))
    as (vR & HvR & HR).
  rewrite length_drop, HFlen in HvR, HR. fold e in HvR, HR.
  rewrite Hm in HvD, HD.
  rewrite HD, digits_zeros. f_equal.
  rewrite <- (take_drop 4 F), digits_app in HFval.
  fold (slice0 F 4) in HFval. fold D4 in HFval.
  rewrite HD, HR in HFval. injection HFval as HFval.
  assert (HPme : P = 10 ^ Z.of_nat m * 10 ^ Z.of_nat e).
  { unfold P. rewrite <- Z.pow_add_r by lia. f_equal. lia. }
  assert (Hmod : vR = a mod 10 ^ Z.of_nat e).
  { apply (Z.mod_unique_pos a _ (q * 10 ^ Z.of_nat m + vD)); [done|].
    rewrite Ha' at 1. rewrite HPme. lia. }
  rewrite <- Hmod. rewrite Ha' at 1. rewrite HPme. lia.
Qed.

(** X24. The Max button stays within the balance.  What [handleMax] writes
    into the amount field for a balance is the balance printed by
    [formatTokenAmount], and the form reads it back as the balance with
    everything below the fourth decimal cut off (nothing is cut when the
    token has at most four decimals).  So the parsed amount never exceeds
    the balance, "Insufficient Balance" is never shown after Max, less
    than one unit of the fourth decimal is left unstaked, and the form asks
    for an amount exactly when the balance is below that unit. *)
Theorem handleMax_stays_within_balance balance decimals allowance :
  0 <= balance ->
  let grain := 10 ^ Z.of_nat (decimals - 4) in
  let field := handleMax balance decimals in
  let parsed := parsedAmount field decimals in
  field = formatTokenAmount balance decimals /\
  parseTokenAmount field decimals = Some (balance - balance mod grain) /\
  parsed = balance - balance mod grain /\
  balance - grain < parsed <= balance /\
  hasInsufficientBalance parsed balance = false /\
  (hasNoAmount parsed = true <-> balance < grain) /\
  (canStake parsed balance allowance = true
   <-> grain <= balance /\ parsed <= allowance).
Proof.
  intros Hb. cbv zeta.
  change (handleMax balance decimals)
    with (formatTokenAmount balance decimals).
  unfold parsedAmount. rewrite (parse_format balance decimals Hb).
  set (grain := 10 ^ Z.of_nat (decimals - 4)).
  assert (Hgrain : 0 < grain) by (apply Z.pow_pos_nonneg; lia).
  pose proof (Z.mod_pos_bound balance grain Hgrain) as Hmod.
  assert (Hsmall : balance < grain -> balance mod grain = balance)
    by (intros; apply Z.mod_small; lia).
  set (cut := balance mod grain) in *.
  split; [done|]. split; [done|]. split; [done|]. split; [lia|].
  unfold canStake, needsApproval, hasNoAmount, hasInsufficientBalance.
  destruct (Z.gtb_spec (balance - cut) balance); [lia|].
  destruct (Z.leb_spec (balance - cut) 0),
    (Z.gtb_spec (balance - cut) 0),
    (Z.ltb_spec allowance (balance - cut)); cbn;
    (split; [done|]); split; split; intros; try done; try lia.
Qed.

End StakeCardFacts.


(** * Solvency, lock badge, activity log and amount field on examples *)

Lemma vault_solvent_before_excess_withdrawal_witness :
  future 0 (deployed deployer 0) 43200 claimed_half /\
  (forall who a, ExcessRewardsWithdrawn who a ∉ logs claimed_half) /\
  rewardPool claimed_half + principal_of (stakes_of claimed_half alice)
  <= balanceOf (stakingToken claimed_half) /\
  forall index s,
    stake_at claimed_half alice index = Ok s ->
    rewardPool claimed_half + amount s
    <= balanceOf (stakingToken claimed_half).
Proof.
  assert (Hf : future 0 (deployed deployer 0) 43200 claimed_half)
    by (apply (run_future txs_claimed_half); by_eval).
  assert (Hlog : forall who a,
             ExcessRewardsWithdrawn who a ∉ logs claimed_half).
  { intros who a Hin. vm_compute in Hin.
    repeat (apply elem_of_cons in Hin as [Hin|Hin]; [discriminate|]).
    by apply elem_of_nil in Hin. }
  split; [exact Hf|]. split; [exact Hlog|].
  exact (vault_solvent_before_excess_withdrawal deployer 0 0 43200
           claimed_half alice Hf Hlog).
Defined.

Lemma dashboard_lock_badge_matches_unstake_witness :
  stake_at staked alice 0 = Ok fresh_stake /\
  unstake alice 100 0 staked = Ok (transact alice 100 (Unstake 0) staked) /\
  (if Frontend.isUnlocked (stake_data 0 1 fresh_stake) (Z.of_N 100)
   then
     Frontend.timeUntilUnlock (stake_data 0 1 fresh_stake) (Z.of_N 100)
     = 0%Z /\
     exists reward,
       logs (transact alice 100 (Unstake 0) staked)
       = logs staked
         ++ [UnstakeAfterLock alice 0 (amount fresh_stake) reward]
   else
     (0 < Frontend.timeUntilUnlock (stake_data 0 1 fresh_stake)
            (Z.of_N 100))%Z /\
     (Z.of_N 100
      + Frontend.timeUntilUnlock (stake_data 0 1 fresh_stake) (Z.of_N 100)
      = Z.of_N (startTime fresh_stake + lockPeriod fresh_stake))%Z /\
     logs (transact alice 100 (Unstake 0) staked)
     = logs staked
       ++ [EarlyUnstake alice 0 (amount fresh_stake)
             (amount fresh_stake
              * penalty_of staked (lockPeriod fresh_stake) / DIVISOR)]).
Proof.
  assert (Hs : stake_at staked alice 0 = Ok fresh_stake) by by_eval.
  assert (Hu : unstake alice 100 0 staked
               = Ok (transact alice 100 (Unstake 0) staked)) by by_eval.
  split; [exact Hs|]. split; [exact Hu|].
  exact (dashboard_lock_badge_matches_unstake staked alice 100 0 fresh_stake
           (transact alice 100 (Unstake 0) staked) 0%nat 1%nat Hs Hu).
Defined.

Lemma activity_log_sorted_deduplicated_witness :
  Forall ActivityLog.distinct_history
    [ActivityLog.SetHistory [ActivityLog.staked_entry];
     ActivityLog.AddActivity ActivityLog.claimed_entry;
     ActivityLog.AddActivity ActivityLog.staked_entry] /\
  (let h :=
     foldl ActivityLog.apply_update ActivityLog.mounted
       [ActivityLog.SetHistory [ActivityLog.staked_entry];
        ActivityLog.AddActivity ActivityLog.claimed_entry;
        ActivityLog.AddActivity ActivityLog.staked_entry] in
   (length (ActivityLog.activities h) <= ActivityLog.MAX_ENTRIES)%nat /\
   StronglySorted ActivityLog.newer_or_equal (ActivityLog.activities h) /\
   NoDup (ActivityLog.id <$> ActivityLog.activities h) /\
   (forall a, a ∈ ActivityLog.activities h ->
      ActivityLog.id a ∈ ActivityLog.processedTxs h /\
      ActivityLog.addActivity a h = h)).
Proof.
  assert (Hus : Forall ActivityLog.distinct_history
                  [ActivityLog.SetHistory [ActivityLog.staked_entry];
                   ActivityLog.AddActivity ActivityLog.claimed_entry;
                   ActivityLog.AddActivity ActivityLog.staked_entry]).
  { constructor; [apply NoDup_singleton|]. by repeat constructor. }
  split; [exact Hus|].
  exact (activity_log_sorted_deduplicated _ Hus).
Defined.

Lemma addActivity_shows_new_event_witness :
  Forall ActivityLog.distinct_history
    [ActivityLog.AddActivity ActivityLog.staked_entry] /\
  (let h :=
     foldl ActivityLog.apply_update ActivityLog.mounted
       [ActivityLog.AddActivity ActivityLog.staked_entry] in
   let h' := ActivityLog.addActivity ActivityLog.claimed_entry h in
   (ActivityLog.id ActivityLog.claimed_entry ∉ ActivityLog.processedTxs h)
   /\
   ActivityLog.processedTxs h'
   = {[ ActivityLog.id ActivityLog.claimed_entry ]}
     ∪ ActivityLog.processedTxs h /\
   (ActivityLog.claimed_entry ∈ ActivityLog.activities h' \/
    (length (ActivityLog.activities h) = ActivityLog.MAX_ENTRIES /\
     Forall (fun a => (ActivityLog.timestamp ActivityLog.claimed_entry
                       <= ActivityLog.timestamp a)%Z)
       (ActivityLog.activities h) /\
     ActivityLog.activities h' = ActivityLog.activities h))).
Proof.
  assert (Hus : Forall ActivityLog.distinct_history
                  [ActivityLog.AddActivity ActivityLog.staked_entry])
    by (repeat constructor).
  assert (Hnew : ActivityLog.id ActivityLog.claimed_entry
                 ∉ ActivityLog.processedTxs
                     (foldl ActivityLog.apply_update ActivityLog.mounted
                        [ActivityLog.AddActivity ActivityLog.staked_entry])).
  { apply (bool_decide_unpack _). by_eval. }
  split; [exact Hus|]. cbv zeta. split; [exact Hnew|].
  exact (addActivity_shows_new_event _ ActivityLog.claimed_entry Hus Hnew).
Defined.

Lemma handleMax_stays_within_balance_witness :
  (0 <= 1234567890123456789012)%Z /\
  (let grain := (10 ^ Z.of_nat (18 - 4))%Z in
   let field := StakeCard.handleMax 1234567890123456789012 18 in
   let parsed := StakeCard.parsedAmount field 18 in
   field = StakeCard.formatTokenAmount 1234567890123456789012 18 /\
   StakeCard.parseTokenAmount field 18
   = Some (1234567890123456789012
           - 1234567890123456789012 mod grain)%Z /\
   parsed
   = (1234567890123456789012 - 1234567890123456789012 mod grain)%Z /\
   (1234567890123456789012 - grain < parsed <= 1234567890123456789012)%Z /\
   StakeCard.hasInsufficientBalance parsed 1234567890123456789012 = false /\
   (StakeCard.hasNoAmount parsed = true
    <-> 1234567890123456789012 < grain)%Z /\
   (StakeCard.canStake parsed 1234567890123456789012 0 = true
    <-> grain <= 1234567890123456789012 /\ parsed <= 0)%Z).
Proof.
  assert (Hb : (0 <= 1234567890123456789012)%Z) by by_eval.
  split; [exact Hb|].
  exact (handleMax_stays_within_balance 1234567890123456789012 18 0 Hb).
Defined.
